(** * Buffer cache (Lab8_locks/kernel/bio.c) and block map (Lab_9:File_System/kernel/fs.c)

    A shallow embedding of the sharded buffer cache and of the inode block
    map of the xv6 lab record, with the properties of the specification
    stated and settled against it. *)

From stdpp Require Import functions base numbers list gmap strings.

#[local] Set Warnings "-clear-no-such-hyp".
Local Open Scope Z_scope.

(** * Part I: the buffer cache, bio.c *)

Module Bio.

(** #define BUCKETSIZE 13, #define BUFFERSIZE 5 *)
Definition BUCKETSIZE : nat := 13.
Definition BUFFERSIZE : nat := 5.

(** Number of slots in the whole cache. *)
Definition NBUF : nat := (BUCKETSIZE * BUFFERSIZE)%nat.

(** Size of a block in bytes (fs.h, which is not among the sources; no
    statement below depends on the value). *)
Definition BSIZE : nat := 1024.

Definition INT_MAX : Z := 2147483647.
Definition INT_MIN : Z := -2147483648.

(** [int hash(uint blockno) { return blockno % BUCKETSIZE; }]
    The result indexes [bcache], so it is given as a [nat]. *)
Definition hash (blockno : Z) : nat := Z.to_nat (blockno mod Z.of_nat BUCKETSIZE).

(** Modelled from the spec: [struct buf] of buf.h, which is not among the
    sources.  The fields are those bio.c uses and the spec's data model
    lists: validity flag, identity (device, block number), the checkout
    (sleep) lock, the reference count (a signed int: 0 free, > 0 checked
    out, -1 reserved for eviction), the last-access tick (uint) and the
    payload.  The list links [prev]/[next] are kept in [heads] below.
    The lock is [Some pid] when process [pid] holds it. *)
Record buf : Type := mkBuf {
  valid : Z;
  dev : Z;
  blockno : Z;
  lock : option nat;
  refcnt : Z;
  ticks : Z;
  data : list Z
}.

Definition set_valid (v : Z) (x : buf) : buf :=
  mkBuf v (dev x) (blockno x) (lock x) (refcnt x) (ticks x) (data x).
Definition set_dev (v : Z) (x : buf) : buf :=
  mkBuf (valid x) v (blockno x) (lock x) (refcnt x) (ticks x) (data x).
Definition set_blockno (v : Z) (x : buf) : buf :=
  mkBuf (valid x) (dev x) v (lock x) (refcnt x) (ticks x) (data x).
Definition set_lock (v : option nat) (x : buf) : buf :=
  mkBuf (valid x) (dev x) (blockno x) v (refcnt x) (ticks x) (data x).
Definition set_refcnt (v : Z) (x : buf) : buf :=
  mkBuf (valid x) (dev x) (blockno x) (lock x) v (ticks x) (data x).
Definition set_ticks (v : Z) (x : buf) : buf :=
  mkBuf (valid x) (dev x) (blockno x) (lock x) (refcnt x) v (data x).
Definition set_data (v : list Z) (x : buf) : buf :=
  mkBuf (valid x) (dev x) (blockno x) (lock x) (refcnt x) (ticks x) v.

(** A zero-initialised [struct buf], as the global [bcache] holds them at
    boot. *)
Definition buf0 : buf := mkBuf 0 0 0 None 0 0 (replicate BSIZE 0).

#[global] Instance buf_inhabited : Inhabited buf := populate buf0.

(** The global [bcache[BUCKETSIZE]] together with the disk behind it.

    - [slots]: the [BUCKETSIZE * BUFFERSIZE] buffers; the pointer
      [&bcache[i].buf[j]] is the index [i * BUFFERSIZE + j].
    - [heads]: for every bucket [i] the circular doubly linked list anchored
      at [bcache[i].head], as the sequence of slots met when following
      [next] from [head.next] up to the head again; following [prev] from
      [head.prev] meets the same slots in reverse.
    - [disk]: the blocks on disk, by (device, block number).

    Part III keeps the pointers themselves and shows that the assignments
    of bio.c do to them what the list operations below do to [heads].

    The spin locks ([bcache[i].lock], [evict_lock]) are not part of the
    state: every function below runs from its first to its last line
    without another process in between, and no spin lock is held when a
    function returns, sleeps or starts.  Part VI cuts [bget] at the lines
    where it holds no spin lock and lets the calls of two processes run
    into each other. *)
Record bcache : Type := mkCache {
  slots : list buf;
  heads : list (list nat);
  disk : gmap (Z * Z) (list Z)
}.

Definition slot (c : bcache) (b : nat) : buf := slots c !!! b.
Definition bucket (c : bcache) (i : nat) : list nat := heads c !!! i.

(** Assignment to fields of [*b]. *)
Definition upd (b : nat) (f : buf → buf) (c : bcache) : bcache :=
  mkCache (alter f b (slots c)) (heads c) (disk c).

(** [b->next->prev = b->prev; b->prev->next = b->next;]
    takes [b] out of the list it is in, whichever bucket that is. *)
Definition unlink (b : nat) (c : bcache) : bcache :=
  mkCache (slots c) (filter (λ x, x ≠ b) <$> heads c) (disk c).

(** [b->next = head.next; b->prev = &head; head.next->prev = b; head.next = b;]
    puts [b] right after the head of bucket [i]. *)
Definition link_head (i b : nat) (c : bcache) : bcache :=
  mkCache (slots c) (alter (λ l, b :: l) i (heads c)) (disk c).

(** [b->prev = head.prev; b->next = &head; head.prev->next = b; head.prev = b;]
    puts [b] right before the head of bucket [i]. *)
Definition link_tail (i b : nat) (c : bcache) : bcache :=
  mkCache (slots c) (alter (λ l, l ++ [b]) i (heads c)) (disk c).

(** How a call ends. *)
Inductive result (A : Type) : Type :=
| Ok (a : A) (c : bcache)      (* returns [a] *)
| Asleep (b : nat) (c : bcache) (* the caller sleeps in [acquiresleep(&b->lock)] *)
| Panic (msg : string)          (* [panic(msg)]: the kernel stops *)
| Spin                          (* the retry loop of [bget] never exits *)
| Undefined.                    (* signed overflow of a reference count *)
Arguments Ok {A} a c.
Arguments Asleep {A} b c.
Arguments Panic {A} msg.
Arguments Spin {A}.
Arguments Undefined {A}.

(** [binit]: every bucket's list is built by putting [buf[0]], ...,
    [buf[BUFFERSIZE-1]] one after the other right after the head. *)
Definition binit (d : gmap (Z * Z) (list Z)) : bcache :=
  mkCache (replicate NBUF buf0)
          ((λ i, foldl (λ l b, b :: l) [] (seq (i * BUFFERSIZE) BUFFERSIZE))
             <$> seq 0 BUCKETSIZE)
          d.

(** Modelled from the spec: the checkout lock of sleeplock.c (not among the
    sources), "mutually exclusive, blocking, owned by at most one caller at
    a time". *)
Definition holdingsleep (pid b : nat) (c : bcache) : bool :=
  bool_decide (lock (slot c b) = Some pid).

Definition acquiresleep (pid b : nat) (c : bcache) : result nat :=
  match lock (slot c b) with
  | None => Ok b (upd b (set_lock (Some pid)) c)
  | Some _ => Asleep b c
  end.

Definition releasesleep (b : nat) (c : bcache) : bcache :=
  upd b (set_lock None) c.

(** Modelled from the spec: [virtio_disk_rw(b, write)], "synchronous
    read/write of a slot's content to/from physical storage". *)
Definition virtio_disk_rw (b : nat) (write : bool) (c : bcache) : bcache :=
  let x := slot c b in
  if write
  then mkCache (slots c) (heads c) (<[(dev x, blockno x) := data x]> (disk c))
  else upd b (set_data (default (replicate BSIZE 0) (disk c !! (dev x, blockno x)))) c.

(** [++b->refcnt] and [b->refcnt--] on a signed int. *)
Definition incr (r : Z) : option Z := if decide (r = INT_MAX) then None else Some (r + 1).
Definition decr (r : Z) : option Z := if decide (r = INT_MIN) then None else Some (r - 1).

(** ** [select_victim] *)

(** The three locals of the scan: [least], [least_b], [least_buck]. *)
Record scan : Type := mkScan {
  least : Z;
  least_b : option nat;
  least_buck : Z
}.

Definition scan0 : scan := mkScan 4294967295 None (-1).

(** Body of the inner loop, for the slot [b] of bucket [i]. *)
Definition scan_slot (c : bcache) (i : nat) (s : scan) (b : nat) : scan :=
  if decide (refcnt (slot c b) = 0 ∧ ticks (slot c b) < least s)
  then mkScan (ticks (slot c b)) (Some b) (Z.of_nat i)
  else s.

(** Body of the outer loop: bucket [i] is walked from [head.prev] backwards. *)
Definition scan_bucket (c : bcache) (buckno : nat) (s : scan) (i : nat) : scan :=
  if decide (i = buckno) then s
  else foldl (scan_slot c i) s (rev (bucket c i)).

Definition scan_victim (buckno : nat) (c : bcache) : scan :=
  foldl (scan_bucket c buckno) scan0 (seq 0 BUCKETSIZE).

(** Second half of [select_victim]: under the lock of the candidate's
    bucket, check again and reserve. *)
Definition claim_victim (b : nat) (c : bcache) : result (option nat) :=
  if decide (refcnt (slot c b) ≠ 0) then Ok None c
  else Ok (Some b) (upd b (set_refcnt (-1)) c).

(** [select_victim], with what other processes do to the cache between
    the scan (which releases the last bucket lock) and the second
    acquisition of the candidate's bucket lock given as [env]. *)
Definition select_victim_env (env : bcache → bcache) (buckno : nat) (c : bcache)
  : result (option nat) :=
  match least_b (scan_victim buckno c) with
  | None => Panic "bget: no buffers"
  | Some b => claim_victim b (env c)
  end.

(** [select_victim] with nothing in between. *)
Definition select_victim (buckno : nat) (c : bcache) : result (option nat) :=
  select_victim_env id buckno c.

(** ** [bget] *)

(** The test of the first loop of [bget]: same identity and not being
    evicted. *)
Definition cached (d n : Z) (x : buf) : Prop :=
  dev x = d ∧ blockno x = n ∧ refcnt x ≠ -1.

#[global] Instance cached_dec d n x : Decision (cached d n x).
Proof. unfold cached. apply _. Defined.

(** The four assignments of the recycling paths. *)
Definition recycle (d n : Z) (x : buf) : buf :=
  set_refcnt 1 (set_valid 0 (set_blockno n (set_dev d x))).

(** First loop of [bget]: walk bucket [buckno] from [head.next] and stop at
    the first slot holding (d, n) that is not being evicted. *)
Definition lookup_cached (d n : Z) (buckno : nat) (c : bcache) : option nat :=
  find (λ b, bool_decide (cached d n (slot c b))) (bucket c buckno).

(** Second loop of [bget]: walk bucket [buckno] from [head.prev] and stop at
    the first slot with [refcnt == 0]. *)
Definition lookup_free (buckno : nat) (c : bcache) : option nat :=
  find (λ b, bool_decide (refcnt (slot c b) = 0)) (rev (bucket c buckno)).

(** The end of [bget]: the reserved slot [b] is taken out of its list (under
    the lock of bucket [hash(least_b->blockno)], which the model does not
    hold), given its new identity and linked before the head of [buckno]. *)
Definition migrate (now : Z) (d n : Z) (buckno b : nat) (c : bcache) : bcache :=
  let c2 := unlink b c in
  let c3 := upd b (λ x, set_ticks now (recycle d n x)) c2 in
  link_tail buckno b c3.

(** [now] is the value of the global [ticks] and [pid] the calling process. *)
Definition bget (now : Z) (pid : nat) (d n : Z) (c : bcache) : result nat :=
  let buckno := hash n in
  (* Is the block already cached? *)
  match lookup_cached d n buckno c with
  | Some b =>
      match incr (refcnt (slot c b)) with
      | None => Undefined
      | Some r => acquiresleep pid b (upd b (λ x, set_ticks now (set_refcnt r x)) c)
      end
  | None =>
      (* Not cached: recycle an unused buffer of the bucket. *)
      match lookup_free buckno c with
      | Some b => acquiresleep pid b (upd b (recycle d n) c)
      | None =>
          (* [while (least_b == 0) least_b = select_victim(buckno);]
             A call that returns 0 leaves the cache as it was, so the next
             call returns 0 again. *)
          match select_victim buckno c with
          | Ok (Some b) c1 => acquiresleep pid b (migrate now d n buckno b c1)
          | Ok None _ => Spin
          | Asleep b' c' => Asleep b' c'
          | Panic msg => Panic msg
          | Spin => Spin
          | Undefined => Undefined
          end
      end
  end.

(** Second half of [bread], once [bget] has returned [b]. *)
Definition bread_fill (b : nat) (c : bcache) : bcache :=
  if decide (valid (slot c b) = 0)
  then upd b (set_valid 1) (virtio_disk_rw b false c)
  else c.

Definition bread (now : Z) (pid : nat) (d n : Z) (c : bcache) : result nat :=
  match bget now pid d n c with
  | Ok b c1 => Ok b (bread_fill b c1)
  | r => r
  end.

Definition bwrite (pid b : nat) (c : bcache) : result unit :=
  if holdingsleep pid b c then Ok tt (virtio_disk_rw b true c)
  else Panic "bwrite".

Definition brelse (pid b : nat) (c : bcache) : result unit :=
  if holdingsleep pid b c then
    let c1 := releasesleep b c in
    let buckno := hash (blockno (slot c1 b)) in
    if decide (refcnt (slot c1 b) = -1) then Panic "brelse: refcnt == -1"
    else
      match decr (refcnt (slot c1 b)) with
      | None => Undefined
      | Some r =>
          let c2 := upd b (set_refcnt r) c1 in
          if decide (r = 0)
          then Ok tt (link_head buckno b (unlink b c2))  (* no one is waiting for it *)
          else Ok tt c2
      end
  else Panic "brelse".

Definition bpin (b : nat) (c : bcache) : result unit :=
  match incr (refcnt (slot c b)) with
  | None => Undefined
  | Some r => Ok tt (upd b (set_refcnt r) c)
  end.

Definition bunpin (b : nat) (c : bcache) : result unit :=
  match decr (refcnt (slot c b)) with
  | None => Undefined
  | Some r => Ok tt (upd b (set_refcnt r) c)
  end.

(** ** Sequences of calls *)

Definition rbind {A B : Type} (r : result A) (k : A → bcache → result B) : result B :=
  match r with
  | Ok a c => k a c
  | Asleep b c => Asleep b c
  | Panic msg => Panic msg
  | Spin => Spin
  | Undefined => Undefined
  end.

(** [b = bread(d, n); brelse(b);] *)
Definition read_release (now : Z) (pid : nat) (d n : Z) (c : bcache) : result nat :=
  rbind (bread now pid d n c) (λ b c1,
  rbind (brelse pid b c1) (λ _ c2, Ok b c2)).

(** The same for the blocks [ns] of device [d], one after the other; the
    result lists the slots the reads returned. *)
Fixpoint read_release_all (now : Z) (pid : nat) (d : Z) (ns : list Z) (c : bcache)
  : result (list nat) :=
  match ns with
  | [] => Ok [] c
  | n :: ns' =>
      rbind (read_release now pid d n c) (λ b c1,
      rbind (read_release_all now pid d ns' c1) (λ bs c2, Ok (b :: bs) c2))
  end.

(** [bread] of the blocks [ns] of device [d], none of them released. *)
Fixpoint read_all (now : Z) (pid : nat) (d : Z) (ns : list Z) (c : bcache)
  : result (list nat) :=
  match ns with
  | [] => Ok [] c
  | n :: ns' =>
      rbind (bread now pid d n c) (λ b c1,
      rbind (read_all now pid d ns' c1) (λ bs c2, Ok (b :: bs) c2))
  end.

(** The cache a call leaves behind, when it leaves one. *)
Definition after {A : Type} (r : result A) : option bcache :=
  match r with
  | Ok _ c => Some c
  | Asleep _ c => Some c
  | _ => None
  end.

(** The identity (device, block number) a slot holds. *)
Definition identity (x : buf) : Z * Z := (dev x, blockno x).

(** The bucket whose array [buf[BUFFERSIZE]] holds slot [b]. *)
Definition home (b : nat) : nat := (b / BUFFERSIZE)%nat.

(** No slot sits in the list of another bucket than the one whose array
    holds it: nothing has been moved between buckets. *)
Definition no_migration (c : bcache) : bool :=
  forallb (λ i, forallb (λ b, bool_decide (home b = i)) (bucket c i)) (seq 0 BUCKETSIZE).

(** *** The calls a process can make, one at a time

    [Wakeup] is the return of [acquiresleep] for a process that slept on the
    lock, and [Fill] the rest of [bread] after [bget] has returned. *)
Inductive call : Type :=
| Bget (now : Z) (pid : nat) (d n : Z)
| Bread (now : Z) (pid : nat) (d n : Z)
| Bwrite (pid b : nat)
| Brelse (pid b : nat)
| Bpin (b : nat)
| Bunpin (b : nat)
| Wakeup (pid b : nat)
| Fill (b : nat).

(** The cache after a call that neither panics, spins nor overflows. *)
Definition exec (o : call) (c : bcache) : option bcache :=
  match o with
  | Bget now pid d n => after (bget now pid d n c)
  | Bread now pid d n => after (bread now pid d n c)
  | Bwrite pid b => after (bwrite pid b c)
  | Brelse pid b => after (brelse pid b c)
  | Bpin b => after (bpin b c)
  | Bunpin b => after (bunpin b c)
  | Wakeup pid b =>
      match acquiresleep pid b c with Ok _ c' => Some c' | _ => None end
  | Fill b => Some (bread_fill b c)
  end.

(** A call that decrements a reference count is careful when the count is
    at least 1. *)
Definition careful (o : call) (c : bcache) : Prop :=
  match o with
  | Brelse _ b | Bunpin b => 1 ≤ refcnt (slot c b)
  | _ => True
  end.

#[global] Instance careful_dec o c : Decision (careful o c).
Proof. destruct o; simpl; apply _. Defined.

(** One call, any call. *)
Definition step_any (c c' : bcache) : Prop := ∃ o, exec o c = Some c'.

(** One careful call, from its first line to its last. *)
Definition step (c c' : bcache) : Prop := ∃ o, careful o c ∧ exec o c = Some c'.

(** A sequence of calls, and a sequence of careful calls. *)
Fixpoint run (os : list call) (c : bcache) : option bcache :=
  match os with
  | [] => Some c
  | o :: os' => match exec o c with Some c' => run os' c' | None => None end
  end.

Fixpoint run_careful (os : list call) (c : bcache) : option bcache :=
  match os with
  | [] => Some c
  | o :: os' =>
      if decide (careful o c)
      then match exec o c with Some c' => run_careful os' c' | None => None end
      else None
  end.

(** *** A cache with one free slot, last used at tick 0xffffffff

    Process 1 reads and releases block (1, 1) twice while the global [ticks]
    is 0xffffffff (the second read is a hit and records the tick), then
    reads the 64 other blocks (1, 0..64) and keeps them. *)
Definition late : Z := 4294967295.

Definition crowded : result (list nat) :=
  rbind (read_release late 1 1 1 (binit ∅)) (λ _ c1,
  rbind (read_release late 1 1 1 c1) (λ _ c2,
  read_all late 1 1 (filter (λ n, n ≠ 1) (map Z.of_nat (seq 0 65))) c2)).

Definition crowded_cache : bcache := default (binit ∅) (after crowded).

(** The slots [select_victim buckno] looks at. *)
Definition in_other_bucket (c : bcache) (buckno i b : nat) : Prop :=
  (i < BUCKETSIZE)%nat ∧ i ≠ buckno ∧ b ∈ bucket c i.

(** What the scan has found after looking at the slots [S]: [least] is a
    lower bound of the ticks of the free slots among them, and [least_b] is
    a free slot among them with that tick, if [least] is below the initial
    0xffffffff. *)
Definition scanned (c : bcache) (S : nat → nat → Prop) (s : scan) : Prop :=
  (∀ i b, S i b → refcnt (slot c b) = 0 →
          least s ≤ ticks (slot c b) ∨ 4294967295 ≤ ticks (slot c b)) ∧
  match least_b s with
  | None => least s = 4294967295
  | Some b =>
      (∃ i, S i b ∧ least_buck s = Z.of_nat i) ∧ refcnt (slot c b) = 0 ∧
      ticks (slot c b) = least s ∧ least s < 4294967295
  end.

(** *** What a careful call that no other call runs into keeps

    Every slot is in the list of one bucket, no reference count is
    negative, a slot sits in the bucket of its block number unless it still
    carries the zero identity it had at boot, and two slots carry the same
    identity only if that is the zero identity.  Part VI has two calls of
    [bget] that run into each other and leave a block in two slots. *)
Record inv (c : bcache) : Prop := mkInv {
  inv_slots : length (slots c) = NBUF;
  inv_heads : length (heads c) = BUCKETSIZE;
  inv_in : ∀ i b, b ∈ bucket c i → (b < NBUF)%nat;
  inv_all : ∀ b, (b < NBUF)%nat → ∃ i, b ∈ bucket c i;
  inv_one : ∀ i j b, b ∈ bucket c i → b ∈ bucket c j → i = j;
  inv_ref : ∀ b, 0 ≤ refcnt (slot c b);
  inv_home : ∀ i b, b ∈ bucket c i →
    hash (blockno (slot c b)) = i ∨ identity (slot c b) = (0, 0);
  inv_uniq : ∀ b b', b ≠ b' →
    identity (slot c b) = identity (slot c b') → identity (slot c b) = (0, 0)
}.

(** Calls that decrement a reference count once too often. *)
Definition misuse : list call :=
  [Bread 0 1 1 0; Bunpin 0; Brelse 1 0; Bread 0 1 1 0; Bpin 0].

(** Careful calls of two processes, and the cache they lead to. *)
Definition sample_calls : list call :=
  [Bread 0 1 1 0; Bpin 0; Brelse 1 0; Bread 3 2 1 13; Bunpin 0; Bwrite 2 1;
   Brelse 2 1; Bget 5 2 1 0].

Definition sample_cache : bcache :=
  default (binit ∅) (run_careful sample_calls (binit ∅)).

(** The blocks of the scenarios below. *)
Definition first_blocks (k : nat) : list Z := map Z.of_nat (seq 0 k).
Definition same_shard_blocks (k : nat) : list Z :=
  map (λ j, Z.of_nat BUCKETSIZE * Z.of_nat j) (seq 0 k).

End Bio.

(** * Part II: the block map of an inode, fs.c *)

Module Fs.

(** Calls into the rest of the kernel, in the order they are made. *)
Inductive event : Type :=
| EvBalloc (dev addr : Z)
| EvBfree (dev addr : Z)
| EvBread (dev addr : Z)
| EvBrelse (dev addr : Z)
| EvLogWrite (dev addr : Z)
| EvIupdate (dev : Z) (addrs : list Z) (size : Z).

(** What fs.c takes from elsewhere: the constants [NDIRECT] and [NINDIRECT]
    of fs.h, and the block the allocator hands out next, which it chooses
    from the device and from what has been allocated and freed so far. *)
Class Env : Type := {
  NDIRECT : nat;
  NINDIRECT : nat;
  balloc_pick : Z → list event → Z
}.

(** The fields of [struct inode] (file.h) that [bmap] and [itrunc] use;
    [addrs] has [NDIRECT + 2] entries: the direct entries, the
    single-indirect pointer at [NDIRECT] and the double-indirect pointer at
    [NDIRECT + 1]. *)
Record inode : Type := mkInode {
  dev : Z;
  addrs : list Z;
  size : Z
}.

(** The inode [*ip], the contents of the disk blocks as the buffer cache
    serves them (a block read as [uint] array), the buffers the caller has
    read and not released yet, and the calls made so far. *)
Record state : Type := mkState {
  ip : inode;
  blocks : gmap (Z * Z) (list Z);
  held : list (Z * Z);
  trace : list event
}.

(** How a call ends: it returns, the kernel panics, or the caller sleeps for
    ever on the lock of a buffer it holds itself. *)
Inductive result (A : Type) : Type :=
| Ret (a : A) (st : state)
| Panic (msg : string)
| Deadlock (dev addr : Z).
Arguments Ret {A} a st.
Arguments Panic {A} msg.
Arguments Deadlock {A} dev addr.

Definition M (A : Type) : Type := state → result A.

Definition ret {A : Type} (a : A) : M A := λ st, Ret a st.

Definition bind {A B : Type} (m : M A) (k : A → M B) : M B :=
  λ st, match m st with
        | Ret a st' => k a st'
        | Panic msg => Panic msg
        | Deadlock d a => Deadlock d a
        end.

Notation "x <- m ;; k" := (bind m (λ x, k))
  (at level 100, m at next level, right associativity).
Notation "m ;; k" := (bind m (λ _, k))
  (at level 100, right associativity).

Definition emit (e : event) : M unit :=
  λ st, Ret tt (mkState (ip st) (blocks st) (held st) (trace st ++ [e])).

Section WithEnv.
Context `{Env}.

(** Modelled from the spec: the double-indirect capacity [ND_INDIRECT] of
    fs.h, which is not among the sources: "indices [NDIRECT+NINDIRECT,
    NDIRECT+NINDIRECT+NINDIRECT²)". *)
Definition ND_INDIRECT : nat := (NINDIRECT * NINDIRECT)%nat.

(** ** The calls fs.c makes *)

(** Modelled from the spec: [balloc(dev)], "allocate_block(device) ->
    blockNumber".  Nothing else is taken from it: the block reads as
    [blocks] has it. *)
Definition balloc (d : Z) : M Z :=
  λ st, let a := balloc_pick d (trace st) in
        Ret a (mkState (ip st) (blocks st) (held st) (trace st ++ [EvBalloc d a])).

(** Modelled from the spec: [bfree(dev, b)], "free_block(device,
    blockNumber)". *)
Definition bfree (d a : Z) : M unit := emit (EvBfree d a).

(** Modelled from the spec: [bread(dev, addr)] and [brelse(bp)] of the
    buffer cache this fs.c is linked with, "read(device, blockno) -> slot
    (blocks until content valid; returns locked slot)" and "release(slot)
    (unlocks)", which "fails fatally" when the caller does not hold the
    lock.  A buffer is named by its block.  Reading a block whose buffer the
    caller holds already sleeps on the caller's own lock. *)
Definition bread (d a : Z) : M (Z * Z) :=
  λ st, if decide ((d, a) ∈ held st) then Deadlock d a
        else Ret (d, a)
                 (mkState (ip st) (blocks st) ((d, a) :: held st)
                          (trace st ++ [EvBread d a])).

Definition brelse (bp : Z * Z) : M unit :=
  λ st, if decide (bp ∈ held st)
        then Ret tt (mkState (ip st) (blocks st) (filter (λ x, x ≠ bp) (held st))
                             (trace st ++ [EvBrelse bp.1 bp.2]))
        else Panic "brelse".

(** Modelled from the spec: [log_write(bp)], "marks a slot's content for
    inclusion in the current crash-safe transaction". *)
Definition log_write (bp : Z * Z) : M unit := emit (EvLogWrite bp.1 bp.2).

(** Modelled from the spec: [iupdate(ip)], "persist_inode_metadata(inode)";
    the event records what is persisted. *)
Definition iupdate : M unit :=
  λ st, emit (EvIupdate (dev (ip st)) (addrs (ip st)) (size (ip st))) st.

(** ** Memory *)

(** [ip->dev], [ip->addrs[i]], [ip->addrs[i] = v], [ip->size = v]. *)
Definition get_dev : M Z := λ st, Ret (dev (ip st)) st.

Definition get_addr (i : nat) : M Z := λ st, Ret (addrs (ip st) !!! i) st.

Definition set_addr (i : nat) (v : Z) : M unit :=
  λ st, Ret tt (mkState (mkInode (dev (ip st)) (<[i := v]> (addrs (ip st))) (size (ip st)))
                        (blocks st) (held st) (trace st)).

Definition set_size (v : Z) : M unit :=
  λ st, Ret tt (mkState (mkInode (dev (ip st)) (addrs (ip st)) v)
                        (blocks st) (held st) (trace st)).

(** [bp->data] as an array of [uint]: the [NINDIRECT] entries of the block. *)
Definition block_of (st : state) (bp : Z * Z) : list Z :=
  resize NINDIRECT 0 (default [] (blocks st !! bp)).

(** [a[j]] and [a[j] = v] for the array [a] of [bp->data]. *)
Definition get_entry (bp : Z * Z) (j : nat) : M Z :=
  λ st, Ret (block_of st bp !!! j) st.

Definition set_entry (bp : Z * Z) (j : nat) (v : Z) : M unit :=
  λ st, Ret tt (mkState (ip st) (<[bp := <[j := v]> (block_of st bp)]> (blocks st))
                        (held st) (trace st)).

(** ** [bmap] *)

Definition bmap (bn : Z) : M Z :=
  d <- get_dev ;;
  if decide (bn < Z.of_nat NDIRECT) then
    addr <- get_addr (Z.to_nat bn) ;;
    if decide (addr = 0) then
      addr <- balloc d ;;
      set_addr (Z.to_nat bn) addr ;;
      ret addr
    else ret addr
  else
  let bn := bn - Z.of_nat NDIRECT in
  if decide (bn < Z.of_nat NINDIRECT) then
    (* Load indirect block, allocating if necessary. *)
    addr <- get_addr NDIRECT ;;
    addr <- (if decide (addr = 0)
            then addr <- balloc d ;; set_addr NDIRECT addr ;; ret addr
            else ret addr) ;;
    bp <- bread d addr ;;
    addr <- get_entry bp (Z.to_nat bn) ;;
    addr <- (if decide (addr = 0)
            then addr <- balloc d ;; set_entry bp (Z.to_nat bn) addr ;;
                 log_write bp ;; ret addr
            else ret addr) ;;
    brelse bp ;;
    ret addr
  else
  let bn := bn - Z.of_nat NINDIRECT in
  if decide (bn < Z.of_nat ND_INDIRECT) then
    let indirect_index := Z.to_nat (bn / Z.of_nat NINDIRECT) in
    let direct_index := Z.to_nat (bn mod Z.of_nat NINDIRECT) in
    addr <- get_addr (NDIRECT + 1) ;;
    addr <- (if decide (addr = 0)
            then addr <- balloc d ;; set_addr (NDIRECT + 1) addr ;; ret addr
            else ret addr) ;;
    db_bp <- bread d addr ;;
    addr <- get_entry db_bp indirect_index ;;
    addr <- (if decide (addr = 0)
            then addr <- balloc d ;; set_entry db_bp indirect_index addr ;;
                 log_write db_bp ;; ret addr
            else ret addr) ;;
    bp <- bread d addr ;;
    addr <- get_entry bp direct_index ;;
    addr <- (if decide (addr = 0)
            then addr <- balloc d ;; set_entry bp direct_index addr ;;
                 log_write bp ;; ret addr
            else ret addr) ;;
    brelse bp ;;
    brelse db_bp ;;
    ret addr
  else
  λ _, Panic "bmap: out of range".

(** ** [itrunc] *)

(** [for(i ...){ if(ip->addrs[i]){ bfree(ip->dev, ip->addrs[i]); ip->addrs[i] = 0; } }] *)
Fixpoint trunc_direct (d : Z) (ix : list nat) : M unit :=
  match ix with
  | [] => ret tt
  | i :: ix' =>
      a <- get_addr i ;;
      (if decide (a ≠ 0) then bfree d a ;; set_addr i 0 else ret tt) ;;
      trunc_direct d ix'
  end.

(** [for(j ...){ if(a[j]) bfree(ip->dev, a[j]); }] *)
Fixpoint free_entries (d : Z) (bp : Z * Z) (js : list nat) : M unit :=
  match js with
  | [] => ret tt
  | j :: js' =>
      a <- get_entry bp j ;;
      (if decide (a ≠ 0) then bfree d a else ret tt) ;;
      free_entries d bp js'
  end.

(** The loop over the double-indirect block. *)
Fixpoint trunc_double (d : Z) (db_bp : Z * Z) (ix : list nat) : M unit :=
  match ix with
  | [] => ret tt
  | i :: ix' =>
      b <- get_entry db_bp i ;;
      (if decide (b ≠ 0) then
         bp <- bread d b ;;
         free_entries d bp (seq 0 NINDIRECT) ;;
         brelse bp ;;
         b <- get_entry db_bp i ;;
         bfree d b
       else ret tt) ;;
      trunc_double d db_bp ix'
  end.

(** The second block of [itrunc]: the single-indirect block. *)
Definition trunc_indirect (d : Z) : M unit :=
  a <- get_addr NDIRECT ;;
  if decide (a ≠ 0) then
    bp <- bread d a ;;
    free_entries d bp (seq 0 NINDIRECT) ;;
    brelse bp ;;
    a <- get_addr NDIRECT ;;
    bfree d a ;;
    set_addr NDIRECT 0
  else ret tt.

(** The third block of [itrunc]: the double-indirect block. *)
Definition trunc_dindirect (d : Z) : M unit :=
  a <- get_addr (NDIRECT + 1) ;;
  if decide (a ≠ 0) then
    db_bp <- bread d a ;;
    trunc_double d db_bp (seq 0 NINDIRECT) ;;
    brelse db_bp ;;
    a <- get_addr (NDIRECT + 1) ;;
    bfree d a ;;
    set_addr (NDIRECT + 1) 0
  else ret tt.

Definition itrunc : M unit :=
  d <- get_dev ;;
  trunc_direct d (seq 0 NDIRECT) ;;
  trunc_indirect d ;;
  trunc_dindirect d ;;
  set_size 0 ;;
  iupdate.

(** ** The blocks of an inode, in the words of the specification *)

(** The nonzero entries of the index block [a]. *)
Definition entries (st : state) (a : Z) : list Z :=
  filter (λ x, x ≠ 0) (block_of st (dev (ip st), a)).

(** Every nonzero direct entry. *)
Definition direct_blocks (st : state) : list Z :=
  filter (λ x, x ≠ 0) (take NDIRECT (addrs (ip st))).

(** Every nonzero entry of the single-indirect block, then the
    single-indirect block itself. *)
Definition indirect_blocks (st : state) : list Z :=
  let s := addrs (ip st) !!! NDIRECT in
  if decide (s ≠ 0) then entries st s ++ [s] else [].

(** For every nonzero child of the double-indirect block its nonzero
    entries and then the child itself, and at last the double-indirect
    block. *)
Definition dindirect_blocks (st : state) : list Z :=
  let db := addrs (ip st) !!! (NDIRECT + 1)%nat in
  if decide (db ≠ 0)
  then concat ((λ c, entries st c ++ [c]) <$> entries st db) ++ [db]
  else [].

Definition reachable_blocks (st : state) : list Z :=
  direct_blocks st ++ indirect_blocks st ++ dindirect_blocks st.

(** The blocks freed by the calls [tr], and the blocks read. *)
Definition frees (tr : list event) : list Z :=
  omap (λ e, match e with EvBfree _ a => Some a | _ => None end) tr.

Definition reads (tr : list event) : list Z :=
  omap (λ e, match e with EvBread _ a => Some a | _ => None end) tr.

Definition allocs (tr : list event) : list Z :=
  omap (λ e, match e with EvBalloc _ a => Some a | _ => None end) tr.

(** The calls of [itrunc] on one index block [c] whose entries are data
    blocks: read it, free its entries, release it, free it. *)
Definition index_block_calls (st : state) (c : Z) : list event :=
  let d := dev (ip st) in
  [EvBread d c] ++ (EvBfree d <$> entries st c) ++ [EvBrelse d c; EvBfree d c].

(** All the calls of [itrunc], in order. *)
Definition itrunc_calls (st : state) : list event :=
  let d := dev (ip st) in
  let s := addrs (ip st) !!! NDIRECT in
  let db := addrs (ip st) !!! (NDIRECT + 1)%nat in
  (EvBfree d <$> direct_blocks st) ++
  (if decide (s ≠ 0) then index_block_calls st s else []) ++
  (if decide (db ≠ 0)
   then [EvBread d db] ++ concat (index_block_calls st <$> entries st db) ++
        [EvBrelse d db; EvBfree d db]
   else []) ++
  [EvIupdate d (replicate (NDIRECT + 2) 0) 0].

(** A call that, when it returns, has left the inode as it was. *)
Definition keeps_ip {A : Type} (m : M A) : Prop :=
  ∀ st a st', m st = Ret a st' → ip st' = ip st.

End WithEnv.

(** ** A concrete environment

    The constants of the large-files lab (fs.h: 11 direct entries, 256
    entries in an index block) and an allocator that hands out the blocks
    1000, 1001, ... in turn. *)
Definition count_up (d : Z) (tr : list event) : Z :=
  1000 + Z.of_nat (length (allocs tr)).

Definition xv6 : Env := {| NDIRECT := 11; NINDIRECT := 256; balloc_pick := count_up |}.

(** A fresh inode on device 1, nothing allocated. *)
Definition empty_file : state :=
  mkState (mkInode 1 (replicate 13 0) 0) ∅ [] [].

(** The state [bmap] leaves, or [st] when it does not return. *)
Definition then_bmap (bn : Z) (st : state) : state :=
  match bmap (H := xv6) bn st with Ret _ st' => st' | _ => st end.

(** A file with block 0 (direct), block 16 (single-indirect) and blocks 270
    and 600 (double-indirect, under two different children) mapped. *)
Definition small_file : state :=
  then_bmap 600 (then_bmap 270 (then_bmap 16 (then_bmap 0 empty_file))).

(** An inode whose first two direct entries name the same block, 21. *)
Definition twice_named : state :=
  mkState (mkInode 1 ([21; 21] ++ replicate 11 0) 0) ∅ [] [].

End Fs.

(** * Part III: the lists of bio.c as pointers

    The lists of [Bio.heads] stand for circular doubly linked lists.  Here
    the fields [next] and [prev] are kept as they are in memory, with the
    assignments bio.c makes to them. *)

Module Links.

(** The address of [bcache[i].head] or of a slot. *)
Inductive node : Type :=
| Head (i : nat)
| Slot (b : nat).

#[global] Instance node_eq_dec : EqDecision node.
Proof. solve_decision. Defined.

(** The fields [next] and [prev] of every [struct buf]. *)
Record links : Type := mkLinks {
  next : node → node;
  prev : node → node
}.

(** [x->next = y] and [x->prev = y]. *)
Definition set_next (x y : node) (lk : links) : links :=
  mkLinks (<[x := y]> (next lk)) (prev lk).
Definition set_prev (x y : node) (lk : links) : links :=
  mkLinks (next lk) (<[x := y]> (prev lk)).

(** [b->next->prev = b->prev; b->prev->next = b->next;] as in [brelse]. *)
Definition unlink_ptr (b : nat) (lk : links) : links :=
  let lk1 := set_prev (next lk (Slot b)) (prev lk (Slot b)) lk in
  set_next (prev lk1 (Slot b)) (next lk1 (Slot b)) lk1.

(** [b->prev->next = b->next; b->next->prev = b->prev;] as in [bget]. *)
Definition unlink_ptr' (b : nat) (lk : links) : links :=
  let lk1 := set_next (prev lk (Slot b)) (next lk (Slot b)) lk in
  set_prev (next lk1 (Slot b)) (prev lk1 (Slot b)) lk1.

(** [b->next = head.next; b->prev = &head; head.next->prev = b;
    head.next = b;] as in [binit] and [brelse]. *)
Definition link_head_ptr (i b : nat) (lk : links) : links :=
  let lk1 := set_next (Slot b) (next lk (Head i)) lk in
  let lk2 := set_prev (Slot b) (Head i) lk1 in
  let lk3 := set_prev (next lk2 (Head i)) (Slot b) lk2 in
  set_next (Head i) (Slot b) lk3.

(** [b->prev = head.prev; b->next = &head; head.prev->next = b;
    head.prev = b;] as in [bget]. *)
Definition link_tail_ptr (i b : nat) (lk : links) : links :=
  let lk1 := set_prev (Slot b) (prev lk (Head i)) lk in
  let lk2 := set_next (Slot b) (Head i) lk1 in
  let lk3 := set_next (prev lk2 (Head i)) (Slot b) lk2 in
  set_prev (Head i) (Slot b) lk3.

(** The links read backwards. *)
Definition mirror (lk : links) : links := mkLinks (prev lk) (next lk).

(** Following the field [f] from [x] one meets the slots [l] and then [y]. *)
Fixpoint path (f : node → node) (x : node) (l : list nat) (y : node) : Prop :=
  match l with
  | [] => f x = y
  | b :: l' => f x = Slot b ∧ path f (Slot b) l' y
  end.

(** The first node of a path over [l] that ends in [y]. *)
Definition hd_node (l : list nat) (y : node) : node :=
  match l with
  | [] => y
  | a :: _ => Slot a
  end.

(** The list anchored at [bcache[i].head] holds the slots [l]: the loop
    [for (b = head.next; b != &head; b = b->next)] meets [l], and the loop
    [for (b = head.prev; b != &head; b = b->prev)] meets [l] backwards. *)
Definition ring (lk : links) (i : nat) (l : list nat) : Prop :=
  path (next lk) (Head i) l (Head i) ∧ path (prev lk) (Head i) (rev l) (Head i).

(** The nodes the loop [for (b = x->f; b != stop; b = b->f)] meets, in at
    most [fuel] rounds. *)
Fixpoint walk (f : node → node) (fuel : nat) (x stop : node) : list node :=
  match fuel with
  | O => []
  | S k => if decide (f x = stop) then [] else f x :: walk f k (f x) stop
  end.

(** The links hold the lists [hs], bucket by bucket. *)
Definition represents (lk : links) (hs : list (list nat)) : Prop :=
  ∀ i l, hs !! i = Some l → ring lk i l.

(** No slot is twice in a list or in two lists. *)
Definition nodup_lists (hs : list (list nat)) : Prop :=
  (∀ i l, hs !! i = Some l → NoDup l) ∧
  (∀ i j l l' a, hs !! i = Some l → hs !! j = Some l' → a ∈ l → a ∈ l' → i = j).

(** The body of the outer loop of [binit] for bucket [i], and the loop. *)
Definition binit_bucket (lk : links) (i : nat) : links :=
  foldl (λ lk b, link_head_ptr i b lk)
        (set_next (Head i) (Head i) (set_prev (Head i) (Head i) lk))
        (seq (i * Bio.BUFFERSIZE) Bio.BUFFERSIZE).

Definition binit_ptr (lk : links) : links :=
  foldl binit_bucket lk (seq 0 Bio.BUCKETSIZE).

(** Taking the slot [b] out and putting it after ([front], the end of
    [brelse]) or before (the end of [bget]) the head of bucket [k]: on the
    links and on the lists. *)
Definition relink_ptr (front : bool) (k b : nat) (lk : links) : links :=
  if front then link_head_ptr k b (unlink_ptr b lk)
  else link_tail_ptr k b (unlink_ptr' b lk).

Definition relink (front : bool) (k b : nat) (c : Bio.bcache) : Bio.bcache :=
  if front then Bio.link_head k b (Bio.unlink b c)
  else Bio.link_tail k b (Bio.unlink b c).

(** The lists of a cache are in order: thirteen of them, no slot twice, and
    every slot in one of them. *)
Definition shape (c : Bio.bcache) : Prop :=
  length (Bio.heads c) = Bio.BUCKETSIZE ∧ nodup_lists (Bio.heads c) ∧
  ∀ b, (b < length (Bio.slots c))%nat → ∃ i l, Bio.heads c !! i = Some l ∧ b ∈ l.

(** The assignments to [next] and [prev] a call makes: [bget] when it takes
    the victim of [select_victim] from another bucket, [brelse] when it
    drops the last reference; no other call writes a link. *)
Definition exec_ptr (o : Bio.call) (c : Bio.bcache) (lk : links) : links :=
  match o with
  | Bio.Bget _ _ d n | Bio.Bread _ _ d n =>
      match Bio.lookup_cached d n (Bio.hash n) c,
            Bio.lookup_free (Bio.hash n) c,
            Bio.least_b (Bio.scan_victim (Bio.hash n) c) with
      | None, None, Some b => relink_ptr false (Bio.hash n) b lk
      | _, _, _ => lk
      end
  | Bio.Brelse _ b =>
      if decide (Bio.refcnt (Bio.slot c b) = 1)
      then relink_ptr true (Bio.hash (Bio.blockno (Bio.slot c b))) b lk
      else lk
  | _ => lk
  end.

(** The links after the calls [os], made one after the other from the
    cache [c] with the links [lk]. *)
Fixpoint run_ptr (os : list Bio.call) (c : Bio.bcache) (lk : links) : links :=
  match os with
  | [] => lk
  | o :: os' =>
      match Bio.exec o c with
      | Some c' => run_ptr os' c' (exec_ptr o c lk)
      | None => lk
      end
  end.

(** Memory in which no link has been written yet. *)
Definition no_links : links := mkLinks (λ x, x) (λ x, x).

End Links.

(** * Part IV: the content of a slot, and sample caches *)

Module BioTry.
Import Bio.

(** The parts of a slot that say which block it holds and what is in it. *)
Definition content (x : buf) : Z * Z * Z * list Z := (dev x, blockno x, valid x, data x).

(** A disk with one block written, and the cache after process 1 has read
    that block from it at boot. *)
Definition one_block_disk : gmap (Z * Z) (list Z) := {[ (1, 0) := [7; 8; 9] ]}.

Definition one_read : bcache :=
  default (binit one_block_disk) (run [Bread 0 1 1 0] (binit one_block_disk)).

(** Process 1 reads and releases the blocks 0, 13, 26, 39 and 52 of device
    1, which fill bucket 0. *)
Definition fill_bucket_calls : list call :=
  [Bread 0 1 1 0; Brelse 1 0; Bread 1 1 1 13; Brelse 1 1; Bread 2 1 1 26; Brelse 1 2;
   Bread 3 1 1 39; Brelse 1 3; Bread 4 1 1 52; Brelse 1 4].

Definition full_bucket : bcache :=
  default (binit ∅) (run_careful fill_bucket_calls (binit ∅)).

(** Process 1 has changed the data of the buffer it holds. *)
Definition edited : bcache := upd 0 (set_data [1; 2; 3]) one_read.

End BioTry.

(** * Part V: the block an inode maps a logical block to *)

Module FsTry.
Import Fs.

Section WithEnv.
Context `{Env}.

(** The block the inode maps the logical block [bn] to, 0 when there is
    none: the entry of the table, or the entry found by reading the index
    blocks, as [bmap] does, without allocating. *)
Definition resolve (st : state) (bn : Z) : Z :=
  let d := dev (ip st) in
  let tbl := addrs (ip st) in
  if decide (bn < Z.of_nat NDIRECT) then tbl !!! Z.to_nat bn
  else
  let bn := bn - Z.of_nat NDIRECT in
  if decide (bn < Z.of_nat NINDIRECT) then
    let s := tbl !!! NDIRECT in
    if decide (s = 0) then 0 else block_of st (d, s) !!! Z.to_nat bn
  else
  let bn := bn - Z.of_nat NINDIRECT in
  if decide (bn < Z.of_nat ND_INDIRECT) then
    let db := tbl !!! (NDIRECT + 1)%nat in
    if decide (db = 0) then 0 else
    let s := block_of st (d, db) !!! Z.to_nat (bn / Z.of_nat NINDIRECT) in
    if decide (s = 0) then 0 else
    block_of st (d, s) !!! Z.to_nat (bn mod Z.of_nat NINDIRECT)
  else 0.

(** The index blocks logged by the calls [tr]. *)
Definition logged (tr : list event) : list Z :=
  omap (λ e, match e with EvLogWrite _ a => Some a | _ => None end) tr.

End WithEnv.
End FsTry.

(** * Part VI: [bget] in the pieces between which other processes run

    [bget] holds the lock of its bucket from line 116 up to line 127, 141
    or 149, and again from line 166 to line 176.  When both of its loops
    have failed it holds, in between, [evict_lock] (lines 150 to 157, round
    the loop on [select_victim]) and then the lock of the victim's bucket
    (lines 161 to 164).  It holds no lock at lines 150, 161 and 166, and
    there the calls of other processes run. *)

Module Overlap.
Import Bio.

(** Lines 166 to 177: under the lock of bucket [hash(blockno)] the reserved
    slot gets its new identity and is linked before the head, then its
    sleep lock is taken.  The bucket is not searched for the block again. *)
Definition bget_install (now : Z) (pid : nat) (d n : Z) (b : nat) (c : bcache)
  : result nat :=
  acquiresleep pid b
    (link_tail (hash n) b (upd b (λ x, set_ticks now (recycle d n x)) c)).

(** Where a process stands inside [bget] once both loops have failed, with
    the arguments of its call and its local [least_b]. *)
Inductive stage : Type :=
| Evicting (d n : Z)             (* line 150: the bucket lock is released *)
| Reserved (d n : Z) (b : nat)   (* line 161: [least_b] is [b], with refcnt -1 *)
| Unlinked (d n : Z) (b : nat).  (* line 166: [b] is out of its list *)

(** The cache, and the processes that are inside [bget]. *)
Record kernel : Type := mkKernel {
  cache : bcache;
  inside : gmap nat stage
}.

Definition boot (d : gmap (Z * Z) (list Z)) : kernel := mkKernel (binit d) ∅.

(** What one process does while no other runs. *)
Inductive move : Type :=
| Whole (o : call)             (* a call from its first line to its last *)
| Miss (pid : nat) (d n : Z)   (* lines 116 to 149 of [bget(d, n)], both loops fail *)
| Select (pid : nat)           (* lines 150 to 157 *)
| Unlink (pid : nat)           (* lines 161 to 164 *)
| Install (now : Z) (pid : nat). (* lines 166 to 177, [ticks] being [now] *)

(** The process that makes a call, where the call says it. *)
Definition caller (o : call) : option nat :=
  match o with
  | Bget _ pid _ _ | Bread _ pid _ _ | Bwrite pid _ | Brelse pid _ | Wakeup pid _ =>
      Some pid
  | Bpin _ | Bunpin _ | Fill _ => None
  end.

(** The kernel after a move; [None] when the process is not at the place of
    the move, or the move ends in a panic or an overflow. *)
Definition make (m : move) (k : kernel) : option kernel :=
  match m with
  | Whole o =>
      match caller o ≫= (λ pid, inside k !! pid) with
      | Some _ => None
      | None => (λ c, mkKernel c (inside k)) <$> exec o (cache k)
      end
  | Miss pid d n =>
      match inside k !! pid,
            lookup_cached d n (hash n) (cache k), lookup_free (hash n) (cache k) with
      | None, None, None => Some (mkKernel (cache k) (<[pid := Evicting d n]> (inside k)))
      | _, _, _ => None
      end
  | Select pid =>
      match inside k !! pid with
      | Some (Evicting d n) =>
          match select_victim (hash n) (cache k) with
          | Ok (Some b) c1 => Some (mkKernel c1 (<[pid := Reserved d n b]> (inside k)))
          | _ => None
          end
      | _ => None
      end
  | Unlink pid =>
      match inside k !! pid with
      | Some (Reserved d n b) =>
          Some (mkKernel (unlink b (cache k)) (<[pid := Unlinked d n b]> (inside k)))
      | _ => None
      end
  | Install now pid =>
      match inside k !! pid with
      | Some (Unlinked d n b) =>
          (λ c, mkKernel c (delete pid (inside k)))
            <$> after (bget_install now pid d n b (cache k))
      | _ => None
      end
  end.

Fixpoint play (ms : list move) (k : kernel) : option kernel :=
  match ms with
  | [] => Some k
  | m :: ms' => match make m k with Some k' => play ms' k' | None => None end
  end.

(** Process 1 reads the blocks 0, 13, 26, 39 and 52 of device 1 and keeps
    the five buffers: every slot of bucket 0 has a reference. *)
Definition hold_bucket : list move :=
  Whole <$> [Bread 0 1 1 0; Bread 0 1 1 13; Bread 0 1 1 26; Bread 0 1 1 39; Bread 0 1 1 52].

(** Then the processes 2 and 3 both call [bread(1, 65)].  Both find bucket 0
    without the block and without a free slot and release its lock; then
    each takes a victim and installs the block, process 2 first. *)
Definition two_misses : list move :=
  [Miss 2 1 65; Miss 3 1 65;
   Select 2; Unlink 2; Install 0 2; Whole (Fill 5);
   Select 3; Unlink 3; Install 0 3; Whole (Fill 6)].

(** The cache when process 2 has reserved its victim, slot 5, and has not
    yet taken it out of its list. *)
Definition reserving : bcache :=
  cache (default (boot ∅) (play (hold_bucket ++ [Miss 2 1 65; Select 2]) (boot ∅))).

(** The same two calls, one after the other. *)
Definition one_by_one : list move :=
  [Whole (Bread 0 2 1 65); Whole (Bread 0 3 1 65)].

(** At most one slot with a count of 0 or more holds block (d, n). *)
Definition one_slot_for (d n : Z) (c : bcache) : Prop :=
  ∀ b b', 0 ≤ refcnt (slot c b) → 0 ≤ refcnt (slot c b') →
          identity (slot c b) = (d, n) → identity (slot c b') = (d, n) → b = b'.

End Overlap.

(** * Properties of the buffer cache *)

Module BioProps.
Import Bio.

(** ** Reading and writing slots *)

Lemma slot_upd_eq b f c :
  (b < length (slots c))%nat → slot (upd b f c) b = f (slot c b).
Proof. intros Hb. unfold slot, upd; simpl. by apply list_lookup_total_alter_eq. Qed.

Lemma slot_upd_ne b b' f c : b ≠ b' → slot (upd b f c) b' = slot c b'.
Proof. intros Hb. unfold slot, upd; simpl. by apply list_lookup_total_alter_ne. Qed.

Lemma slot_unlink b b' c : slot (unlink b c) b' = slot c b'.
Proof. reflexivity. Qed.

Lemma slot_link_head i b b' c : slot (link_head i b c) b' = slot c b'.
Proof. reflexivity. Qed.

Lemma slot_link_tail i b b' c : slot (link_tail i b c) b' = slot c b'.
Proof. reflexivity. Qed.

Lemma length_slots_upd b f c : length (slots (upd b f c)) = length (slots c).
Proof. unfold upd; simpl. apply length_alter. Qed.

Lemma incr_Some r r' : incr r = Some r' → r' = r + 1 ∧ r ≠ INT_MAX.
Proof. unfold incr. case_decide; naive_solver. Qed.

Lemma decr_Some r r' : decr r = Some r' → r' = r - 1 ∧ r ≠ INT_MIN.
Proof. unfold decr. case_decide; naive_solver. Qed.

Lemma holdingsleep_valid pid b c :
  holdingsleep pid b c = true → (b < length (slots c))%nat.
Proof.
  unfold holdingsleep, slot. intros H%bool_decide_eq_true.
  destruct (decide (b < length (slots c))%nat) as [|Hge]; [done |].
  rewrite list_lookup_total_alt, lookup_ge_None_2 in H by lia. discriminate.
Qed.

Lemma slot_releasesleep pid b c :
  holdingsleep pid b c = true →
  slot (releasesleep b c) b = set_lock None (slot c b).
Proof.
  intros Hh. unfold releasesleep. rewrite slot_upd_eq; [done |].
  by eapply holdingsleep_valid.
Qed.

(** ** The two loops of [bget] *)

Lemma lookup_cached_Some d n i c b :
  lookup_cached d n i c = Some b → b ∈ bucket c i ∧ cached d n (slot c b).
Proof.
  unfold lookup_cached. intros H. apply find_some in H as [Hin Hb].
  split; [by apply list_elem_of_In | by apply bool_decide_eq_true in Hb].
Qed.

Lemma lookup_cached_None d n i c b :
  lookup_cached d n i c = None → b ∈ bucket c i → ¬ cached d n (slot c b).
Proof.
  unfold lookup_cached. intros H Hin.
  apply list_elem_of_In in Hin.
  apply (find_none _ _ H) in Hin. by apply bool_decide_eq_false in Hin.
Qed.

Lemma lookup_free_Some i c b :
  lookup_free i c = Some b → b ∈ bucket c i ∧ refcnt (slot c b) = 0.
Proof.
  unfold lookup_free. intros H. apply find_some in H as [Hin Hb].
  split; [| by apply bool_decide_eq_true in Hb].
  apply list_elem_of_In. by apply in_rev.
Qed.

Lemma lookup_free_None i c b :
  lookup_free i c = None → b ∈ bucket c i → refcnt (slot c b) ≠ 0.
Proof.
  unfold lookup_free. intros H Hin.
  apply list_elem_of_In, in_rev in Hin.
  apply (find_none _ _ H) in Hin. by apply bool_decide_eq_false in Hin.
Qed.

(** ** Reference-count decrements (C5) *)

(** C5, as stated, fails: on the cache as [binit] leaves it, where slot 0 has
    refcnt 0, [bunpin] returns normally and leaves refcnt -1; and after
    [bread], [bunpin], the slot has refcnt 0 with its lock still held, and
    [brelse] returns normally and leaves refcnt -1 as well. *)
Lemma decrement_at_zero_returns :
  refcnt (slot (binit ∅) 0) = 0 ∧
  (∃ c', bunpin 0 (binit ∅) = Ok tt c' ∧ refcnt (slot c' 0) = -1) ∧
  (∃ c1 c2 c3,
      bread 0 1 1 0 (binit ∅) = Ok 0%nat c1 ∧
      bunpin 0 c1 = Ok tt c2 ∧ refcnt (slot c2 0) = 0 ∧
      brelse 1 0 c2 = Ok tt c3 ∧ refcnt (slot c3 0) = -1).
Proof.
  split; [reflexivity |]. split.
  - eexists. split; [vm_compute; reflexivity | reflexivity].
  - do 3 eexists. repeat split; vm_compute; reflexivity.
Qed.

(** C5, amended: [brelse] stops the kernel when the slot's refcnt is -1 (or
    the caller does not hold the lock); a decrement of a slot whose refcnt
    is 0 is not checked, neither in [brelse] nor in [bunpin]: the call
    returns and leaves refcnt -1. *)
Theorem decrement_checks (pid b : nat) (c : bcache) :
  (refcnt (slot c b) = -1 → ∃ msg, brelse pid b c = Panic msg) ∧
  (holdingsleep pid b c = false → brelse pid b c = Panic "brelse") ∧
  (refcnt (slot c b) = 0 → holdingsleep pid b c = true →
     ∃ c', brelse pid b c = Ok tt c' ∧ refcnt (slot c' b) = -1) ∧
  (refcnt (slot c b) = 0 → (b < length (slots c))%nat →
     ∃ c', bunpin b c = Ok tt c' ∧ refcnt (slot c' b) = -1).
Proof.
  repeat split.
  - intros Hr. unfold brelse. destruct (holdingsleep pid b c) eqn:Hh; [| eauto].
    rewrite (slot_releasesleep _ _ _ Hh); simpl. rewrite Hr.
    rewrite decide_True by done. eauto.
  - intros Hh. unfold brelse. by rewrite Hh.
  - intros Hr Hh. unfold brelse. rewrite Hh, (slot_releasesleep _ _ _ Hh); simpl.
    rewrite Hr. rewrite decide_False by done. simpl.
    eexists; split; [reflexivity |].
    rewrite slot_upd_eq; [done |].
    unfold releasesleep. rewrite length_slots_upd. by eapply holdingsleep_valid.
  - intros Hr Hb. unfold bunpin. rewrite Hr; simpl.
    eexists; split; [reflexivity |]. by rewrite slot_upd_eq.
Qed.

Lemma decrement_checks_witness :
  ∃ c', bunpin 0 (binit ∅) = Ok tt c' ∧ refcnt (slot c' 0) = -1.
Proof.
  apply (decrement_checks 0 0 (binit ∅)); [reflexivity | vm_compute; lia].
Defined.

(** ** The three paths of [bget] (C9) *)

Lemma acquiresleep_cases pid b c :
  acquiresleep pid b c =
    match lock (slot c b) with
    | None => Ok b (upd b (set_lock (Some pid)) c)
    | Some _ => Asleep b c
    end.
Proof. reflexivity. Qed.

(** What [acquiresleep] leaves of a slot [b] in range. *)
Lemma acquiresleep_slot pid b c :
  (b < length (slots c))%nat →
  ∃ c', acquiresleep pid b c =
          match lock (slot c b) with None => Ok b c' | Some _ => Asleep b c' end ∧
        slot c' b =
          set_lock (match lock (slot c b) with None => Some pid | Some q => Some q end)
                   (slot c b) ∧
        (∀ b', b' ≠ b → slot c' b' = slot c b') ∧
        heads c' = heads c ∧ disk c' = disk c ∧ length (slots c') = length (slots c).
Proof.
  intros Hb. rewrite acquiresleep_cases.
  destruct (lock (slot c b)) as [q|] eqn:Hl.
  - exists c. repeat split; try done.
    destruct (slot c b); simpl in *; by subst.
  - eexists. split; [reflexivity |]. rewrite slot_upd_eq by done.
    repeat split; try done.
    + intros b' Hne. by rewrite slot_upd_ne.
    + apply length_slots_upd.
Qed.

Lemma bget_hit now pid d n c b :
  lookup_cached d n (hash n) c = Some b →
  refcnt (slot c b) ≠ INT_MAX →
  bget now pid d n c =
    acquiresleep pid b (upd b (λ x, set_ticks now (set_refcnt (refcnt x + 1) x)) c).
Proof.
  intros Hc Hr. unfold bget. rewrite Hc. unfold incr.
  rewrite decide_False by done.
  f_equal. unfold upd. f_equal.
  apply list_alter_ext; [| done]. intros x Hx.
  unfold slot. by rewrite (list_lookup_total_correct _ _ _ Hx).
Qed.

Lemma bget_local now pid d n c b :
  lookup_cached d n (hash n) c = None →
  lookup_free (hash n) c = Some b →
  bget now pid d n c = acquiresleep pid b (upd b (recycle d n) c).
Proof. intros Hc Hf. unfold bget. by rewrite Hc, Hf. Qed.

Lemma bget_steal now pid d n c b c1 :
  lookup_cached d n (hash n) c = None →
  lookup_free (hash n) c = None →
  select_victim (hash n) c = Ok (Some b) c1 →
  bget now pid d n c = acquiresleep pid b (migrate now d n (hash n) b c1).
Proof. intros Hc Hf Hs. unfold bget. by rewrite Hc, Hf, Hs. Qed.

(** C9, as stated, fails: the local-reuse path also writes the slot's lock
    field.  On the cache as [binit] leaves it, [bget] for block (1, 0) misses,
    recycles slot 0 of bucket 0, and the lock of slot 0, free before, is held
    by the caller afterwards. *)
Lemma local_reuse_takes_lock :
  lookup_cached 1 0 (hash 0) (binit ∅) = None ∧
  lookup_free (hash 0) (binit ∅) = Some 0%nat ∧
  ∃ c', bget 0 1 1 0 (binit ∅) = Ok 0%nat c' ∧
        lock (slot (binit ∅) 0) = None ∧ lock (slot c' 0) = Some 1%nat.
Proof.
  split; [reflexivity |]. split; [reflexivity |].
  eexists. split; [vm_compute; reflexivity |]. split; reflexivity.
Qed.

(** C9, amended: when [bget] misses and recycles a slot with refcnt 0 of the
    target bucket, it writes the slot's device, block number, validity flag
    (0) and refcnt (1) and takes the slot's lock (or sleeps on it when it is
    held); the tick, the payload, the position in the list, the disk and
    every other slot are unchanged.  The hit path and the path that moves a
    slot from another bucket both set the tick to the current time. *)
Theorem bget_local_reuse_frame (now : Z) (pid : nat) (d n : Z) (c : bcache) (b : nat) :
  (b < length (slots c))%nat →
  (lookup_cached d n (hash n) c = None →
   lookup_free (hash n) c = Some b →
   ∃ c', bget now pid d n c =
           match lock (slot c b) with None => Ok b c' | Some _ => Asleep b c' end ∧
         dev (slot c' b) = d ∧ blockno (slot c' b) = n ∧
         valid (slot c' b) = 0 ∧ refcnt (slot c' b) = 1 ∧
         lock (slot c' b) =
           match lock (slot c b) with None => Some pid | Some q => Some q end ∧
         ticks (slot c' b) = ticks (slot c b) ∧
         data (slot c' b) = data (slot c b) ∧
         (∀ b', b' ≠ b → slot c' b' = slot c b') ∧
         heads c' = heads c ∧ disk c' = disk c) ∧
  (lookup_cached d n (hash n) c = Some b →
   refcnt (slot c b) ≠ INT_MAX →
   ∃ c', bget now pid d n c =
           match lock (slot c b) with None => Ok b c' | Some _ => Asleep b c' end ∧
         ticks (slot c' b) = now) ∧
  (∀ c1,
   lookup_cached d n (hash n) c = None →
   lookup_free (hash n) c = None →
   select_victim (hash n) c = Ok (Some b) c1 →
   ∃ c', bget now pid d n c =
           match lock (slot c1 b) with None => Ok b c' | Some _ => Asleep b c' end ∧
         ticks (slot c' b) = now).
Proof.
  intros Hb. repeat split.
  - intros Hc Hf. rewrite (bget_local _ _ _ _ _ _ Hc Hf).
    destruct (acquiresleep_slot pid b (upd b (recycle d n) c))
      as (c' & Ha & Hs & Ho & Hh & Hd & _).
    { by rewrite length_slots_upd. }
    rewrite slot_upd_eq in Ha, Hs by done. simpl in Ha, Hs.
    exists c'. split; [exact Ha |]. rewrite Hs. simpl.
    repeat split; try done.
    intros b' Hne. rewrite (Ho b' Hne). by rewrite slot_upd_ne.
  - intros Hc Hr. rewrite (bget_hit _ _ _ _ _ _ Hc Hr).
    destruct (acquiresleep_slot pid b
                (upd b (λ x, set_ticks now (set_refcnt (refcnt x + 1) x)) c))
      as (c' & Ha & Hs & _).
    { by rewrite length_slots_upd. }
    rewrite slot_upd_eq in Ha, Hs by done. simpl in Ha, Hs.
    exists c'. split; [exact Ha |]. by rewrite Hs.
  - intros c1 Hc Hf Hv. rewrite (bget_steal _ _ _ _ _ _ _ Hc Hf Hv).
    assert (Hlen : length (slots c1) = length (slots c)).
    { unfold select_victim, select_victim_env, claim_victim in Hv.
      destruct (least_b _); [| done]. simpl in Hv.
      case_decide; simplify_eq. apply length_slots_upd. }
    destruct (acquiresleep_slot pid b (migrate now d n (hash n) b c1))
      as (c' & Ha & Hs & _).
    { unfold migrate, link_tail, unlink; simpl. rewrite length_alter. lia. }
    assert (Hm : slot (migrate now d n (hash n) b c1) b
                 = set_ticks now (recycle d n (slot c1 b))).
    { unfold migrate. rewrite slot_link_tail, slot_upd_eq; [done |].
      simpl. lia. }
    rewrite Hm in Ha, Hs. simpl in Ha, Hs.
    exists c'. split; [exact Ha |]. by rewrite Hs.
Qed.

Lemma bget_local_reuse_frame_witness :
  ∃ c', bget 0 1 1 0 (binit ∅) =
          match lock (slot (binit ∅) 0) with None => Ok 0%nat c' | Some _ => Asleep 0%nat c' end ∧
        dev (slot c' 0) = 1 ∧ blockno (slot c' 0) = 0 ∧
        valid (slot c' 0) = 0 ∧ refcnt (slot c' 0) = 1 ∧
        lock (slot c' 0) =
          match lock (slot (binit ∅) 0) with None => Some 1%nat | Some q => Some q end ∧
        ticks (slot c' 0) = ticks (slot (binit ∅) 0) ∧
        data (slot c' 0) = data (slot (binit ∅) 0) ∧
        (∀ b', b' ≠ 0%nat → slot c' b' = slot (binit ∅) b') ∧
        heads c' = heads (binit ∅) ∧ disk c' = disk (binit ∅).
Proof.
  apply (bget_local_reuse_frame 0 1 1 0 (binit ∅) 0); [vm_compute; lia | reflexivity | reflexivity].
Defined.

(** ** The scenario of six blocks (C7) *)

(** C7, as stated, fails: the blocks 0..5 hash to six different buckets, and
    the sixth read (block 5) finds a free slot in its own bucket 5, the slot
    25 of that bucket's array: nothing is taken from another bucket. *)
Lemma scenario_blocks_in_distinct_shards :
  hash 0 ≠ hash 1 ∧
  ∃ bs c5 c6,
    read_release_all 0 1 1 (first_blocks 5) (binit ∅) = Ok bs c5 ∧
    lookup_cached 1 5 (hash 5) c5 = None ∧
    lookup_free (hash 5) c5 = Some 25%nat ∧
    bread 0 1 1 5 c5 = Ok 25%nat c6 ∧
    home 25 = hash 5 ∧ no_migration c6 = true.
Proof.
  split; [vm_compute; lia |].
  do 3 eexists. split; [vm_compute; reflexivity |].
  split; [vm_compute; reflexivity |]. split; [vm_compute; reflexivity |].
  split; [vm_compute; reflexivity |]. split; vm_compute; reflexivity.
Qed.

(** C7, amended: with 13 buckets of 5 slots, the blocks (1, 0..5) hash to
    the six buckets 0..5; read and released in turn, each is served by a
    slot of its own bucket, no slot changes bucket, no call panics, and each
    block is still found in its slot afterwards.  For six blocks that do
    hash to one bucket (0, 13, ..., 65) the sixth read is served inside that
    bucket too, by the slot that held block 0 (the least recently released
    one); no slot changes bucket, no call panics, block 0 is no longer found
    by the lookup, and a later read of block 0 gets another slot. *)
Theorem scenario_six_blocks :
  hash <$> first_blocks 6 = [0; 1; 2; 3; 4; 5]%nat ∧
  (∃ c6,
     read_release_all 0 1 1 (first_blocks 6) (binit ∅)
       = Ok [0; 5; 10; 15; 20; 25]%nat c6 ∧
     no_migration c6 = true ∧
     (λ n, lookup_cached 1 n (hash n) c6) <$> first_blocks 6
       = Some <$> [0; 5; 10; 15; 20; 25]%nat) ∧
  hash <$> same_shard_blocks 6 = [0; 0; 0; 0; 0; 0]%nat ∧
  (∃ c6 c7,
     read_release_all 0 1 1 (same_shard_blocks 6) (binit ∅)
       = Ok [0; 1; 2; 3; 4; 0]%nat c6 ∧
     no_migration c6 = true ∧
     identity (slot c6 0) = (1, 65) ∧
     lookup_cached 1 0 (hash 0) c6 = None ∧
     bread 0 1 1 0 c6 = Ok 1%nat c7 ∧
     no_migration c7 = true).
Proof.
  split; [reflexivity |]. split.
  { eexists. split; [vm_compute; reflexivity |]. split; vm_compute; reflexivity. }
  split; [reflexivity |].
  do 2 eexists. split; [vm_compute; reflexivity |].
  split; [vm_compute; reflexivity |]. split; [vm_compute; reflexivity |].
  split; [vm_compute; reflexivity |]. split; vm_compute; reflexivity.
Qed.

(** ** Which slot a miss recycles (C8) *)

(** C8, as stated, fails: take the 66 distinct blocks 0, 13, 26, ..., 845 of
    device 1, which all hash to bucket 0.  After the first 65 are read and
    released, the 66th read reuses slot 0, whose previous identity is block
    780, the 61st requested; block 0, the first requested, is not in the
    cache any more. *)
Lemma lru_is_per_shard :
  NoDup (same_shard_blocks 66) ∧
  length (same_shard_blocks 66) = S NBUF ∧
  ∃ bs c65 c66,
    read_release_all 0 1 1 (same_shard_blocks 65) (binit ∅) = Ok bs c65 ∧
    bread 0 1 1 845 c65 = Ok 0%nat c66 ∧
    identity (slot c65 0) = (1, 780) ∧
    identity (slot c66 0) = (1, 845) ∧
    lookup_cached 1 0 (hash 0) c65 = None.
Proof.
  split. { apply (bool_decide_unpack _). vm_compute. exact I. }
  split; [reflexivity |].
  do 3 eexists. split; [vm_compute; reflexivity |].
  split; [vm_compute; reflexivity |]. split; [vm_compute; reflexivity |].
  split; vm_compute; reflexivity.
Qed.

Lemma last_snoc_inv {A : Type} (l : list A) (x : A) :
  last l = Some x → ∃ l', l = l' ++ [x].
Proof.
  intros H. destruct l as [| y l'] using rev_ind; [done |].
  rewrite last_snoc in H. simplify_eq. eauto.
Qed.

(** A miss in a bucket whose last slot (the one at [head.prev]) is free
    recycles that slot. *)
Lemma lookup_free_last i c b :
  last (bucket c i) = Some b → refcnt (slot c b) = 0 → lookup_free i c = Some b.
Proof.
  intros Hl Hr. apply last_snoc_inv in Hl as [l' Hl].
  unfold lookup_free. rewrite Hl, rev_app_distr. simpl.
  by rewrite bool_decide_eq_true_2.
Qed.

(** [brelse] of the last reference puts the slot right after the head of
    the bucket of its block number. *)
Lemma brelse_last_reference pid b c :
  holdingsleep pid b c = true →
  refcnt (slot c b) = 1 →
  brelse pid b c =
    Ok tt (link_head (hash (blockno (slot c b))) b
             (unlink b (upd b (set_refcnt 0) (releasesleep b c)))).
Proof.
  intros Hh Hr. unfold brelse. rewrite Hh, (slot_releasesleep _ _ _ Hh). simpl.
  rewrite Hr. reflexivity.
Qed.

(** C8, amended: for the 66 blocks 0..65 of device 1 read and released in
    turn on the cache as [binit] leaves it, the 66th read reuses the slot
    whose previous identity is block 0, the first requested, which hashes to
    the same bucket as block 65.  In general the choice is local to the
    bucket: the release of the last reference puts a slot right after the
    head of the bucket of its block, and a miss in a bucket whose slot at
    [head.prev] is free recycles that slot. *)
Theorem lru_first_blocks :
  (∃ bs c65 c66,
     read_release_all 0 1 1 (first_blocks 65) (binit ∅) = Ok bs c65 ∧
     bread 0 1 1 65 c65 = Ok 0%nat c66 ∧
     identity (slot c65 0) = (1, 0) ∧
     identity (slot c66 0) = (1, 65) ∧
     hash 65 = hash 0) ∧
  (∀ now pid d n c b,
     lookup_cached d n (hash n) c = None →
     last (bucket c (hash n)) = Some b →
     refcnt (slot c b) = 0 →
     bget now pid d n c = acquiresleep pid b (upd b (recycle d n) c)) ∧
  (∀ pid b c,
     holdingsleep pid b c = true →
     refcnt (slot c b) = 1 →
     (hash (blockno (slot c b)) < length (heads c))%nat →
     ∃ c', brelse pid b c = Ok tt c' ∧
           bucket c' (hash (blockno (slot c b)))
             = b :: filter (λ x, x ≠ b) (bucket c (hash (blockno (slot c b))))).
Proof.
  split.
  { do 3 eexists. split; [vm_compute; reflexivity |].
    split; [vm_compute; reflexivity |]. split; [vm_compute; reflexivity |].
    split; vm_compute; reflexivity. }
  split.
  - intros now pid d n c b Hc Hl Hr.
    apply bget_local; [done |]. by apply lookup_free_last.
  - intros pid b c Hh Hr Hlen.
    rewrite (brelse_last_reference _ _ _ Hh Hr).
    eexists. split; [reflexivity |].
    unfold bucket, link_head, unlink, upd, releasesleep; simpl.
    rewrite list_lookup_total_alter_eq by (by rewrite length_fmap).
    by rewrite (list_lookup_total_fmap _ _ _ Hlen).
Qed.

Lemma lru_first_blocks_witness :
  bget 0 1 1 65 (binit ∅) = acquiresleep 1 0 (upd 0 (recycle 1 65) (binit ∅)).
Proof.
  apply lru_first_blocks; reflexivity.
Defined.

(** ** [select_victim] (C4) *)

Lemma scanned_slot c S s i b :
  scanned c S s → scanned c (λ j x, S j x ∨ (j = i ∧ x = b)) (scan_slot c i s b).
Proof.
  intros [Hlow Hb]. unfold scan_slot. case_decide as Hd.
  - destruct Hd as [Hr Ht]. split; simpl.
    + intros j x [Hx | [-> ->]] Hrx; [| lia].
      destruct (Hlow j x Hx Hrx); lia.
    + repeat split; try done; [by eauto |].
      destruct (least_b s); [| lia]. destruct Hb as (_ & _ & _ & ?). lia.
  - split.
    + intros j x [Hx | [-> ->]] Hrx; [by apply (Hlow j x) |].
      destruct (least_b s); [destruct Hb as (_ & _ & _ & ?) |]; lia.
    + destruct (least_b s); [| done].
      destruct Hb as ((j & Hj & Hk) & ?). split; [| done]. eauto.
Qed.

Lemma scanned_weaken c (S S' : nat → nat → Prop) s :
  (∀ i b, S i b ↔ S' i b) → scanned c S s → scanned c S' s.
Proof.
  intros HS [Hlow Hb]. split.
  - intros i b Hx. apply (Hlow i b). by apply HS.
  - destruct (least_b s); [| done].
    destruct Hb as ((j & Hj & Hk) & ?). split; [| done].
    exists j. split; [by apply HS | done].
Qed.

Lemma scanned_slots c i l : ∀ S s,
  scanned c S s →
  scanned c (λ j x, S j x ∨ (j = i ∧ x ∈ l)) (foldl (scan_slot c i) s l).
Proof.
  induction l as [| b l IH]; intros S s Hs; simpl.
  - eapply scanned_weaken; [| exact Hs]. intros j x. set_solver.
  - eapply scanned_weaken; [| apply IH, scanned_slot, Hs].
    intros j x. simpl. set_solver.
Qed.

Lemma scanned_bucket c buckno S s i :
  scanned c S s →
  scanned c (λ j x, S j x ∨ (j = i ∧ i ≠ buckno ∧ x ∈ bucket c i))
          (scan_bucket c buckno s i).
Proof.
  intros Hs. unfold scan_bucket. case_decide as Hi.
  - eapply scanned_weaken; [| exact Hs]. intros j x. naive_solver.
  - eapply scanned_weaken; [| apply scanned_slots, Hs].
    intros j x. simpl. rewrite list_elem_of_In, <- in_rev, <- list_elem_of_In.
    naive_solver.
Qed.

Lemma scanned_buckets c buckno l : ∀ S s,
  scanned c S s →
  scanned c (λ j x, S j x ∨ (j ∈ l ∧ j ≠ buckno ∧ x ∈ bucket c j))
          (foldl (scan_bucket c buckno) s l).
Proof.
  induction l as [| i l IH]; intros S s Hs; simpl.
  - eapply scanned_weaken; [| exact Hs]. intros j x. set_solver.
  - eapply scanned_weaken; [| apply IH, scanned_bucket, Hs].
    intros j x. simpl. set_solver.
Qed.

Lemma scan_victim_scanned buckno c :
  scanned c (in_other_bucket c buckno) (scan_victim buckno c).
Proof.
  unfold scan_victim.
  eapply scanned_weaken;
    [| apply (scanned_buckets c buckno (seq 0 BUCKETSIZE) (λ _ _, False) scan0)].
  - intros i b. unfold in_other_bucket. rewrite elem_of_seq. naive_solver lia.
  - split; [done | reflexivity].
Qed.

(** The scan picks a free slot of another bucket with the smallest tick
    among the free slots of the other buckets whose tick is below
    0xffffffff, and picks nothing when there is no such slot. *)
Lemma scan_victim_spec buckno c :
  match least_b (scan_victim buckno c) with
  | Some b =>
      (∃ i, in_other_bucket c buckno i b) ∧
      refcnt (slot c b) = 0 ∧ ticks (slot c b) < 4294967295 ∧
      ∀ i b', in_other_bucket c buckno i b' → refcnt (slot c b') = 0 →
              ticks (slot c b) ≤ ticks (slot c b')
  | None =>
      ∀ i b', in_other_bucket c buckno i b' → refcnt (slot c b') = 0 →
              4294967295 ≤ ticks (slot c b')
  end.
Proof.
  destruct (scan_victim_scanned buckno c) as [Hlow Hb].
  destruct (least_b (scan_victim buckno c)) as [b |].
  - destruct Hb as ((i & Hi & _) & Hr & Ht & Hlt).
    repeat split; [by eauto | done | lia |].
    intros j b' Hb' Hr'. destruct (Hlow j b' Hb' Hr'); lia.
  - intros j b' Hb' Hr'. destruct (Hlow j b' Hb' Hr'); lia.
Qed.

(** The second half: nothing happens when the candidate is taken, and the
    candidate is reserved otherwise. *)
Lemma claim_victim_spec b c :
  (refcnt (slot c b) ≠ 0 → claim_victim b c = Ok None c) ∧
  (refcnt (slot c b) = 0 →
     claim_victim b c = Ok (Some b) (upd b (set_refcnt (-1)) c)).
Proof.
  unfold claim_victim. split; intros H.
  - by rewrite decide_True.
  - rewrite decide_False; [done |]. by intros [].
Qed.

(** All of [select_victim]: it panics when the scan finds no candidate;
    when the candidate [b] has been taken in between, it returns 0 and
    leaves the cache as the others left it; otherwise it reserves [b]. *)
Lemma select_victim_env_spec env buckno c :
  match least_b (scan_victim buckno c) with
  | None => select_victim_env env buckno c = Panic "bget: no buffers"
  | Some b =>
      (refcnt (slot (env c) b) ≠ 0 →
         select_victim_env env buckno c = Ok None (env c)) ∧
      (refcnt (slot (env c) b) = 0 →
         select_victim_env env buckno c =
           Ok (Some b) (upd b (set_refcnt (-1)) (env c)))
  end.
Proof.
  unfold select_victim_env.
  destruct (least_b (scan_victim buckno c)) as [b |]; [| done].
  apply claim_victim_spec.
Qed.

(** Without another process in between, [select_victim] never returns 0. *)
Lemma select_victim_cases buckno c :
  (select_victim buckno c = Panic "bget: no buffers" ∧
   least_b (scan_victim buckno c) = None) ∨
  (∃ b, select_victim buckno c = Ok (Some b) (upd b (set_refcnt (-1)) c) ∧
        least_b (scan_victim buckno c) = Some b).
Proof.
  unfold select_victim, select_victim_env.
  pose proof (scan_victim_spec buckno c) as H.
  destruct (least_b (scan_victim buckno c)) as [b |]; [right | by left].
  destruct H as (_ & Hr & _). exists b. split; [| done].
  by apply claim_victim_spec.
Qed.

(** C4 at the failing input [crowded_cache]: slot 5 sits in bucket 1, is
    free, and was last used at tick 0xffffffff; every other slot is in use.
    [select_victim] for bucket 0 scans bucket 1 and panics all the same, and
    so does the [bget] that needs a slot for block (1, 65). *)
Theorem select_victim_misses_late_tick :
  (∃ bs, crowded = Ok bs crowded_cache) ∧
  bucket crowded_cache 1 = [5; 9; 8; 7; 6]%nat ∧
  refcnt (slot crowded_cache 5) = 0 ∧
  ticks (slot crowded_cache 5) = 4294967295 ∧
  select_victim 0 crowded_cache = Panic "bget: no buffers" ∧
  bget late 1 1 65 crowded_cache = Panic "bget: no buffers".
Proof.
  split; [eexists; vm_compute; reflexivity |].
  repeat split; vm_compute; reflexivity.
Qed.


(** ** One slot per block, while no two calls run into each other *)

Lemma hash_lt n : (hash n < BUCKETSIZE)%nat.
Proof.
  unfold hash, BUCKETSIZE.
  pose proof (Z.mod_pos_bound n (Z.of_nat 13)). lia.
Qed.

Lemma slot_out_of_range c b : (length (slots c) ≤ b)%nat → slot c b = buf0.
Proof.
  intros H. unfold slot. by rewrite list_lookup_total_alt, lookup_ge_None_2.
Qed.

Lemma upd_out_of_range b f c : (length (slots c) ≤ b)%nat → upd b f c = c.
Proof.
  intros H. destruct c as [sl hd dk]. unfold upd; simpl in *. f_equal.
  revert b H. induction sl as [| x sl IH]; intros [| b] H; simpl in *;
    try done; try lia.
  f_equal. apply IH. lia.
Qed.

Lemma bucket_upd b f c i : bucket (upd b f c) i = bucket c i.
Proof. reflexivity. Qed.

Lemma bucket_unlink b c i :
  bucket (unlink b c) i = filter (λ x, x ≠ b) (bucket c i).
Proof.
  unfold bucket, unlink; simpl.
  rewrite !list_lookup_total_alt, list_lookup_fmap.
  by destruct (heads c !! i).
Qed.

Lemma bucket_link_head k b c i :
  bucket (link_head k b c) i =
    if decide (k = i ∧ (k < length (heads c))%nat) then b :: bucket c k
    else bucket c i.
Proof. unfold bucket, link_head; simpl. by rewrite list_lookup_total_alter. Qed.

Lemma bucket_link_tail k b c i :
  bucket (link_tail k b c) i =
    if decide (k = i ∧ (k < length (heads c))%nat) then bucket c k ++ [b]
    else bucket c i.
Proof. unfold bucket, link_tail; simpl. by rewrite list_lookup_total_alter. Qed.

(** The invariant only looks at the slots and the lists. *)
Lemma inv_ext c c' : slots c' = slots c → heads c' = heads c → inv c → inv c'.
Proof.
  intros Hs Hh [H1 H2 H3 H4 H5 H6 H7 H8].
  split; unfold slot, bucket in *; rewrite ?Hs, ?Hh; done.
Qed.

(** A call that changes one slot [b], its content or its place, and leaves
    it in bucket [k]. *)
Lemma inv_change c c' b k :
  inv c →
  length (slots c') = NBUF →
  length (heads c') = BUCKETSIZE →
  (∀ b', b' ≠ b → slot c' b' = slot c b') →
  (∀ i b', b' ≠ b → b' ∈ bucket c' i ↔ b' ∈ bucket c i) →
  (b < NBUF)%nat →
  (∀ i, b ∈ bucket c' i ↔ i = k) →
  0 ≤ refcnt (slot c' b) →
  hash (blockno (slot c' b)) = k ∨ identity (slot c' b) = (0, 0) →
  (∀ b', b' ≠ b → identity (slot c' b) = identity (slot c b') →
         identity (slot c' b) = (0, 0)) →
  inv c'.
Proof.
  intros Hinv Hls Hlh Hslot Hmem Hb Hin Hr Hhome Hu.
  split; try done.
  - intros i b' Hb'. destruct (decide (b' = b)) as [-> | Hne]; [done |].
    apply (inv_in c Hinv i). by apply Hmem.
  - intros b' Hb'. destruct (decide (b' = b)) as [-> | Hne].
    + exists k. by apply Hin.
    + destruct (inv_all c Hinv b' Hb') as [i Hi]. exists i. by apply Hmem.
  - intros i j b' Hi Hj. destruct (decide (b' = b)) as [-> | Hne].
    + apply Hin in Hi, Hj. congruence.
    + apply Hmem in Hi, Hj; try done. by apply (inv_one c Hinv i j b').
  - intros b'. destruct (decide (b' = b)) as [-> | Hne]; [done |].
    rewrite Hslot by done. apply (inv_ref c Hinv).
  - intros i b' Hb'. destruct (decide (b' = b)) as [-> | Hne].
    + apply Hin in Hb'. by subst.
    + rewrite Hslot by done. apply (inv_home c Hinv). by apply Hmem.
  - intros b1 b2 Hne Hid.
    destruct (decide (b1 = b)) as [-> | Hne1].
    + rewrite (Hslot b2) in Hid by done. by apply (Hu b2).
    + destruct (decide (b2 = b)) as [-> | Hne2].
      * rewrite (Hslot b1) in Hid |- * by done.
        rewrite Hid. apply (Hu b1); [done |]. by rewrite Hid.
      * rewrite (Hslot b1), (Hslot b2) in * by done.
        by apply (inv_uniq c Hinv b1 b2).
Qed.

(** Writing fields of [b] other than its identity. *)
Lemma inv_upd_keep c b f :
  inv c →
  identity (f (slot c b)) = identity (slot c b) →
  0 ≤ refcnt (f (slot c b)) →
  inv (upd b f c).
Proof.
  intros Hinv Hid Hr.
  destruct (decide (b < NBUF)%nat) as [Hb | Hb].
  2: { rewrite upd_out_of_range; [done |]. rewrite (inv_slots c Hinv). lia. }
  assert (Hlen : (b < length (slots c))%nat) by by rewrite (inv_slots c Hinv).
  destruct (inv_all c Hinv b Hb) as [k Hk].
  apply (inv_change c _ b k); try done.
  - rewrite length_slots_upd. apply (inv_slots c Hinv).
  - apply (inv_heads c Hinv).
  - intros b' Hne. by rewrite slot_upd_ne.
  - intros i. rewrite bucket_upd. split; [| intros ->; exact Hk].
    intros Hi. by apply (inv_one c Hinv i k b).
  - by rewrite slot_upd_eq.
  - rewrite slot_upd_eq by done.
    destruct (inv_home c Hinv k b Hk) as [Hh | Hh].
    + left. unfold identity in Hid. injection Hid as _ Hn. by rewrite Hn.
    + right. by rewrite Hid.
  - intros b' Hne. rewrite slot_upd_eq by done. rewrite Hid.
    intros Heq. by apply (inv_uniq c Hinv b b').
Qed.

(** Where the slots are after [b] has been unlinked and linked at one end
    of bucket [k]. *)
Lemma bucket_relink c b k (front : bool) i x :
  (k < length (heads c))%nat →
  x ∈ bucket ((if front then link_head k b else link_tail k b) (unlink b c)) i
  ↔ (x = b ∧ i = k) ∨ (x ≠ b ∧ x ∈ bucket c i).
Proof.
  intros Hk.
  assert (Hlk : (k < length (heads (unlink b c)))%nat).
  { unfold unlink; simpl. by rewrite length_fmap. }
  destruct front.
  - rewrite bucket_link_head. case_decide as Hd.
    + destruct Hd as [<- _].
      rewrite elem_of_cons, bucket_unlink, list_elem_of_filter. naive_solver.
    + rewrite bucket_unlink, list_elem_of_filter. naive_solver.
  - rewrite bucket_link_tail. case_decide as Hd.
    + destruct Hd as [<- _].
      rewrite elem_of_app, list_elem_of_singleton, bucket_unlink,
        list_elem_of_filter. naive_solver.
    + rewrite bucket_unlink, list_elem_of_filter. naive_solver.
Qed.

(** Moving [b] to the bucket of its block number, at either end. *)
Lemma inv_move c b k (front : bool) :
  inv c →
  (b < NBUF)%nat →
  hash (blockno (slot c b)) = k →
  inv ((if front then link_head k b else link_tail k b) (unlink b c)).
Proof.
  intros Hinv Hb Hk.
  assert (Hlk : (k < length (heads c))%nat).
  { rewrite (inv_heads c Hinv), <- Hk. apply hash_lt. }
  set (c' := (if front then link_head k b else link_tail k b) (unlink b c)).
  assert (Hslot : ∀ x, slot c' x = slot c x) by (by destruct front).
  pose proof (λ i x, bucket_relink c b k front i x Hlk) as Hbk. fold c' in Hbk.
  apply (inv_change c c' b k); try done.
  - unfold c'. destruct front; apply (inv_slots c Hinv).
  - unfold c'. destruct front; simpl; rewrite length_alter, length_fmap;
      apply (inv_heads c Hinv).
  - intros i x Hne. rewrite Hbk. naive_solver.
  - intros i. rewrite Hbk. naive_solver.
  - rewrite Hslot. apply (inv_ref c Hinv).
  - rewrite Hslot. by left.
  - intros b' Hne. rewrite Hslot. intros Heq. by apply (inv_uniq c Hinv b b').
Qed.

(** When the first loop of [bget] finds nothing, (d, n) is in no slot,
    unless it is the zero identity. *)
Lemma fresh_identity c d n b' :
  inv c →
  (∀ x, x ∈ bucket c (hash n) → ¬ cached d n (slot c x)) →
  identity (slot c b') = (d, n) → (d, n) = (0, 0).
Proof.
  intros Hinv Hnc Hid.
  destruct (decide (b' < NBUF)%nat) as [Hb | Hb].
  - destruct (inv_all c Hinv b' Hb) as [i Hi].
    destruct (inv_home c Hinv i b' Hi) as [Hh | Hz]; [| congruence].
    unfold identity in Hid. simplify_eq.
    exfalso. apply (Hnc b' Hi). repeat split.
    pose proof (inv_ref c Hinv b'). lia.
  - rewrite slot_out_of_range in Hid; [by rewrite <- Hid |].
    rewrite (inv_slots c Hinv). lia.
Qed.

(** Giving [b] the identity (d, n) and leaving it in the bucket of [n]. *)
Lemma inv_retag c c' b d n :
  inv c →
  (∀ x, x ∈ bucket c (hash n) → ¬ cached d n (slot c x)) →
  (b < NBUF)%nat →
  length (slots c') = NBUF →
  length (heads c') = BUCKETSIZE →
  (∀ b', b' ≠ b → slot c' b' = slot c b') →
  (∀ i x, x ∈ bucket c' i ↔ (x = b ∧ i = hash n) ∨ (x ≠ b ∧ x ∈ bucket c i)) →
  identity (slot c' b) = (d, n) →
  0 ≤ refcnt (slot c' b) →
  inv c'.
Proof.
  intros Hinv Hnc Hb Hls Hlh Hslot Hbk Hid Hr.
  apply (inv_change c c' b (hash n)); try done.
  - intros i x Hne. rewrite Hbk. naive_solver.
  - intros i. rewrite Hbk. naive_solver.
  - left. unfold identity in Hid. by simplify_eq.
  - intros b' Hne. rewrite Hid. intros Heq.
    by apply (fresh_identity c d n b').
Qed.

Lemma inv_acquiresleep pid b c c' :
  inv c → after (acquiresleep pid b c) = Some c' → inv c'.
Proof.
  intros Hinv. unfold acquiresleep.
  destruct (lock (slot c b)); simpl; intros ?; simplify_eq; [done |].
  apply inv_upd_keep; [done | done | apply (inv_ref c Hinv)].
Qed.

Lemma inv_bget now pid d n c c' :
  inv c → after (bget now pid d n c) = Some c' → inv c'.
Proof.
  intros Hinv. unfold bget.
  destruct (lookup_cached d n (hash n) c) as [b |] eqn:Hc.
  { destruct (incr (refcnt (slot c b))) as [r |] eqn:Hi; [| done].
    apply incr_Some in Hi as [-> _].
    apply inv_acquiresleep, inv_upd_keep; [done | done |].
    simpl. pose proof (inv_ref c Hinv b). lia. }
  assert (Hnc : ∀ x, x ∈ bucket c (hash n) → ¬ cached d n (slot c x)).
  { intros x. by apply lookup_cached_None. }
  destruct (lookup_free (hash n) c) as [b |] eqn:Hf.
  { apply lookup_free_Some in Hf as [Hin Hr].
    pose proof (inv_in c Hinv _ _ Hin) as Hb.
    assert ((b < length (slots c))%nat) by by rewrite (inv_slots c Hinv).
    apply inv_acquiresleep.
    apply (inv_retag c _ b d n); try done.
    - rewrite length_slots_upd. apply (inv_slots c Hinv).
    - apply (inv_heads c Hinv).
    - intros b' Hne. by rewrite slot_upd_ne.
    - intros i x. rewrite bucket_upd.
      destruct (decide (x = b)) as [-> | Hne]; [| naive_solver].
      split; [| naive_solver]. intros Hi. left. split; [done |].
      by apply (inv_one c Hinv i (hash n) b).
    - by rewrite slot_upd_eq.
    - by rewrite slot_upd_eq. }
  destruct (select_victim_cases (hash n) c) as [[-> _] | (b & -> & Hs)]; [done |].
  pose proof (scan_victim_spec (hash n) c) as Hspec. rewrite Hs in Hspec.
  destruct Hspec as ((i & _ & _ & Hin) & Hr & _).
  pose proof (inv_in c Hinv _ _ Hin) as Hb.
  assert ((b < length (slots c))%nat) by by rewrite (inv_slots c Hinv).
  apply inv_acquiresleep.
  apply (inv_retag c _ b d n); try done.
  - unfold migrate; simpl. rewrite !length_alter. apply (inv_slots c Hinv).
  - unfold migrate; simpl. rewrite length_alter, length_fmap.
    apply (inv_heads c Hinv).
  - intros b' Hne. unfold migrate.
    rewrite slot_link_tail, slot_upd_ne, slot_unlink, slot_upd_ne; done.
  - intros j x. unfold migrate.
    pose proof (bucket_relink (upd b (set_refcnt (-1)) c) b (hash n) false j x) as Hbk.
    simpl in Hbk.
    etrans; [| apply Hbk].
    + reflexivity.
    + simpl. rewrite (inv_heads c Hinv). apply hash_lt.
  - unfold migrate. rewrite slot_link_tail, slot_upd_eq; [done |].
    simpl. by rewrite length_alter.
  - unfold migrate. rewrite slot_link_tail, slot_upd_eq; [done |].
    simpl. by rewrite length_alter.
Qed.

Lemma inv_bread_fill b c : inv c → inv (bread_fill b c).
Proof.
  intros Hinv. unfold bread_fill. case_decide; [| done].
  unfold virtio_disk_rw.
  apply inv_upd_keep; [| done |].
  - apply inv_upd_keep; [done | done | apply (inv_ref c Hinv)].
  - simpl. apply (inv_ref (upd _ _ c)).
    apply inv_upd_keep; [done | done | apply (inv_ref c Hinv)].
Qed.

Lemma inv_bread now pid d n c c' :
  inv c → after (bread now pid d n c) = Some c' → inv c'.
Proof.
  intros Hinv. unfold bread.
  destruct (bget now pid d n c) as [b c1 | b c1 | | |] eqn:Hg; simpl;
    intros ?; simplify_eq.
  - apply inv_bread_fill. apply (inv_bget now pid d n c); [done |].
    by rewrite Hg.
  - apply (inv_bget now pid d n c); [done |]. by rewrite Hg.
Qed.

Lemma inv_bwrite pid b c c' :
  inv c → after (bwrite pid b c) = Some c' → inv c'.
Proof.
  intros Hinv. unfold bwrite. destruct (holdingsleep pid b c); [| done].
  simpl. intros ?; simplify_eq. by apply (inv_ext c).
Qed.

Lemma inv_brelse pid b c c' :
  inv c → 1 ≤ refcnt (slot c b) →
  after (brelse pid b c) = Some c' → inv c'.
Proof.
  intros Hinv Hr. unfold brelse.
  destruct (holdingsleep pid b c) eqn:Hh; [| done].
  pose proof (holdingsleep_valid _ _ _ Hh) as Hlen.
  rewrite (slot_releasesleep _ _ _ Hh). simpl.
  case_decide; [done |].
  destruct (decr (refcnt (slot c b))) as [r |] eqn:Hd; [| done].
  apply decr_Some in Hd as [-> _].
  assert (Hinv1 : inv (releasesleep b c)).
  { apply inv_upd_keep; [done | done | apply (inv_ref c Hinv)]. }
  assert (Hinv2 : inv (upd b (set_refcnt (refcnt (slot c b) - 1)) (releasesleep b c))).
  { apply inv_upd_keep; [done | done |]. simpl. lia. }
  case_decide; simpl; intros ?; simplify_eq; [| done].
  apply (inv_move _ b _ true); [done | |].
  - by rewrite <- (inv_slots c Hinv).
  - rewrite slot_upd_eq.
    + by rewrite (slot_releasesleep _ _ _ Hh).
    + unfold releasesleep. by rewrite length_slots_upd.
Qed.

Lemma inv_bpin b c c' : inv c → after (bpin b c) = Some c' → inv c'.
Proof.
  intros Hinv. unfold bpin.
  destruct (incr (refcnt (slot c b))) as [r |] eqn:Hi; [| done].
  apply incr_Some in Hi as [-> _]. simpl. intros ?; simplify_eq.
  apply inv_upd_keep; [done | done |].
  simpl. pose proof (inv_ref c Hinv b). lia.
Qed.

Lemma inv_bunpin b c c' :
  inv c → 1 ≤ refcnt (slot c b) → after (bunpin b c) = Some c' → inv c'.
Proof.
  intros Hinv Hr. unfold bunpin.
  destruct (decr (refcnt (slot c b))) as [r |] eqn:Hi; [| done].
  apply decr_Some in Hi as [-> _]. simpl. intros ?; simplify_eq.
  apply inv_upd_keep; [done | done |]. simpl. lia.
Qed.

Lemma inv_step c c' : inv c → step c c' → inv c'.
Proof.
  intros Hinv (o & Hcare & Hex). destruct o; simpl in *.
  - by eapply inv_bget.
  - by eapply inv_bread.
  - by eapply inv_bwrite.
  - by eapply inv_brelse.
  - by eapply inv_bpin.
  - by eapply inv_bunpin.
  - eapply inv_acquiresleep; [done |].
    destruct (acquiresleep pid b c) eqn:Ha; simplify_eq. by rewrite Ha.
  - simplify_eq. by apply inv_bread_fill.
Qed.

Lemma foldl_cons_rev (l acc : list nat) :
  foldl (λ l b, b :: l) acc l = rev l ++ acc.
Proof.
  revert acc. induction l as [| x l IH]; intros acc; simpl; [done |].
  by rewrite IH, <- app_assoc.
Qed.

Lemma bucket_binit d i b :
  b ∈ bucket (binit d) i ↔
  (i < BUCKETSIZE)%nat ∧ (i * BUFFERSIZE ≤ b < i * BUFFERSIZE + BUFFERSIZE)%nat.
Proof.
  unfold bucket, binit. cbn [heads].
  destruct (decide (i < BUCKETSIZE)%nat) as [Hi | Hi].
  - assert (Hlen : (i < length (seq 0 BUCKETSIZE))%nat) by by rewrite length_seq.
    rewrite (list_lookup_total_fmap _ _ _ Hlen).
    rewrite lookup_total_seq_lt by done.
    rewrite foldl_cons_rev, app_nil_r.
    rewrite list_elem_of_In, <- in_rev, <- list_elem_of_In, elem_of_seq.
    simpl. lia.
  - rewrite list_lookup_total_alt, lookup_ge_None_2.
    + split; [by intros ?%elem_of_nil | lia].
    + rewrite length_fmap, length_seq. lia.
Qed.

Lemma inv_binit d : inv (binit d).
Proof.
  assert (Hslot : ∀ b, slot (binit d) b = buf0).
  { intros b. unfold slot.
    change (slots (binit d)) with (replicate NBUF buf0).
    destruct (decide (b < NBUF)%nat).
    - by apply lookup_total_replicate_2.
    - rewrite list_lookup_total_alt, lookup_ge_None_2; [done |].
      rewrite length_replicate. lia. }
  split.
  - apply length_replicate.
  - unfold binit; cbn [heads]. by rewrite length_fmap, length_seq.
  - intros i b Hb. apply bucket_binit in Hb. unfold NBUF, BUCKETSIZE, BUFFERSIZE in *. lia.
  - intros b Hb. exists (b / BUFFERSIZE)%nat. apply bucket_binit.
    unfold NBUF, BUCKETSIZE, BUFFERSIZE in *.
    pose proof (Nat.div_mod_eq b 5). pose proof (Nat.mod_upper_bound b 5).
    lia.
  - intros i j b Hi Hj. apply bucket_binit in Hi, Hj.
    unfold BUFFERSIZE in *. lia.
  - intros b. by rewrite Hslot.
  - intros i b _. right. by rewrite Hslot.
  - intros b b' _ _. by rewrite Hslot.
Qed.

Lemma inv_reachable d c : rtc step (binit d) c → inv c.
Proof.
  intros H. apply (rtc_ind_r (R := step) (λ x, inv x) (binit d)); [apply inv_binit | | done].
  intros y z _ Hs Hy. by eapply inv_step.
Qed.

Lemma run_reachable os c c' : run os c = Some c' → rtc step_any c c'.
Proof.
  revert c. induction os as [| o os IH]; intros c; simpl.
  - intros ?; simplify_eq. constructor.
  - destruct (exec o c) as [c1 |] eqn:He; [| done].
    intros Hr. eapply rtc_l; [by exists o | by apply IH].
Qed.

Lemma run_careful_reachable os c c' : run_careful os c = Some c' → rtc step c c'.
Proof.
  revert c. induction os as [| o os IH]; intros c; simpl.
  - intros ?; simplify_eq. constructor.
  - case_decide; [| done].
    destruct (exec o c) as [c1 |] eqn:He; [| done].
    intros Hr. eapply rtc_l; [by exists o | by apply IH].
Qed.

Lemma acquiresleep_returns pid b0 c0 b c' :
  acquiresleep pid b0 c0 = Ok b c' ∨ acquiresleep pid b0 c0 = Asleep b c' →
  b = b0.
Proof.
  unfold acquiresleep. destruct (lock (slot c0 b0)); intros [H | H]; by simplify_eq.
Qed.

(** Whatever the cache, [bget] never returns a slot that is reserved for
    eviction. *)
Lemma bget_not_reserved now pid d n c b c' :
  bget now pid d n c = Ok b c' ∨ bget now pid d n c = Asleep b c' →
  refcnt (slot c b) ≠ -1.
Proof.
  unfold bget.
  destruct (lookup_cached d n (hash n) c) as [b0 |] eqn:Hc.
  { destruct (incr (refcnt (slot c b0))); [| by intros [|]].
    intros ->%acquiresleep_returns.
    by apply lookup_cached_Some in Hc as (_ & _ & _ & ?). }
  destruct (lookup_free (hash n) c) as [b0 |] eqn:Hf.
  { intros ->%acquiresleep_returns.
    apply lookup_free_Some in Hf as [_ Hr]. lia. }
  destruct (select_victim_cases (hash n) c) as [[-> _] | (b0 & -> & Hs)];
    [by intros [|] |].
  intros ->%acquiresleep_returns.
  pose proof (scan_victim_spec (hash n) c) as Hspec. rewrite Hs in Hspec.
  destruct Hspec as (_ & Hr & _). lia.
Qed.

(** Two slots with the same identity, by the design of the code.  On the
    cache as [binit] leaves it the slots 0 and 1 both have refcnt 0 and the
    identity (0, 0).  And the calls [misuse] ([bread], [bunpin], [brelse],
    which leaves slot 0 with refcnt -1, then [bread] of the same block,
    which recycles slot 1 for it, and [bpin] of slot 0) lead to a cache
    where the slots 0 and 1 both hold block (1, 0) with refcnt 0 and 1:
    no decrement is checked against 0. *)
Lemma duplicate_identity_reachable :
  (identity (slot (binit ∅) 0) = identity (slot (binit ∅) 1) ∧
   0 ≤ refcnt (slot (binit ∅) 0) ∧ 0 ≤ refcnt (slot (binit ∅) 1)) ∧
  ∃ c, rtc step_any (binit ∅) c ∧
       identity (slot c 0) = (1, 0) ∧ identity (slot c 1) = (1, 0) ∧
       refcnt (slot c 0) = 0 ∧ refcnt (slot c 1) = 1.
Proof.
  split; [by vm_compute |].
  exists (default (binit ∅) (run misuse (binit ∅))).
  split; [apply (run_reachable misuse); vm_compute; reflexivity |].
  repeat split; vm_compute; reflexivity.
Qed.

End BioProps.

(** * The pointers behind the lists of the buffer cache

    The assignments of bio.c to [next] and [prev] do to the links what
    [Bio.unlink], [Bio.link_head] and [Bio.link_tail] do to the lists, and
    the loops of bio.c over a list meet the slots of [Bio.bucket]. *)

Module LinksProps.
Import Links.

Lemma path_app f x l1 b l2 y :
  path f x (l1 ++ b :: l2) y ↔ path f x l1 (Slot b) ∧ path f (Slot b) l2 y.
Proof.
  revert x. induction l1 as [| a l1 IH]; intros x; simpl; [done |].
  rewrite IH. naive_solver.
Qed.

Lemma path_snoc f x l b y :
  path f x (l ++ [b]) y ↔ path f x l (Slot b) ∧ f (Slot b) = y.
Proof. by rewrite path_app. Qed.

Lemma path_hd f x l y : path f x l y → f x = hd_node l y.
Proof. destruct l; simpl; naive_solver. Qed.

(** A path does not see an assignment to a field it does not read. *)
Lemma path_insert f z v x l y :
  z ≠ x → (∀ b, b ∈ l → z ≠ Slot b) →
  path (<[z := v]> f) x l y ↔ path f x l y.
Proof.
  revert x. induction l as [| a l IH]; intros x Hx Hl; simpl.
  - by rewrite fn_lookup_insert_ne.
  - rewrite fn_lookup_insert_ne by done.
    rewrite IH; [done | |].
    + apply Hl. apply elem_of_cons. by left.
    + intros b Hb. apply Hl. apply elem_of_cons. by right.
Qed.

(** Pointing [x] at the start of a path that some [z] starts. *)
Lemma path_redirect f x z l y :
  (∀ a, a ∈ l → x ≠ Slot a) →
  path f z l y → path (<[x := hd_node l y]> f) x l y.
Proof.
  intros Hx Hp. destruct l as [| a l]; simpl in *.
  - by rewrite fn_lookup_insert.
  - rewrite fn_lookup_insert. split; [done |].
    destruct Hp as [_ Hp]. apply path_insert; [| | done].
    + apply Hx. apply elem_of_cons. by left.
    + intros b Hb. apply Hx. apply elem_of_cons. by right.
Qed.

(** Pointing the last node of a path somewhere else. *)
Lemma path_retarget f x l y y' :
  NoDup l → (∀ a, a ∈ l → x ≠ Slot a) →
  path f x l y → path (<[hd_node (rev l) x := y']> f) x l y'.
Proof.
  intros Hnd Hx Hp. destruct l as [| a l _] using rev_ind; simpl in *.
  - by rewrite fn_lookup_insert.
  - rewrite rev_app_distr. simpl.
    apply path_snoc in Hp as [Hp _]. apply path_snoc.
    apply NoDup_app in Hnd as (_ & Hd & _).
    split; [| by rewrite fn_lookup_insert].
    apply path_insert; [| | done].
    + intros <-. eapply Hx; [| done]. apply elem_of_app. right. by apply list_elem_of_singleton.
    + intros b Hb [= ->]. eapply Hd; [done |]. by apply list_elem_of_singleton.
Qed.

(** Taking [b] out of a path. *)
Lemma path_cut f x l1 b l2 y :
  NoDup (l1 ++ b :: l2) → (∀ a, a ∈ l1 ++ b :: l2 → x ≠ Slot a) →
  path f x (l1 ++ b :: l2) y →
  path (<[hd_node (rev l1) x := hd_node l2 y]> f) x (l1 ++ l2) y.
Proof.
  intros Hnd Hx Hp. apply path_app in Hp as [Hp1 Hp2].
  destruct l1 as [| a l1 _] using rev_ind; simpl in *.
  - eapply path_redirect; [| done].
    intros c Hc. apply Hx. apply elem_of_cons. by right.
  - rewrite rev_app_distr. simpl. rewrite <- app_assoc. simpl.
    apply path_snoc in Hp1 as [Hp1 _]. apply path_app.
    rewrite <- app_assoc in Hnd. simpl in Hnd.
    apply NoDup_app in Hnd as (_ & Hd & Hnd').
    apply NoDup_cons in Hnd' as [Ha Hnd'].
    split.
    + apply path_insert; [| | done].
      * intros <-. eapply Hx; [| done].
        rewrite <- app_assoc. apply elem_of_app. right. apply elem_of_cons. by left.
      * intros c Hc [= ->]. eapply Hd; [done |]. apply elem_of_cons. by left.
    + eapply path_redirect; [| done].
      intros c Hc [= ->]. apply Ha. apply elem_of_cons. by right.
Qed.

Lemma elem_of_rev' (x : nat) l : x ∈ rev l ↔ x ∈ l.
Proof. rewrite rev_alt. apply elem_of_reverse. Qed.

Lemma NoDup_rev' (l : list nat) : NoDup l → NoDup (rev l).
Proof.
  rewrite rev_alt. intros Hnd. change (NoDup (reverse l)).
  by rewrite reverse_Permutation.
Qed.

Lemma ring_mirror lk i l : ring (mirror lk) i (rev l) ↔ ring lk i l.
Proof. unfold ring, mirror. simpl. rewrite rev_involutive. naive_solver. Qed.

Lemma mirror_mirror lk : mirror (mirror lk) = lk.
Proof. by destruct lk. Qed.

Lemma unlink_ptr_mirror b lk : unlink_ptr' b lk = mirror (unlink_ptr b (mirror lk)).
Proof. reflexivity. Qed.

Lemma link_tail_ptr_mirror i b lk : link_tail_ptr i b lk = mirror (link_head_ptr i b (mirror lk)).
Proof. reflexivity. Qed.

(** What the two assignments of the unlinking amount to, in a list. *)
Lemma unlink_ptr_ring lk i l1 b l2 :
  NoDup (l1 ++ b :: l2) → ring lk i (l1 ++ b :: l2) →
  unlink_ptr b lk =
    mkLinks (<[hd_node (rev l1) (Head i) := hd_node l2 (Head i)]> (next lk))
            (<[hd_node l2 (Head i) := hd_node (rev l1) (Head i)]> (prev lk)).
Proof.
  intros Hnd [Hn Hp].
  rewrite rev_app_distr in Hp. simpl in Hp. rewrite <- app_assoc in Hp. simpl in Hp.
  apply path_app in Hn as [_ Hn]. apply path_app in Hp as [_ Hp].
  apply path_hd in Hn, Hp.
  unfold unlink_ptr, set_next, set_prev. simpl.
  rewrite Hn, Hp.
  rewrite fn_lookup_insert_ne, Hp; [done |].
  apply NoDup_app in Hnd as (_ & _ & Hnd). apply NoDup_cons in Hnd as [Hb _].
  destruct l2 as [| c l2]; simpl; [done |].
  intros [= ->]. apply Hb. apply elem_of_cons. by left.
Qed.

Lemma ring_unlink lk i l1 b l2 :
  NoDup (l1 ++ b :: l2) → ring lk i (l1 ++ b :: l2) →
  ring (unlink_ptr b lk) i (l1 ++ l2).
Proof.
  intros Hnd Hr. rewrite (unlink_ptr_ring lk i l1 b l2) by done.
  destruct Hr as [Hn Hp]. split; simpl.
  - by apply (path_cut _ _ l1 b l2).
  - rewrite rev_app_distr.
    rewrite rev_app_distr in Hp. simpl in Hp. rewrite <- app_assoc in Hp. simpl in Hp.
    rewrite <- (rev_involutive l2) at 1.
    apply (path_cut _ _ (rev l2) b (rev l1)); [| done | done].
    apply NoDup_rev' in Hnd.
    by rewrite rev_app_distr in Hnd; simpl in Hnd; rewrite <- app_assoc in Hnd.
Qed.

(** The nodes whose fields the two assignments write belong to the list
    [b] is in. *)
Lemma hd_node_cases l i :
  hd_node l (Head i) = Head i ∨ ∃ a, a ∈ l ∧ hd_node l (Head i) = Slot a.
Proof.
  destruct l as [| a l]; simpl; [by left |].
  right. exists a. split; [| done]. apply elem_of_cons. by left.
Qed.

Lemma path_insert_other f z v j l i (k : list nat) :
  j ≠ i → (∀ a, a ∈ k → a ∉ l) →
  z = Head i ∨ (∃ a, a ∈ k ∧ z = Slot a) →
  path (<[z := v]> f) (Head j) l (Head j) ↔ path f (Head j) l (Head j).
Proof.
  intros Hji Hd Hz. apply path_insert.
  - destruct Hz as [-> | (a & _ & ->)]; [| done]. intros [= ->]. done.
  - intros b Hb. destruct Hz as [-> | (a & Ha & ->)]; [done |].
    intros [= ->]. by eapply Hd.
Qed.

Lemma ring_unlink_other lk i l1 b l2 j l :
  NoDup (l1 ++ b :: l2) → ring lk i (l1 ++ b :: l2) →
  j ≠ i → (∀ a, a ∈ l1 ++ b :: l2 → a ∉ l) →
  ring lk j l → ring (unlink_ptr b lk) j l.
Proof.
  intros Hnd Hr Hji Hd [Hn Hp]. rewrite (unlink_ptr_ring lk i l1 b l2) by done.
  split; simpl.
  - apply (path_insert_other _ _ _ _ _ i (l1 ++ b :: l2)); [done | done | | done].
    destruct (hd_node_cases (rev l1) i) as [-> | (a & Ha & ->)]; [by left |].
    right. exists a. split; [| done]. apply elem_of_app. left. by apply elem_of_rev'.
  - apply (path_insert_other _ _ _ _ _ i (l1 ++ b :: l2)); [done | | | done].
    + intros a Ha. rewrite elem_of_rev'. by apply Hd.
    + destruct (hd_node_cases l2 i) as [-> | (a & Ha & ->)]; [by left |].
      right. exists a. split; [| done]. apply elem_of_app. right. apply elem_of_cons. by right.
Qed.

(** What the four assignments of the linking amount to. *)
Lemma link_head_ptr_ring lk i l b :
  ring lk i l →
  link_head_ptr i b lk =
    mkLinks (<[Head i := Slot b]> (<[Slot b := hd_node l (Head i)]> (next lk)))
            (<[hd_node l (Head i) := Slot b]> (<[Slot b := Head i]> (prev lk))).
Proof.
  intros [Hn _]. apply path_hd in Hn.
  unfold link_head_ptr, set_next, set_prev. simpl.
  by rewrite fn_lookup_insert_ne, Hn.
Qed.

Lemma ring_link_head lk i l b :
  NoDup l → b ∉ l → ring lk i l → ring (link_head_ptr i b lk) i (b :: l).
Proof.
  intros Hnd Hb Hr. rewrite (link_head_ptr_ring lk i l b) by done.
  destruct Hr as [Hn Hp]. split; simpl.
  - rewrite fn_lookup_insert. split; [done |].
    apply path_insert; [done | done |].
    eapply path_redirect; [| done]. intros a Ha [= ->]. done.
  - apply path_snoc. split.
    + rewrite <- (rev_involutive l) at 1.
      apply (path_retarget _ _ _ (Head i)).
      * by apply NoDup_rev'.
      * done.
      * apply path_insert.
        -- done.
        -- intros a Ha [= <-]. apply Hb. by apply elem_of_rev'.
        -- done.
    + rewrite fn_lookup_insert_ne; [by rewrite fn_lookup_insert |].
      destruct l as [| c l]; simpl; [done |].
      intros [= ->]. apply Hb. apply elem_of_cons. by left.
Qed.

Lemma ring_link_head_other lk i l b j l' :
  ring lk i l → j ≠ i → b ∉ l' → (∀ a, a ∈ l → a ∉ l') →
  ring lk j l' → ring (link_head_ptr i b lk) j l'.
Proof.
  intros Hr Hji Hb Hd [Hn Hp]. rewrite (link_head_ptr_ring lk i l b) by done.
  split; simpl.
  - apply path_insert; [by intros [= ->] | done |].
    apply path_insert; [done | | done]. by intros a Ha [= ->].
  - apply (path_insert_other _ _ _ _ _ i l); [done | | |].
    + intros a Ha. rewrite elem_of_rev'. by apply Hd.
    + destruct (hd_node_cases l i) as [-> | (a & Ha & ->)]; [by left |].
      right. by exists a.
    + apply path_insert; [done | | done].
      intros a Ha [= <-]. apply Hb. by apply elem_of_rev'.
Qed.

Lemma ring_unlink' lk i l1 b l2 :
  NoDup (l1 ++ b :: l2) → ring lk i (l1 ++ b :: l2) →
  ring (unlink_ptr' b lk) i (l1 ++ l2).
Proof.
  intros Hnd Hr. rewrite unlink_ptr_mirror.
  apply ring_mirror. rewrite mirror_mirror, rev_app_distr.
  apply ring_unlink.
  - apply NoDup_rev' in Hnd.
    by rewrite rev_app_distr in Hnd; simpl in Hnd; rewrite <- app_assoc in Hnd.
  - apply ring_mirror in Hr.
    by rewrite rev_app_distr in Hr; simpl in Hr; rewrite <- app_assoc in Hr.
Qed.

Lemma ring_unlink_other' lk i l1 b l2 j l :
  NoDup (l1 ++ b :: l2) → ring lk i (l1 ++ b :: l2) →
  j ≠ i → (∀ a, a ∈ l1 ++ b :: l2 → a ∉ l) →
  ring lk j l → ring (unlink_ptr' b lk) j l.
Proof.
  intros Hnd Hr Hji Hd Hj. rewrite unlink_ptr_mirror.
  apply ring_mirror. rewrite mirror_mirror.
  apply (ring_unlink_other _ i (rev l2) b (rev l1)).
  - apply NoDup_rev' in Hnd.
    by rewrite rev_app_distr in Hnd; simpl in Hnd; rewrite <- app_assoc in Hnd.
  - apply ring_mirror in Hr.
    by rewrite rev_app_distr in Hr; simpl in Hr; rewrite <- app_assoc in Hr.
  - done.
  - intros a Ha. rewrite elem_of_rev'. apply Hd.
    apply elem_of_rev'. by rewrite rev_app_distr; simpl; rewrite <- app_assoc.
  - by apply ring_mirror.
Qed.

Lemma ring_link_tail lk i l b :
  NoDup l → b ∉ l → ring lk i l → ring (link_tail_ptr i b lk) i (l ++ [b]).
Proof.
  intros Hnd Hb Hr. rewrite link_tail_ptr_mirror.
  apply ring_mirror. rewrite mirror_mirror, rev_app_distr. simpl.
  apply ring_link_head.
  - by apply NoDup_rev'.
  - by rewrite elem_of_rev'.
  - by apply ring_mirror.
Qed.

Lemma ring_link_tail_other lk i l b j l' :
  ring lk i l → j ≠ i → b ∉ l' → (∀ a, a ∈ l → a ∉ l') →
  ring lk j l' → ring (link_tail_ptr i b lk) j l'.
Proof.
  intros Hr Hji Hb Hd Hj. rewrite link_tail_ptr_mirror.
  apply ring_mirror. rewrite mirror_mirror.
  apply (ring_link_head_other _ i (rev l)).
  - by apply ring_mirror.
  - done.
  - by rewrite elem_of_rev'.
  - intros a Ha. rewrite elem_of_rev'. apply Hd. by apply elem_of_rev'.
  - by apply ring_mirror.
Qed.

(** ** The lists of all buckets *)

Lemma filter_ne_absent (l : list nat) b : b ∉ l → filter (λ x, x ≠ b) l = l.
Proof.
  induction l as [| y l IH]; [done |].
  intros Hx. apply not_elem_of_cons in Hx as [Hne Hx].
  rewrite filter_cons_True by done. by rewrite IH.
Qed.

Lemma filter_ne_middle (l1 l2 : list nat) b :
  NoDup (l1 ++ b :: l2) → filter (λ x, x ≠ b) (l1 ++ b :: l2) = l1 ++ l2.
Proof.
  intros Hnd. apply NoDup_app in Hnd as (_ & Hd & Hnd).
  apply NoDup_cons in Hnd as [Hb _].
  rewrite filter_app, filter_cons_False by (by intros []).
  rewrite !filter_ne_absent; [done | done |].
  intros Hb1. eapply Hd; [done |]. apply elem_of_cons. by left.
Qed.

Lemma nodup_lists_unlink hs b : nodup_lists hs → nodup_lists (filter (λ x, x ≠ b) <$> hs).
Proof.
  intros [Hnd Hone]. split.
  - intros i l. rewrite list_lookup_fmap.
    destruct (hs !! i) as [l0 |] eqn:Hi; simpl; intros ?; simplify_eq.
    apply NoDup_filter. by eapply Hnd.
  - intros i j l l' a. rewrite !list_lookup_fmap.
    destruct (hs !! i) as [l0 |] eqn:Hi, (hs !! j) as [l0' |] eqn:Hj;
      simpl; intros ? ?; simplify_eq.
    rewrite !list_elem_of_filter. intros [_ Ha] [_ Ha']. by eapply Hone.
Qed.

Lemma absent_unlink (hs : list (list nat)) b i l :
  (filter (λ x, x ≠ b) <$> hs) !! i = Some l → b ∉ l.
Proof.
  rewrite list_lookup_fmap.
  destruct (hs !! i) as [l0 |]; simpl; intros ?; simplify_eq.
  rewrite list_elem_of_filter. naive_solver.
Qed.

Lemma nodup_lists_link hs (front : bool) k b :
  nodup_lists hs → (∀ i l, hs !! i = Some l → b ∉ l) →
  nodup_lists (alter (λ l, if front then b :: l else l ++ [b]) k hs).
Proof.
  intros [Hnd Hone] Hb.
  assert (Hlook : ∀ i l,
    alter (λ l, if front then b :: l else l ++ [b]) k hs !! i = Some l →
    ∃ l0, hs !! i = Some l0 ∧
          ((i = k ∧ l = if front then b :: l0 else l0 ++ [b]) ∨ (i ≠ k ∧ l = l0))).
  { intros i l. destruct (decide (i = k)) as [-> | Hne].
    - rewrite list_lookup_alter_eq.
      destruct (hs !! k) as [l0 |]; simpl; intros ?; simplify_eq. eauto.
    - rewrite list_lookup_alter_ne by done. eauto. }
  split.
  - intros i l Hi. apply Hlook in Hi as (l0 & Hl0 & [[-> ->] | [_ ->]]); [| by eapply Hnd].
    destruct front.
    + apply NoDup_cons. split; [by eapply Hb | by eapply Hnd].
    + apply NoDup_app. split; [by eapply Hnd |]. split; [| apply NoDup_singleton].
      intros x Hx ->%list_elem_of_singleton. by eapply Hb.
  - intros i j l l' a Hi Hj Ha Ha'.
    apply Hlook in Hi as (l0 & Hl0 & Hi). apply Hlook in Hj as (l0' & Hl0' & Hj).
    assert (Hin : ∀ (m m0 : list nat), (m = if front then b :: m0 else m0 ++ [b]) →
                  a ∈ m → a = b ∨ a ∈ m0).
    { intros m m0 ->. destruct front.
      - rewrite elem_of_cons. naive_solver.
      - rewrite elem_of_app, list_elem_of_singleton. naive_solver. }
    destruct Hi as [[-> Hl] | [Hik ->]], Hj as [[-> Hl'] | [Hjk ->]]; [done | | |].
    + apply (Hin _ _ Hl) in Ha as [-> | Ha]; [by destruct (Hb _ _ Hl0') | by eapply Hone].
    + apply (Hin _ _ Hl') in Ha' as [-> | Ha']; [by destruct (Hb _ _ Hl0) | by eapply Hone].
    + by eapply Hone.
Qed.

(** The two assignments of the unlinking, in either order, do to the links
    what the filter does to the lists. *)
Lemma represents_unlink lk hs i l b (other : bool) :
  nodup_lists hs → represents lk hs → hs !! i = Some l → b ∈ l →
  represents ((if other then unlink_ptr' else unlink_ptr) b lk)
             (filter (λ x, x ≠ b) <$> hs).
Proof.
  intros [Hnd Hone] Hrep Hi Hb.
  apply list_elem_of_split in Hb as (l1 & l2 & ->).
  pose proof (Hnd _ _ Hi) as Hndl. pose proof (Hrep _ _ Hi) as Hr.
  intros j l'. rewrite list_lookup_fmap.
  destruct (hs !! j) as [l0 |] eqn:Hj; simpl; intros ?; simplify_eq.
  destruct (decide (j = i)) as [-> | Hne].
  - rewrite Hi in Hj. simplify_eq. rewrite filter_ne_middle by done.
    destruct other; [by apply ring_unlink' | by apply ring_unlink].
  - assert (Hd : ∀ a, a ∈ l1 ++ b :: l2 → a ∉ l0).
    { intros a Ha Ha'. apply Hne. by eapply Hone. }
    rewrite filter_ne_absent.
    + destruct other;
        [eapply ring_unlink_other' | eapply ring_unlink_other]; eauto.
    + apply Hd. apply elem_of_app. right. apply elem_of_cons. by left.
Qed.

(** The four assignments of the linking do to the links what putting [b]
    at the front, or at the back, does to the list of bucket [k]. *)
Lemma represents_link lk hs (front : bool) k b :
  nodup_lists hs → represents lk hs → (∀ i l, hs !! i = Some l → b ∉ l) →
  (k < length hs)%nat →
  represents ((if front then link_head_ptr else link_tail_ptr) k b lk)
             (alter (λ l, if front then b :: l else l ++ [b]) k hs).
Proof.
  intros [Hnd Hone] Hrep Hb Hlen j l'.
  destruct (decide (j = k)) as [-> | Hne].
  - rewrite list_lookup_alter_eq.
    destruct (hs !! k) as [l |] eqn:Hk; simpl; intros ?; simplify_eq.
    destruct front; [apply ring_link_head | apply ring_link_tail]; eauto.
  - rewrite list_lookup_alter_ne by done. intros Hj.
    destruct (hs !! k) as [l |] eqn:Hk.
    + assert (Hd : ∀ a, a ∈ l → a ∉ l').
      { intros a Ha Ha'. apply Hne. by eapply Hone. }
      destruct front;
        [eapply ring_link_head_other | eapply ring_link_tail_other]; eauto.
    + apply lookup_ge_None in Hk. lia.
Qed.

(** ** The calls of bio.c *)

Import Bio BioProps.

Lemma represents_relink lk c (front : bool) k b i l :
  nodup_lists (heads c) → represents lk (heads c) →
  heads c !! i = Some l → b ∈ l → (k < length (heads c))%nat →
  represents (relink_ptr front k b lk) (heads (relink front k b c)).
Proof.
  intros Ht Hrep Hi Hb Hk.
  pose proof (represents_unlink lk (heads c) i l b (negb front) Ht Hrep Hi Hb) as Hu.
  pose proof (nodup_lists_unlink (heads c) b Ht) as Htu.
  assert (Hk' : (k < length (filter (λ x, x ≠ b) <$> heads c))%nat)
    by by rewrite length_fmap.
  pose proof (represents_link _ _ front k b Htu Hu (absent_unlink (heads c) b) Hk') as Hl.
  by destruct front.
Qed.

Lemma shape_relink c c' (front : bool) k b :
  shape c → (k < BUCKETSIZE)%nat →
  heads c' = heads (relink front k b c) →
  length (slots c') = length (slots c) → shape c'.
Proof.
  intros (Hlen & Ht & Hall) Hk Hh Hs.
  assert (Hh' : heads c' =
    alter (λ l, if front then b :: l else l ++ [b]) k
          (filter (λ x, x ≠ b) <$> heads c)) by by destruct front.
  unfold shape. rewrite Hh', Hs.
  split; [by rewrite length_alter, length_fmap |].
  split; [apply nodup_lists_link; [by apply nodup_lists_unlink | apply absent_unlink] |].
  intros x Hx. destruct (Hall x Hx) as (i & l & Hi & Hin).
  destruct (lookup_lt_is_Some_2 (heads c) k) as [lk Hlk]; [lia |].
  destruct (decide (x = b)) as [-> | Hne].
  - exists k, (if front then b :: filter (λ x, x ≠ b) lk
               else filter (λ x, x ≠ b) lk ++ [b]).
    split; [by rewrite list_lookup_alter_eq, list_lookup_fmap, Hlk |].
    destruct front; [apply elem_of_cons; by left |].
    apply elem_of_app. right. by apply list_elem_of_singleton.
  - destruct (decide (i = k)) as [-> | Hik].
    + exists k, (if front then b :: filter (λ x, x ≠ b) lk
                 else filter (λ x, x ≠ b) lk ++ [b]).
      split; [by rewrite list_lookup_alter_eq, list_lookup_fmap, Hlk |].
      simplify_eq.
      destruct front; [apply elem_of_cons; right | apply elem_of_app; left];
        by apply list_elem_of_filter.
    + exists i, (filter (λ x, x ≠ b) l).
      split; [| by apply list_elem_of_filter].
      by rewrite list_lookup_alter_ne, list_lookup_fmap, Hi.
Qed.

Lemma shape_same c c' :
  shape c → heads c' = heads c → length (slots c') = length (slots c) → shape c'.
Proof. unfold shape. by intros ? -> ->. Qed.

(** What a call does to the lists, function by function. *)
Definition same_lists (c c' : bcache) : Prop :=
  heads c' = heads c ∧ length (slots c') = length (slots c).

Lemma same_lists_refl c : same_lists c c.
Proof. done. Qed.

Lemma same_lists_upd b f c : same_lists c (upd b f c).
Proof. split; [done | apply length_slots_upd]. Qed.

Lemma same_lists_trans c1 c2 c3 :
  same_lists c1 c2 → same_lists c2 c3 → same_lists c1 c3.
Proof. intros [H1 H2] [H3 H4]. split; congruence. Qed.

Lemma acquiresleep_lists pid b c c' :
  after (acquiresleep pid b c) = Some c' → same_lists c c'.
Proof.
  unfold acquiresleep. destruct (lock (slot c b)); simpl; intros ?; simplify_eq.
  - apply same_lists_refl.
  - apply same_lists_upd.
Qed.

Lemma bread_fill_lists b c : same_lists c (bread_fill b c).
Proof.
  unfold bread_fill. case_decide; [| apply same_lists_refl].
  unfold virtio_disk_rw.
  eapply same_lists_trans; apply same_lists_upd.
Qed.

Lemma bucket_lookup c i b : b ∈ bucket c i → heads c !! i = Some (bucket c i).
Proof.
  unfold bucket. rewrite list_lookup_total_alt.
  destruct (heads c !! i); simpl; [done |]. by intros ?%elem_of_nil.
Qed.

Lemma lookup_bucket c i l : heads c !! i = Some l → bucket c i = l.
Proof. unfold bucket. rewrite list_lookup_total_alt. by intros ->. Qed.

(** The loops over a list meet its slots, forwards and backwards. *)
Lemma walk_path f x l i fuel :
  (length l < fuel)%nat → path f x l (Head i) →
  walk f fuel x (Head i) = Slot <$> l.
Proof.
  revert x fuel. induction l as [| b l IH]; intros x [| fuel] Hf Hp;
    simpl in *; try lia.
  - by rewrite decide_True.
  - destruct Hp as [Hx Hp]. rewrite Hx, decide_False by done.
    f_equal. apply IH; [lia | done].
Qed.

Lemma walk_ring lk i l :
  ring lk i l →
  walk (next lk) (S (length l)) (Head i) (Head i) = Slot <$> l ∧
  walk (prev lk) (S (length l)) (Head i) (Head i) = Slot <$> rev l.
Proof.
  intros [Hn Hp]. split; (apply walk_path; [| done]).
  - lia.
  - rewrite length_rev. lia.
Qed.

(** [binit] builds the lists of [Bio.binit], whatever the memory held. *)
Lemma represents_binit lk d : represents (binit_ptr lk) (heads (binit d)).
Proof.
  intros i l Hi.
  do 13 (destruct i as [| i];
         [vm_compute in Hi; injection Hi as <-; vm_compute; tauto |]).
  vm_compute in Hi. discriminate.
Qed.

Lemma shape_binit d : shape (binit d).
Proof.
  pose proof (inv_binit d) as Hinv.
  split; [apply (inv_heads _ Hinv) |]. split; [split |].
  - intros i l Hi.
    do 13 (destruct i as [| i];
           [vm_compute in Hi; injection Hi as <-;
            apply (bool_decide_unpack _); vm_compute; exact I |]).
    vm_compute in Hi. discriminate.
  - intros i j l l' a Hi Hj Ha Ha'.
    apply lookup_bucket in Hi, Hj. subst.
    by apply (inv_one _ Hinv i j a).
  - intros b Hb. rewrite (inv_slots _ Hinv) in Hb.
    destruct (inv_all _ Hinv b Hb) as [i Hi].
    exists i, (bucket (binit d) i). split; [by eapply bucket_lookup | done].
Qed.

(** [bget] leaves the lists alone, or moves the victim of [select_victim]
    before the head of the bucket of the block. *)
Lemma bget_moves now pid d n c c' :
  after (bget now pid d n c) = Some c' →
  length (slots c') = length (slots c) ∧
  match lookup_cached d n (hash n) c, lookup_free (hash n) c,
        least_b (scan_victim (hash n) c) with
  | None, None, Some b =>
      (∃ i, b ∈ bucket c i) ∧ heads c' = heads (relink false (hash n) b c)
  | _, _, _ => heads c' = heads c
  end.
Proof.
  unfold bget.
  destruct (lookup_cached d n (hash n) c) as [b |].
  { destruct (incr (refcnt (slot c b))) as [r |]; [| done].
    intros [Hh Hs]%acquiresleep_lists. rewrite length_slots_upd in Hs. auto. }
  destruct (lookup_free (hash n) c) as [b |].
  { intros [Hh Hs]%acquiresleep_lists. rewrite length_slots_upd in Hs. auto. }
  pose proof (scan_victim_spec (hash n) c) as Hspec.
  destruct (select_victim_cases (hash n) c) as [[-> _] | (b & -> & Hs)]; [done |].
  rewrite Hs in Hspec |- *. destruct Hspec as ((i & _ & _ & Hin) & _).
  intros [Hh Hl]%acquiresleep_lists. split.
  - rewrite Hl. unfold migrate. simpl. by rewrite !length_alter.
  - split; [by eauto |]. by rewrite Hh.
Qed.

(** [brelse] leaves the lists alone, or moves the slot behind the head of
    the bucket of its block. *)
Lemma brelse_moves pid b c c' :
  after (brelse pid b c) = Some c' →
  length (slots c') = length (slots c) ∧ (b < length (slots c))%nat ∧
  heads c' = if decide (refcnt (slot c b) = 1)
             then heads (relink true (hash (blockno (slot c b))) b c)
             else heads c.
Proof.
  unfold brelse.
  destruct (holdingsleep pid b c) eqn:Hh; [| done].
  pose proof (holdingsleep_valid _ _ _ Hh) as Hlen.
  rewrite (slot_releasesleep _ _ _ Hh). simpl.
  case_decide; [done |].
  destruct (decr (refcnt (slot c b))) as [r |] eqn:Hd; [| done].
  apply decr_Some in Hd as [-> _].
  assert (Hl : ∀ f g, length (slots (upd b f (upd b g c))) = length (slots c)).
  { intros f g. by rewrite !length_slots_upd. }
  case_decide as Hz; simpl; intros ?; simplify_eq.
  - rewrite decide_True by lia.
    split; [apply (Hl _ (set_lock None)) |]. by split.
  - rewrite decide_False by lia.
    split; [apply (Hl _ (set_lock None)) |]. by split.
Qed.

(** One call: the links [exec_ptr] leaves hold the lists the call
    leaves. *)
Lemma exec_ptr_represents o c c' lk :
  shape c → represents lk (heads c) → exec o c = Some c' →
  shape c' ∧ represents (exec_ptr o c lk) (heads c').
Proof.
  intros Hshape Hrep Hex.
  assert (Hmove : ∀ front k b,
    (k < BUCKETSIZE)%nat →
    (b < length (slots c))%nat ∨ (∃ i, b ∈ bucket c i) →
    length (slots c') = length (slots c) →
    heads c' = heads (relink front k b c) →
    shape c' ∧ represents (relink_ptr front k b lk) (heads c')).
  { intros front k b Hk Hb Hs Hh.
    split; [by eapply shape_relink |].
    destruct Hshape as (Hlen & Ht & Hall).
    assert (∃ i l, heads c !! i = Some l ∧ b ∈ l) as (i & l & Hi & Hin).
    { destruct Hb as [Hb | [i Hi]]; [by apply Hall |].
      exists i, (bucket c i). split; [by eapply bucket_lookup | done]. }
    rewrite Hh. eapply represents_relink; eauto. by rewrite Hlen. }
  assert (Hsame : length (slots c') = length (slots c) → heads c' = heads c →
                  shape c' ∧ represents lk (heads c')).
  { intros Hs Hh. split; [by eapply shape_same |]. by rewrite Hh. }
  assert (Hbget : ∀ now pid d n c1,
    after (bget now pid d n c) = Some c1 →
    length (slots c') = length (slots c1) → heads c' = heads c1 →
    shape c' ∧
    represents
      match lookup_cached d n (hash n) c, lookup_free (hash n) c,
            least_b (scan_victim (hash n) c) with
      | None, None, Some b => relink_ptr false (hash n) b lk
      | _, _, _ => lk
      end (heads c')).
  { intros now pid d n c1 Hg Hs Hh.
    apply bget_moves in Hg as [Hs1 Hm]. rewrite Hs1 in Hs.
    destruct (lookup_cached d n (hash n) c); [apply Hsame; congruence |].
    destruct (lookup_free (hash n) c); [apply Hsame; congruence |].
    destruct (least_b (scan_victim (hash n) c)) as [b |]; [| apply Hsame; congruence].
    destruct Hm as [Hb Hm]. apply (Hmove false); [apply hash_lt | by right | done | congruence]. }
  destruct o; simpl in Hex; unfold exec_ptr.
  - by eapply Hbget.
  - unfold bread in Hex.
    destruct (bget now pid d n c) as [b c1 | b c1 | | |] eqn:Hg; simpl in Hex;
      simplify_eq.
    + destruct (bread_fill_lists b c1) as [Hh1 Hs1].
      eapply (Hbget now pid d n c1); [by rewrite Hg | done | done].
    + eapply (Hbget now pid d n c'); [by rewrite Hg | done | done].
  - unfold bwrite in Hex. destruct (holdingsleep pid b c); [| done].
    simpl in Hex. simplify_eq. by apply Hsame.
  - apply brelse_moves in Hex as (Hs & Hb & Hh).
    case_decide; [| by apply Hsame].
    apply (Hmove true); [apply hash_lt | by left | done | done].
  - unfold bpin in Hex. destruct (incr (refcnt (slot c b))); [| done].
    simpl in Hex. simplify_eq. apply Hsame; [apply length_slots_upd | done].
  - unfold bunpin in Hex. destruct (decr (refcnt (slot c b))); [| done].
    simpl in Hex. simplify_eq. apply Hsame; [apply length_slots_upd | done].
  - destruct (acquiresleep pid b c) as [b' c1 | | | |] eqn:Ha; simplify_eq.
    destruct (acquiresleep_lists pid b c c') as [Hh Hs]; [by rewrite Ha |].
    by apply Hsame.
  - simplify_eq. destruct (bread_fill_lists b c) as [Hh Hs]. by apply Hsame.
Qed.

Lemma run_ptr_represents os : ∀ c c' lk,
  shape c → represents lk (heads c) → run os c = Some c' →
  shape c' ∧ represents (run_ptr os c lk) (heads c').
Proof.
  induction os as [| o os IH]; intros c c' lk Hshape Hrep Hrun; simpl in *.
  - by simplify_eq.
  - destruct (exec o c) as [c1 |] eqn:Hex; [| done].
    destruct (exec_ptr_represents o c c1 lk Hshape Hrep Hex) as [Hs1 Hr1].
    by apply IH.
Qed.

(** X15: [binit] builds thirteen circular lists.  Whatever the links held
    before, after the two loops of [binit] the list of bucket [i] holds the
    five buffers of that bucket, [buf[4]] first and [buf[0]] last, the lists
    are in order, and every buffer is as the zeroed memory has it: free,
    unlocked, not valid. *)
Theorem binit_builds_lists (lk : links) (d : gmap (Z * Z) (list Z)) :
  represents (binit_ptr lk) (heads (binit d)) ∧
  shape (binit d) ∧
  heads (binit d) = (λ i, rev (seq (i * BUFFERSIZE) BUFFERSIZE)) <$> seq 0 BUCKETSIZE ∧
  (∀ b, slot (binit d) b = buf0).
Proof.
  split; [apply represents_binit |]. split; [apply shape_binit |].
  split; [reflexivity |].
  intros b. unfold slot.
  change (slots (binit d)) with (replicate NBUF buf0).
  destruct (decide (b < NBUF)%nat).
  - by apply lookup_total_replicate_2.
  - rewrite list_lookup_total_alt, lookup_ge_None_2; [done |].
    rewrite length_replicate. lia.
Qed.

(** X16: the assignments that move a buffer.  On lists in order, the two
    assignments that take [b] out of its list followed by the four that
    put it behind the head of bucket [k] (the end of [brelse], [front]) or
    before it (the end of [bget]) leave links that hold these lists: [b]
    gone from where it was and first, or last, in the list of [k], every
    other slot in its list and in its place; and the lists are in order
    again. *)
Theorem relink_moves_slot (lk : links) (hs : list (list nat)) (front : bool)
    (k b i : nat) (l : list nat) :
  nodup_lists hs → represents lk hs →
  hs !! i = Some l → b ∈ l → (k < length hs)%nat →
  let hs' := alter (λ l, if front then b :: l else l ++ [b]) k
               (filter (λ x, x ≠ b) <$> hs) in
  represents (relink_ptr front k b lk) hs' ∧ nodup_lists hs'.
Proof.
  intros Ht Hrep Hi Hb Hk hs'.
  pose proof (represents_unlink lk hs i l b (negb front) Ht Hrep Hi Hb) as Hu.
  pose proof (nodup_lists_unlink hs b Ht) as Htu.
  assert (Hk' : (k < length (filter (λ x, x ≠ b) <$> hs))%nat)
    by by rewrite length_fmap.
  pose proof (represents_link _ _ front k b Htu Hu (absent_unlink hs b) Hk') as Hl.
  split; [by destruct front |].
  apply nodup_lists_link; [done | apply absent_unlink].
Qed.

Lemma relink_moves_slot_witness :
  represents (relink_ptr true 1 2 (binit_ptr no_links))
    (alter (λ l, 2%nat :: l) 1%nat (filter (λ x, x ≠ 2%nat) <$> heads (binit ∅))) ∧
  nodup_lists
    (alter (λ l, 2%nat :: l) 1%nat (filter (λ x, x ≠ 2%nat) <$> heads (binit ∅))).
Proof.
  apply (relink_moves_slot (binit_ptr no_links) (heads (binit ∅)) true 1 2 0 [4; 3; 2; 1; 0]%nat).
  - apply (shape_binit ∅).
  - apply represents_binit.
  - reflexivity.
  - apply list_elem_of_In. vm_compute. tauto.
  - vm_compute. lia.
Defined.

(** X17: the lists of the model are the lists in memory.  After any calls
    from boot, careful or not, the links that [binit] and the assignments
    of the calls leave hold the lists of the cache, the lists are in order
    (thirteen lists, no slot twice, every slot in one of them), and the
    loops of bio.c over bucket [i], forwards from [head.next] and
    backwards from [head.prev], stop at the head after meeting the slots
    of [bucket c i], in this order and in the reverse order. *)
Theorem calls_keep_lists (os : list call) (d : gmap (Z * Z) (list Z)) (lk0 : links)
    (c : bcache) (i : nat) :
  run os (binit d) = Some c →
  (i < BUCKETSIZE)%nat →
  let lk := run_ptr os (binit d) (binit_ptr lk0) in
  shape c ∧ represents lk (heads c) ∧
  walk (next lk) (S (length (bucket c i))) (Head i) (Head i) = Slot <$> bucket c i ∧
  walk (prev lk) (S (length (bucket c i))) (Head i) (Head i) = Slot <$> rev (bucket c i).
Proof.
  intros Hrun Hi lk.
  destruct (run_ptr_represents os (binit d) c (binit_ptr lk0))
    as [Hshape Hrep]; [apply shape_binit | apply represents_binit | done |].
  split; [done |]. split; [done |].
  apply walk_ring. apply Hrep.
  destruct Hshape as (Hlen & _).
  destruct (lookup_lt_is_Some_2 (heads c) i) as [l Hl]; [lia |].
  by rewrite (lookup_bucket _ _ _ Hl).
Qed.

Lemma calls_keep_lists_witness :
  shape sample_cache ∧
  represents (run_ptr sample_calls (binit ∅) (binit_ptr no_links)) (heads sample_cache) ∧
  walk (next (run_ptr sample_calls (binit ∅) (binit_ptr no_links)))
       (S (length (bucket sample_cache 0))) (Head 0) (Head 0)
    = Slot <$> bucket sample_cache 0 ∧
  walk (prev (run_ptr sample_calls (binit ∅) (binit_ptr no_links)))
       (S (length (bucket sample_cache 0))) (Head 0) (Head 0)
    = Slot <$> rev (bucket sample_cache 0).
Proof.
  apply (calls_keep_lists sample_calls ∅ no_links sample_cache 0).
  - vm_compute. reflexivity.
  - vm_compute. lia.
Defined.

End LinksProps.

(** * What the calls of the buffer cache guarantee *)

Module BioCalls.
Import Bio BioProps BioTry LinksProps.

(** ** Slots a call does not touch *)

Lemma slot_upd_cases b0 f c b :
  slot (upd b0 f c) b = slot c b ∨ (b = b0 ∧ slot (upd b0 f c) b = f (slot c b)).
Proof.
  destruct (decide (b = b0)) as [-> | Hne]; [| left; by rewrite slot_upd_ne].
  destruct (decide (b0 < length (slots c))%nat) as [Hlt | Hge].
  - right. by rewrite slot_upd_eq.
  - left. rewrite upd_out_of_range; [done | lia].
Qed.

Lemma acquiresleep_after pid b0 c c' b :
  after (acquiresleep pid b0 c) = Some c' →
  content (slot c' b) = content (slot c b) ∧ refcnt (slot c' b) = refcnt (slot c b) ∧
  ticks (slot c' b) = ticks (slot c b) ∧
  heads c' = heads c ∧ disk c' = disk c.
Proof.
  unfold acquiresleep. destruct (lock (slot c b0)); simpl; intros ?; simplify_eq; [done |].
  by destruct (slot_upd_cases b0 (set_lock (Some pid)) c b) as [-> | [-> ->]].
Qed.

(** The slot a miss recycles, in the bucket or from another one, has no
    reference. *)
Lemma bget_miss_slot now pid d n c :
  lookup_cached d n (hash n) c = None →
  bget now pid d n c = Panic "bget: no buffers" ∨
  ∃ b c1, refcnt (slot c b) = 0 ∧ (∃ i, b ∈ bucket c i) ∧
          bget now pid d n c = acquiresleep pid b c1 ∧
          (∀ b', b' ≠ b → slot c1 b' = slot c b') ∧
          (b < length (slots c) → slot c1 b =
             set_ticks (match lookup_free (hash n) c with
                        | Some _ => ticks (slot c b)
                        | None => now
                        end)
                       (recycle d n (slot c b)))%nat ∧
          length (slots c1) = length (slots c) ∧ disk c1 = disk c ∧
          heads c1 = match lookup_free (hash n) c with
                     | Some _ => heads c
                     | None => heads (link_tail (hash n) b (unlink b c))
                     end.
Proof.
  intros Hc. unfold bget. rewrite Hc.
  destruct (lookup_free (hash n) c) as [b |] eqn:Hf.
  - right. apply lookup_free_Some in Hf as [Hin Hr].
    exists b, (upd b (recycle d n) c). split; [done |]. split; [by eauto |].
    split; [done |]. split; [intros b' Hne; by rewrite slot_upd_ne |].
    split; [| split; [apply length_slots_upd | done]].
    intros Hb. rewrite slot_upd_eq by done. by destruct (slot c b).
  - destruct (select_victim_cases (hash n) c) as [[-> _] | (b & -> & Hs)]; [by left |].
    right. pose proof (scan_victim_spec (hash n) c) as Hspec. rewrite Hs in Hspec.
    destruct Hspec as ((i & _ & _ & Hin) & Hr & _).
    exists b, (migrate now d n (hash n) b (upd b (set_refcnt (-1)) c)).
    split; [done |]. split; [by eauto |]. split; [done |].
    split; [| split; [| split; [| done]]].
    + intros b' Hne. unfold migrate.
      by rewrite slot_link_tail, slot_upd_ne, slot_unlink, slot_upd_ne.
    + intros Hb. unfold migrate. rewrite slot_link_tail, slot_upd_eq.
      * rewrite slot_unlink, slot_upd_eq by done. by destruct (slot c b).
      * simpl. by rewrite length_alter.
    + unfold migrate. simpl. by rewrite !length_alter.
Qed.

(** X1: [bget] never recycles a buffer that has a reference: whatever path it
    takes, a slot whose refcnt is not 0 holds the same block with the same
    validity flag and data afterwards, and its refcnt is still not 0. *)
Theorem bget_keeps_referenced (now : Z) (pid : nat) (d n : Z) (c c' : bcache) (b : nat) :
  refcnt (slot c b) ≠ 0 →
  after (bget now pid d n c) = Some c' →
  content (slot c' b) = content (slot c b) ∧ refcnt (slot c' b) ≠ 0.
Proof.
  intros Hr Hg.
  destruct (lookup_cached d n (hash n) c) as [b0 |] eqn:Hc.
  - unfold bget in Hg. rewrite Hc in Hg.
    destruct (incr (refcnt (slot c b0))) as [r |] eqn:Hi; [| done].
    apply incr_Some in Hi as [-> _].
    apply (acquiresleep_after _ _ _ _ b) in Hg as (-> & -> & _).
    apply lookup_cached_Some in Hc as [_ (_ & _ & Hne)].
    destruct (slot_upd_cases b0 (λ x, set_ticks now (set_refcnt (refcnt (slot c b0) + 1) x)) c b)
      as [-> | [-> ->]]; [done |].
    split; [done |]. simpl. lia.
  - destruct (bget_miss_slot now pid d n c Hc) as [Hp | (b0 & c1 & Hr0 & _ & Hb & Ho & _)].
    + by rewrite Hp in Hg.
    + rewrite Hb in Hg.
      apply (acquiresleep_after _ _ _ _ b) in Hg as (-> & -> & _).
      assert (b ≠ b0) by (intros ->; done).
      by rewrite Ho.
Qed.

Lemma bget_keeps_referenced_witness :
  content (slot (default one_read (after (bget 5 2 1 13 one_read))) 0)
    = content (slot one_read 0) ∧
  refcnt (slot (default one_read (after (bget 5 2 1 13 one_read))) 0) ≠ 0.
Proof.
  apply (bget_keeps_referenced 5 2 1 13 one_read).
  - vm_compute. discriminate.
  - vm_compute. reflexivity.
Defined.

(** ** A block that is cached *)

Lemma find_first {A : Type} (P : A → bool) (l : list A) (x : A) :
  x ∈ l → P x = true → ∃ y, find P l = Some y.
Proof.
  induction l as [| z l IH]; [by intros ?%elem_of_nil |].
  intros [-> | Hin]%elem_of_cons Hx; simpl.
  - rewrite Hx. eauto.
  - destruct (P z); eauto.
Qed.

Lemma find_nothing {A : Type} (P : A → bool) (l : list A) :
  (∀ x, x ∈ l → P x = false) → find P l = None.
Proof.
  induction l as [| z l IH]; [done |]. intros Hall. simpl.
  rewrite (Hall z) by (apply elem_of_cons; by left).
  apply IH. intros x Hx. apply Hall. apply elem_of_cons. by right.
Qed.

Lemma lock_in_range c b p : lock (slot c b) = Some p → (b < length (slots c))%nat.
Proof.
  intros Hl. destruct (decide (b < length (slots c))%nat) as [| Hge]; [done |].
  rewrite slot_out_of_range in Hl by lia. done.
Qed.

Lemma identity_in_range c b : identity (slot c b) ≠ (0, 0) → (b < length (slots c))%nat.
Proof.
  intros Hid. destruct (decide (b < length (slots c))%nat) as [| Hge]; [done |].
  rewrite slot_out_of_range in Hid by lia. done.
Qed.

(** X2: a hit takes no second slot.  When the first loop of [bget] finds the
    block in slot [b], [bget] returns [b], or sleeps on the lock of [b] when
    another process holds it, with one more reference and the tick of the
    call; no other slot, no list and no disk block changes. *)
Theorem bget_finds_cached (c : bcache) (now : Z) (pid : nat) (d n : Z) (b : nat) :
  lookup_cached d n (hash n) c = Some b →
  (b < length (slots c))%nat →
  refcnt (slot c b) ≠ INT_MAX →
  ∃ c', bget now pid d n c =
          match lock (slot c b) with None => Ok b c' | Some _ => Asleep b c' end ∧
        slot c' b =
          set_lock (match lock (slot c b) with None => Some pid | Some q => Some q end)
            (set_ticks now (set_refcnt (refcnt (slot c b) + 1) (slot c b))) ∧
        (∀ b', b' ≠ b → slot c' b' = slot c b') ∧
        heads c' = heads c ∧ disk c' = disk c.
Proof.
  intros Hc Hb Hmax.
  rewrite (bget_hit _ _ _ _ _ _ Hc Hmax).
  destruct (acquiresleep_slot pid b
              (upd b (λ x, set_ticks now (set_refcnt (refcnt x + 1) x)) c))
    as (c' & Ha & Hs & Ho & Hh & Hd & _).
  { by rewrite length_slots_upd. }
  rewrite slot_upd_eq in Ha, Hs by done. simpl in Ha, Hs.
  exists c'. split; [exact Ha |]. split; [exact Hs |].
  split; [| done].
  intros b' Hb'. rewrite (Ho b' Hb'). by rewrite slot_upd_ne.
Qed.

Lemma bget_finds_cached_witness :
  ∃ c', bget 7 3 1 13 sample_cache =
          match lock (slot sample_cache 1) with
          | None => Ok 1%nat c'
          | Some _ => Asleep 1%nat c'
          end ∧
        slot c' 1 =
          set_lock (match lock (slot sample_cache 1) with
                    | None => Some 3%nat
                    | Some q => Some q
                    end)
            (set_ticks 7 (set_refcnt (refcnt (slot sample_cache 1) + 1)
                            (slot sample_cache 1))) ∧
        (∀ b', b' ≠ 1%nat → slot c' b' = slot sample_cache b') ∧
        heads c' = heads sample_cache ∧ disk c' = disk sample_cache.
Proof.
  apply (bget_finds_cached sample_cache 7 3 1 13 1).
  - vm_compute. reflexivity.
  - vm_compute. lia.
  - vm_compute. discriminate.
Defined.

(** ** What [bget] and [bread] return *)

(** The slot [bget] returns: the lock was free and is the caller's, the
    slot holds the block, and it has a reference. *)
Lemma bget_returns now pid d n c b c' :
  inv c → bget now pid d n c = Ok b c' →
  (b < length (slots c))%nat ∧ length (slots c') = length (slots c) ∧
  lock (slot c b) = None ∧
  (∀ b', b' ≠ b → slot c' b' = slot c b') ∧ disk c' = disk c ∧
  ((lookup_cached d n (hash n) c = Some b ∧
    slot c' b = set_lock (Some pid)
                  (set_ticks now (set_refcnt (refcnt (slot c b) + 1) (slot c b)))) ∨
   (lookup_cached d n (hash n) c = None ∧ refcnt (slot c b) = 0 ∧
    ∃ t, slot c' b = set_lock (Some pid) (set_ticks t (recycle d n (slot c b))))).
Proof.
  intros Hinv Hg.
  destruct (lookup_cached d n (hash n) c) as [b0 |] eqn:Hc.
  - assert (Hmax : refcnt (slot c b0) ≠ INT_MAX).
    { intros Hm. unfold bget, incr in Hg. rewrite Hc, Hm in Hg.
      by rewrite decide_True in Hg. }
    pose proof (lookup_cached_Some _ _ _ _ _ Hc) as [Hin _].
    assert (Hb0 : (b0 < length (slots c))%nat).
    { rewrite (inv_slots c Hinv). by eapply (inv_in c Hinv). }
    rewrite (bget_hit _ _ _ _ _ _ Hc Hmax) in Hg.
    pose proof (acquiresleep_returns _ _ _ _ _ (or_introl Hg)) as ->.
    destruct (acquiresleep_slot pid b0
                (upd b0 (λ x, set_ticks now (set_refcnt (refcnt x + 1) x)) c))
      as (c1 & Ha & Hs & Ho & _ & Hd & Hlen).
    { by rewrite length_slots_upd. }
    rewrite length_slots_upd in Hlen.
    rewrite slot_upd_eq in Ha, Hs by done. simpl in Ha, Hs.
    rewrite Hg in Ha. destruct (lock (slot c b0)) eqn:Hl; [done |]. simplify_eq.
    split; [done |]. split; [done |]. split; [done |].
    split; [intros b' Hb'; rewrite (Ho b' Hb'); by rewrite slot_upd_ne |].
    split; [done |]. left. by rewrite Hs.
  - destruct (bget_miss_slot now pid d n c Hc)
      as [Hp | (b0 & c1 & Hr0 & [i Hi] & Hb & Ho & Hs1 & Hlen & Hd1 & _)].
    { by rewrite Hp in Hg. }
    rewrite Hb in Hg.
    pose proof (acquiresleep_returns _ _ _ _ _ (or_introl Hg)) as ->.
    assert (Hb0 : (b0 < length (slots c))%nat).
    { rewrite (inv_slots c Hinv). by eapply (inv_in c Hinv). }
    destruct (acquiresleep_slot pid b0 c1) as (c2 & Ha & Hs & Ho2 & _ & Hd & Hlen2).
    { by rewrite Hlen. }
    rewrite (Hs1 Hb0) in Ha, Hs. simpl in Ha, Hs.
    rewrite Hg in Ha. destruct (lock (slot c b0)) eqn:Hl; [done |]. simplify_eq.
    split; [done |]. split; [congruence |]. split; [done |].
    split; [intros b' Hb'; rewrite (Ho2 b' Hb'); by apply Ho |].
    split; [congruence |]. right. split; [done |]. split; [done |].
    eexists. by rewrite Hs.
Qed.

Lemma bread_fill_slot b c :
  (b < length (slots c))%nat →
  (∀ b', b' ≠ b → slot (bread_fill b c) b' = slot c b') ∧
  disk (bread_fill b c) = disk c ∧
  slot (bread_fill b c) b =
    if decide (valid (slot c b) = 0)
    then set_valid 1
           (set_data (default (replicate BSIZE 0)
                        (disk c !! (dev (slot c b), blockno (slot c b)))) (slot c b))
    else slot c b.
Proof.
  intros Hb. unfold bread_fill, virtio_disk_rw. case_decide; [| done].
  split; [intros b' Hb'; by rewrite !slot_upd_ne |]. split; [done |].
  rewrite !slot_upd_eq; [done | done |]. by rewrite length_slots_upd.
Qed.

(** What [bread] returns. *)
Lemma bread_returns now pid d n c b c' :
  inv c → bread now pid d n c = Ok b c' →
  lock (slot c b) = None ∧ lock (slot c' b) = Some pid ∧
  identity (slot c' b) = (d, n) ∧ valid (slot c' b) ≠ 0 ∧
  1 ≤ refcnt (slot c' b) ∧
  (∀ b', b' ≠ b → slot c' b' = slot c b') ∧
  disk c' = disk c.
Proof.
  intros Hinv Hr. unfold bread in Hr.
  destruct (bget now pid d n c) as [b1 c1 | | | |] eqn:Hg; simplify_eq.
  destruct (bget_returns _ _ _ _ _ _ _ Hinv Hg) as (Hb & Hlen & Hl & Ho & Hd & Hs).
  assert (Hb1 : (b < length (slots c1))%nat) by by rewrite Hlen.
  destruct (bread_fill_slot b c1 Hb1) as (Ho' & Hd' & Hs').
  split; [done |].
  assert (Hfacts : lock (slot c1 b) = Some pid ∧ identity (slot c1 b) = (d, n) ∧
                   1 ≤ refcnt (slot c1 b)).
  { destruct Hs as [[Hc ->] | (Hc & Hr & t & ->)]; simpl.
    - apply lookup_cached_Some in Hc as [_ (Hdv & Hbn & _)].
      pose proof (inv_ref c Hinv b).
      split; [done |]. split; [| lia]. unfold identity. simpl. by rewrite Hdv, Hbn.
    - done. }
  destruct Hfacts as (Hlk & Hid & Hrc).
  rewrite Hs'. repeat split.
  - by case_decide.
  - case_decide; [| done]. unfold identity in *. by simpl.
  - by case_decide.
  - by case_decide.
  - intros b' Hb'. rewrite (Ho' b' Hb'). by apply Ho.
  - congruence.
Qed.

(** X3: [bread] returns a locked buffer with the indicated block.  In a cache
    that careful calls lead to, when [bread] returns slot [b], the lock of
    [b] was free and is now the caller's, [b] holds block (d, n) with a
    nonzero validity flag and at least one reference, no other slot has
    changed, and the disk has not been written. *)
Theorem bread_returns_locked (d0 : gmap (Z * Z) (list Z)) (c : bcache)
    (now : Z) (pid : nat) (d n : Z) (b : nat) (c' : bcache) :
  rtc step (binit d0) c →
  bread now pid d n c = Ok b c' →
  lock (slot c b) = None ∧ lock (slot c' b) = Some pid ∧
  identity (slot c' b) = (d, n) ∧ valid (slot c' b) ≠ 0 ∧
  1 ≤ refcnt (slot c' b) ∧
  (∀ b', b' ≠ b → slot c' b' = slot c b') ∧
  disk c' = disk c.
Proof.
  intros Hreach Hr. eapply bread_returns; [| done]. by eapply inv_reachable.
Qed.

Lemma bread_returns_locked_witness :
  lock (slot (binit ∅) 0) = None ∧
  lock (slot (default (binit ∅) (after (bread 0 1 1 0 (binit ∅)))) 0) = Some 1%nat ∧
  identity (slot (default (binit ∅) (after (bread 0 1 1 0 (binit ∅)))) 0) = (1, 0) ∧
  valid (slot (default (binit ∅) (after (bread 0 1 1 0 (binit ∅)))) 0) ≠ 0 ∧
  1 ≤ refcnt (slot (default (binit ∅) (after (bread 0 1 1 0 (binit ∅)))) 0) ∧
  (∀ b', b' ≠ 0%nat →
     slot (default (binit ∅) (after (bread 0 1 1 0 (binit ∅)))) b' = slot (binit ∅) b') ∧
  disk (default (binit ∅) (after (bread 0 1 1 0 (binit ∅)))) = disk (binit ∅).
Proof.
  apply (bread_returns_locked ∅ (binit ∅) 0 1 1 0 0).
  - constructor.
  - vm_compute. reflexivity.
Defined.

(** ** The lookup after a call *)

(** The first element of a list that passes a test. *)
Lemma find_at {A : Type} (P : A → bool) (l1 : list A) (b : A) (l2 : list A) :
  (∀ x, x ∈ l1 → P x = false) → P b = true → find P (l1 ++ b :: l2) = Some b.
Proof.
  induction l1 as [| z l1 IH]; intros Hall Hb; simpl.
  - by rewrite Hb.
  - rewrite (Hall z) by (apply elem_of_cons; by left).
    apply IH; [| done]. intros x Hx. apply Hall. apply elem_of_cons. by right.
Qed.

Lemma find_split {A : Type} (P : A → bool) (l : list A) (b : A) :
  find P l = Some b →
  ∃ l1 l2, l = l1 ++ b :: l2 ∧ (∀ x, x ∈ l1 → P x = false) ∧ P b = true.
Proof.
  induction l as [| z l IH]; [done |]. simpl.
  destruct (P z) eqn:Hz.
  - intros [= ->]. exists [], l. split; [done |]. split; [| done].
    by intros x ?%elem_of_nil.
  - intros (l1 & l2 & -> & Hall & Hb)%IH. exists (z :: l1), l2.
    split; [done |]. split; [| done].
    intros x [-> | Hx]%elem_of_cons; [done | by apply Hall].
Qed.

Lemma find_only {A : Type} `{EqDecision A} (P : A → bool) (l : list A) (b : A) :
  b ∈ l → (∀ x, x ∈ l → x ≠ b → P x = false) → P b = true → find P l = Some b.
Proof.
  induction l as [| z l IH]; [by intros ?%elem_of_nil |].
  intros Hin Hall Hb. simpl.
  destruct (decide (z = b)) as [-> | Hz]; [by rewrite Hb |].
  rewrite (Hall z) by (done || apply elem_of_cons; by left).
  apply IH; [| | done].
  - apply elem_of_cons in Hin as [-> | Hin]; done.
  - intros x Hx. apply Hall. apply elem_of_cons. by right.
Qed.

(** In a cache whose lists hold slots of the cache, with thirteen lists and
    no count below -1, the slot [bget] ends on is the slot the first loop
    of [bget] finds for the block from then on. *)
Lemma bget_then_lookup now pid d n c b c' :
  length (heads c) = BUCKETSIZE →
  (∀ i x, x ∈ bucket c i → (x < length (slots c))%nat) →
  (∀ x, -1 ≤ refcnt (slot c x)) →
  bget now pid d n c = Ok b c' ∨ bget now pid d n c = Asleep b c' →
  (b < length (slots c'))%nat ∧
  lookup_cached d n (hash n) c' = Some b ∧
  1 ≤ refcnt (slot c' b) ∧
  (bget now pid d n c = Ok b c' → lock (slot c' b) = Some pid).
Proof.
  intros Hheads Hin Href Hg.
  assert (Hafter : after (bget now pid d n c) = Some c').
  { by destruct Hg as [-> | ->]. }
  (* the test of the first loop, on the two caches *)
  set (P := λ x, bool_decide (cached d n (slot c x))).
  set (P' := λ x, bool_decide (cached d n (slot c' x))).
  destruct (lookup_cached d n (hash n) c) as [b0 |] eqn:Hc.
  - assert (Hmax : refcnt (slot c b0) ≠ INT_MAX).
    { intros Hm. unfold bget, incr in Hg. rewrite Hc, Hm in Hg.
      rewrite decide_True in Hg by done. by destruct Hg. }
    pose proof (lookup_cached_Some _ _ _ _ _ Hc) as [Hb0 (Hd & Hn & Hr)].
    pose proof (Hin _ _ Hb0) as Hlt.
    rewrite (bget_hit _ _ _ _ _ _ Hc Hmax) in Hg, Hafter.
    pose proof (acquiresleep_returns _ _ _ _ _ Hg) as ->.
    destruct (acquiresleep_slot pid b0
                (upd b0 (λ x, set_ticks now (set_refcnt (refcnt x + 1) x)) c))
      as (c1 & Ha & Hs & Ho & Hh & _ & Hlen).
    { by rewrite length_slots_upd. }
    rewrite length_slots_upd in Hlen.
    rewrite slot_upd_eq in Ha, Hs by done. simpl in Ha, Hs.
    assert (c1 = c') as ->.
    { rewrite Ha in Hafter. destruct (lock (slot c b0)); simpl in Hafter; congruence. }
    pose proof (Href b0) as Hr0.
    split; [by rewrite Hlen |]. split; [| split].
    + unfold lookup_cached in Hc |- *.
      change (bucket c' (hash n)) with (heads c' !!! hash n). rewrite Hh.
      change (heads _ !!! hash n) with (bucket c (hash n)).
      apply (find_split P) in Hc as (l1 & l2 & -> & Hall & _).
      apply (find_at P').
      * intros x Hx. rewrite <- (Hall x Hx). unfold P', P.
        destruct (decide (x = b0)) as [-> | Hx0].
        -- pose proof (Hall b0 Hx) as Hf. unfold P in Hf.
           apply bool_decide_eq_false in Hf. by destruct Hf.
        -- by rewrite Ho, slot_upd_ne.
      * unfold P'. apply bool_decide_eq_true. rewrite Hs. unfold cached. simpl.
        repeat split; [done | done | lia].
    + rewrite Hs. simpl. lia.
    + intros Hok. rewrite (bget_hit _ _ _ _ _ _ Hc Hmax), Ha in Hok.
      rewrite Hs. by destruct (lock (slot c b0)).
  - destruct (bget_miss_slot now pid d n c Hc)
      as [Hp | (b0 & c1 & Hr0 & [i Hi] & Hb & Ho & Hs1 & Hlen & _ & Hh)].
    { rewrite Hp in Hg. by destruct Hg. }
    rewrite Hb in Hg, Hafter.
    pose proof (acquiresleep_returns _ _ _ _ _ Hg) as ->.
    pose proof (Hin _ _ Hi) as Hlt. specialize (Hs1 Hlt).
    destruct (acquiresleep_slot pid b0 c1) as (c2 & Ha & Hs & Ho2 & Hh2 & _ & Hlen2).
    { by rewrite Hlen. }
    assert (c2 = c') as ->.
    { rewrite Ha in Hafter. destruct (lock (slot c1 b0)); simpl in Hafter; congruence. }
    assert (Hcb : cached d n (slot c' b0)).
    { rewrite Hs, Hs1. unfold cached. by simpl. }
    assert (Hother : ∀ x, x ∈ bucket c (hash n) → x ≠ b0 → P' x = false).
    { intros x Hx Hne. unfold P'. rewrite Ho2, Ho by done.
      apply bool_decide_eq_false. by eapply lookup_cached_None. }
    split; [congruence |]. split; [| split].
    + unfold lookup_cached.
      change (bucket c' (hash n)) with (heads c' !!! hash n). rewrite Hh2, Hh.
      destruct (lookup_free (hash n) c) as [b1 |] eqn:Hf.
      * (* recycled inside the bucket *)
        assert (b1 = b0) as ->.
        { rewrite (bget_local _ _ _ _ _ _ Hc Hf) in Hb.
          unfold acquiresleep in Hb.
          destruct (lock (slot (upd b1 (recycle d n) c) b1)), (lock (slot c1 b0));
            by simplify_eq. }
        apply lookup_free_Some in Hf as [Hb0 _].
        change (heads c !!! hash n) with (bucket c (hash n)).
        apply find_only; [done | exact Hother | by apply bool_decide_eq_true].
      * (* taken from another bucket *)
        change (heads (link_tail (hash n) b0 (unlink b0 c)) !!! hash n)
          with (bucket (link_tail (hash n) b0 (unlink b0 c)) (hash n)).
        rewrite bucket_link_tail, decide_True.
        2: { split; [done |]. simpl. rewrite length_fmap, Hheads. apply hash_lt. }
        rewrite bucket_unlink.
        apply (find_at P' _ b0 []); [| by apply bool_decide_eq_true].
        intros x [Hx0 Hx]%list_elem_of_filter. by apply Hother.
    + rewrite Hs, Hs1. simpl. lia.
    + intros Hok. rewrite Hb, Ha in Hok.
      rewrite Hs. by destruct (lock (slot c1 b0)).
Qed.

(** [bread_fill] writes the validity flag and the data only. *)
Lemma bread_fill_keeps b c x :
  identity (slot (bread_fill b c) x) = identity (slot c x) ∧
  refcnt (slot (bread_fill b c) x) = refcnt (slot c x) ∧
  lock (slot (bread_fill b c) x) = lock (slot c x).
Proof.
  unfold bread_fill, virtio_disk_rw. case_decide; [| done].
  destruct (slot_upd_cases b (set_valid 1)
              (upd b (set_data (default (replicate BSIZE 0)
                                  (disk c !! (dev (slot c b), blockno (slot c b))))) c) x)
    as [-> | [-> ->]];
    match goal with |- context [slot (upd ?b0 ?f c) ?y] =>
      destruct (slot_upd_cases b0 f c y) as [-> | [_ ->]] end; done.
Qed.

Lemma lookup_cached_bread_fill d n i b c :
  lookup_cached d n i (bread_fill b c) = lookup_cached d n i c.
Proof.
  unfold lookup_cached.
  destruct (bread_fill_lists b c) as [Hh _].
  change (bucket (bread_fill b c) i) with (heads (bread_fill b c) !!! i). rewrite Hh.
  change (heads c !!! i) with (bucket c i).
  induction (bucket c i) as [| x l IH]; [done |]. simpl. rewrite IH.
  destruct (bread_fill_keeps b c x) as (Hid & Hr & _).
  unfold identity in Hid. injection Hid as Hd Hn.
  assert (Heq : bool_decide (cached d n (slot (bread_fill b c) x))
                = bool_decide (cached d n (slot c x))).
  { apply bool_decide_ext. unfold cached. by rewrite Hd, Hn, Hr. }
  by rewrite Heq.
Qed.

(** X4: one process at a time uses a buffer.  In a cache whose thirteen
    lists hold slots of the cache and whose counts are -1 at least, once a
    [bread] that no other process has run into has returned slot [b] for a
    block, the lookup of [bget] for this block finds [b], and a [bget] for
    it does not return: it takes a reference to [b] and sleeps on the lock
    of [b], which the reader still holds. *)
Theorem held_buffer_excludes_others (c : bcache)
    (now : Z) (pid : nat) (d n : Z) (b : nat) (c' : bcache) (now' : Z) (q : nat) :
  length (heads c) = BUCKETSIZE →
  (∀ i x, x ∈ bucket c i → (x < length (slots c))%nat) →
  (∀ x, -1 ≤ refcnt (slot c x)) →
  bread now pid d n c = Ok b c' →
  refcnt (slot c' b) ≠ INT_MAX →
  lookup_cached d n (hash n) c' = Some b ∧
  ∃ c'', bget now' q d n c' = Asleep b c'' ∧
         lock (slot c'' b) = Some pid ∧
         refcnt (slot c'' b) = refcnt (slot c' b) + 1.
Proof.
  intros Hheads Hin Href Hr Hmax. unfold bread in Hr.
  destruct (bget now pid d n c) as [b1 c1 | | | |] eqn:Hg; simplify_eq.
  destruct (bget_then_lookup now pid d n c b c1 Hheads Hin Href (or_introl Hg))
    as (Hb & Hc & _ & Hl).
  specialize (Hl Hg).
  destruct (bread_fill_keeps b c1 b) as (_ & _ & Hl').
  rewrite <- Hl' in Hl.
  rewrite <- (lookup_cached_bread_fill d n (hash n) b c1) in Hc.
  split; [done |].
  assert (Hb' : (b < length (slots (bread_fill b c1)))%nat).
  { destruct (bread_fill_lists b c1) as [_ ->]. done. }
  rewrite (bget_hit _ _ _ _ _ _ Hc Hmax).
  destruct (acquiresleep_slot q b
              (upd b (λ x, set_ticks now' (set_refcnt (refcnt x + 1) x)) (bread_fill b c1)))
    as (c'' & Ha & Hs & _).
  { by rewrite length_slots_upd. }
  rewrite slot_upd_eq in Ha, Hs by done. simpl in Ha, Hs. rewrite Hl in Ha, Hs.
  exists c''. split; [exact Ha |]. by rewrite Hs.
Qed.

Lemma held_buffer_excludes_others_witness :
  lookup_cached 1 0 (hash 0) one_read = Some 0%nat ∧
  ∃ c'', bget 5 2 1 0 one_read = Asleep 0%nat c'' ∧
         lock (slot c'' 0) = Some 1%nat ∧
         refcnt (slot c'' 0) = refcnt (slot one_read 0) + 1.
Proof.
  apply (held_buffer_excludes_others (binit one_block_disk) 0 1 1 0 0 one_read 5 2).
  - vm_compute. reflexivity.
  - intros i x Hx. rewrite (inv_slots _ (inv_binit one_block_disk)).
    exact (inv_in _ (inv_binit one_block_disk) i x Hx).
  - intros x. pose proof (inv_ref _ (inv_binit one_block_disk) x). lia.
  - vm_compute. reflexivity.
  - vm_compute. discriminate.
Defined.

(** X5: a read and a release balance.  [bread] of a block that the lookup
    finds in slot [b], not locked and with a count of 0 or more, followed
    by [brelse], returns [b] and leaves its count and its lock as they
    were; no other slot changes, and when the slot had other references
    the lists are as they were too. *)
Theorem bread_brelse_balanced (c : bcache)
    (now : Z) (pid : nat) (d n : Z) (b : nat) :
  lookup_cached d n (hash n) c = Some b →
  (b < length (slots c))%nat →
  lock (slot c b) = None →
  0 ≤ refcnt (slot c b) →
  refcnt (slot c b) ≠ INT_MAX →
  ∃ c', read_release now pid d n c = Ok b c' ∧
        refcnt (slot c' b) = refcnt (slot c b) ∧
        lock (slot c' b) = None ∧
        identity (slot c' b) = (d, n) ∧
        valid (slot c' b) ≠ 0 ∧
        (∀ b', b' ≠ b → slot c' b' = slot c b') ∧
        (0 < refcnt (slot c b) → heads c' = heads c).
Proof.
  intros Hc Hb Hl Hr0 Hmax.
  assert (Hid : identity (slot c b) = (d, n)).
  { apply lookup_cached_Some in Hc as [_ (Hd & Hn & _)]. unfold identity. by rewrite Hd, Hn. }
  set (f1 := λ x, set_ticks now (set_refcnt (refcnt x + 1) x)).
  set (c1 := upd b (set_lock (Some pid)) (upd b f1 c)).
  assert (Hg : bget now pid d n c = Ok b c1).
  { rewrite (bget_hit _ _ _ _ _ _ Hc Hmax). fold f1.
    unfold acquiresleep. rewrite slot_upd_eq by done. simpl. by rewrite Hl. }
  assert (Hlen1 : length (slots c1) = length (slots c)).
  { unfold c1. by rewrite !length_slots_upd. }
  assert (Hs1 : slot c1 b = set_lock (Some pid) (f1 (slot c b))).
  { unfold c1. rewrite slot_upd_eq by (by rewrite length_slots_upd).
    by rewrite slot_upd_eq. }
  assert (Ho1 : ∀ b', b' ≠ b → slot c1 b' = slot c b').
  { intros b' Hb'. unfold c1. by rewrite !slot_upd_ne. }
  set (c2 := bread_fill b c1).
  destruct (bread_fill_slot b c1) as (Ho2 & _ & Hs2); [by rewrite Hlen1 |].
  fold c2 in Ho2, Hs2.
  assert (Hlen2 : length (slots c2) = length (slots c)).
  { destruct (bread_fill_lists b c1) as [_ Hlen]. fold c2 in Hlen. congruence. }
  assert (Hf2 : lock (slot c2 b) = Some pid ∧ refcnt (slot c2 b) = refcnt (slot c b) + 1 ∧
                identity (slot c2 b) = (d, n) ∧ valid (slot c2 b) ≠ 0).
  { rewrite Hs2.
    destruct (decide (valid (slot c1 b) = 0)) as [Hv | Hv];
      rewrite Hs1 in Hv |- *; unfold f1, identity in *; simpl in *; by repeat split. }
  destruct Hf2 as (Hl2 & Hr2 & Hid2 & Hv2).
  assert (Hh : holdingsleep pid b c2 = true).
  { unfold holdingsleep. by rewrite Hl2, bool_decide_eq_true_2. }
  unfold read_release, bread. rewrite Hg. simpl. fold c2.
  unfold brelse. rewrite Hh, (slot_releasesleep _ _ _ Hh). simpl.
  rewrite Hr2. rewrite decide_False by lia.
  unfold decr, INT_MIN. rewrite decide_False by lia.
  replace (refcnt (slot c b) + 1 - 1) with (refcnt (slot c b)) by lia.
  set (c3 := upd b (set_refcnt (refcnt (slot c b))) (releasesleep b c2)).
  assert (Hs3 : slot c3 b = set_refcnt (refcnt (slot c b)) (set_lock None (slot c2 b))).
  { unfold c3. rewrite slot_upd_eq.
    - by rewrite (slot_releasesleep _ _ _ Hh).
    - unfold releasesleep. by rewrite length_slots_upd, Hlen2. }
  assert (Ho3 : ∀ b', b' ≠ b → slot c3 b' = slot c b').
  { intros b' Hb'. unfold c3, releasesleep. rewrite !slot_upd_ne by done.
    rewrite Ho2 by done. by apply Ho1. }
  assert (Hfin : refcnt (slot c3 b) = refcnt (slot c b) ∧ lock (slot c3 b) = None ∧
                 identity (slot c3 b) = (d, n) ∧ valid (slot c3 b) ≠ 0).
  { rewrite Hs3. by destruct (slot c2 b). }
  destruct (decide (refcnt (slot c b) = 0)) as [Hz | Hz]; simpl.
  - eexists. split; [reflexivity |].
    rewrite !slot_link_head, !slot_unlink.
    split; [apply Hfin |]. split; [apply Hfin |]. split; [apply Hfin |].
    split; [apply Hfin |]. split; [| lia].
    intros b' Hb'. rewrite slot_link_head, slot_unlink. by apply Ho3.
  - exists c3. split; [done |].
    split; [apply Hfin |]. split; [apply Hfin |]. split; [apply Hfin |].
    split; [apply Hfin |]. split; [done |]. intros _.
    unfold c3, releasesleep, c2. simpl.
    destruct (bread_fill_lists b c1) as [-> _]. done.
Qed.

Lemma bread_brelse_balanced_witness :
  ∃ c', read_release 7 3 1 13 sample_cache = Ok 1%nat c' ∧
        refcnt (slot c' 1) = refcnt (slot sample_cache 1) ∧
        lock (slot c' 1) = None ∧
        identity (slot c' 1) = (1, 13) ∧
        valid (slot c' 1) ≠ 0 ∧
        (∀ b', b' ≠ 1%nat → slot c' b' = slot sample_cache b') ∧
        (0 < refcnt (slot sample_cache 1) → heads c' = heads sample_cache).
Proof.
  apply (bread_brelse_balanced sample_cache 7 3 1 13 1).
  - vm_compute. reflexivity.
  - vm_compute. lia.
  - vm_compute. reflexivity.
  - vm_compute. discriminate.
  - vm_compute. discriminate.
Defined.

(** ** The disk *)

(** A [bread] that misses fills the buffer from the disk. *)
Lemma bread_miss_data now pid d n c b c' :
  inv c → lookup_cached d n (hash n) c = None →
  bread now pid d n c = Ok b c' →
  data (slot c' b) = default (replicate BSIZE 0) (disk c !! (d, n)).
Proof.
  intros Hinv Hc Hr. unfold bread in Hr.
  destruct (bget now pid d n c) as [b1 c1 | | | |] eqn:Hg; simplify_eq.
  destruct (bget_returns _ _ _ _ _ _ _ Hinv Hg) as (Hb & Hlen & _ & _ & Hd & Hs).
  destruct Hs as [[Hc' _] | (_ & _ & t & Hs)]; [congruence |].
  assert (Hb1 : (b < length (slots c1))%nat) by by rewrite Hlen.
  destruct (bread_fill_slot b c1 Hb1) as (_ & _ & ->).
  rewrite Hs. simpl. by rewrite Hd.
Qed.

Lemma bget_disk now pid d n c c' :
  after (bget now pid d n c) = Some c' → disk c' = disk c.
Proof.
  intros Hg.
  destruct (lookup_cached d n (hash n) c) as [b0 |] eqn:Hc.
  - unfold bget in Hg. rewrite Hc in Hg.
    destruct (incr (refcnt (slot c b0))); [| done].
    by apply (acquiresleep_after _ _ _ _ 0%nat) in Hg as (_ & _ & _ & _ & ->).
  - destruct (bget_miss_slot now pid d n c Hc)
      as [Hp | (b0 & c1 & _ & _ & Hb & _ & _ & _ & Hd & _)]; [by rewrite Hp in Hg |].
    rewrite Hb in Hg.
    by apply (acquiresleep_after _ _ _ _ 0%nat) in Hg as (_ & _ & _ & _ & ->).
Qed.

Lemma bread_fill_disk b c : disk (bread_fill b c) = disk c.
Proof. unfold bread_fill, virtio_disk_rw. by case_decide. Qed.

(** X13: what [bwrite] puts on the disk is what a later [bread] gets from it.
    After [bwrite] of a buffer holding block (d, n), in any cache that
    careful calls lead to, that has this disk and does not hold the block,
    [bread] of (d, n) returns a buffer with the data written. *)
Theorem bwrite_bread_round_trip (pid : nat) (b : nat) (c c1 : bcache) (d n : Z)
    (d0 : gmap (Z * Z) (list Z)) (c2 : bcache) (now : Z) (q : nat) (b' : nat)
    (c3 : bcache) :
  bwrite pid b c = Ok tt c1 →
  identity (slot c b) = (d, n) →
  rtc step (binit d0) c2 →
  disk c2 = disk c1 →
  lookup_cached d n (hash n) c2 = None →
  bread now q d n c2 = Ok b' c3 →
  data (slot c3 b') = data (slot c b).
Proof.
  intros Hw Hid Hreach Hdisk Hc Hr.
  pose proof (inv_reachable d0 c2 Hreach) as Hinv.
  rewrite (bread_miss_data _ _ _ _ _ _ _ Hinv Hc Hr), Hdisk.
  unfold bwrite in Hw. destruct (holdingsleep pid b c); [| done].
  simplify_eq. unfold virtio_disk_rw. simpl.
  unfold identity in Hid. simplify_eq.
  by rewrite lookup_insert_eq.
Qed.

Lemma bwrite_bread_round_trip_witness :
  data (slot (default (binit one_block_disk)
                (after (bread 3 2 1 0 (binit one_block_disk)))) 0)
    = data (slot one_read 0).
Proof.
  apply (bwrite_bread_round_trip 1 0 one_read
           (default one_read (after (bwrite 1 0 one_read))) 1 0
           one_block_disk (binit one_block_disk) 3 2 0).
  - vm_compute. reflexivity.
  - vm_compute. reflexivity.
  - constructor.
  - vm_compute. reflexivity.
  - vm_compute. reflexivity.
  - vm_compute. reflexivity.
Defined.

(** X14: no call but [bwrite] writes the disk, and [bwrite] writes the one
    block its buffer holds, with the data of the buffer.  [bwrite] returns
    only to the holder of the buffer's lock; the disk afterwards is the
    disk before with the data of the buffer at the block the buffer holds,
    and the cache is untouched.  Every other call leaves the disk as it
    was. *)
Theorem only_bwrite_writes_disk (o : call) (c c' : bcache) :
  exec o c = Some c' →
  match o with
  | Bwrite pid b =>
      holdingsleep pid b c = true ∧
      disk c' = <[identity (slot c b) := data (slot c b)]> (disk c) ∧
      disk c' !! identity (slot c b) = Some (data (slot c b)) ∧
      slots c' = slots c ∧ heads c' = heads c
  | _ => disk c' = disk c
  end.
Proof.
  destruct o; simpl.
  - intros Hg. by eapply bget_disk.
  - unfold bread. intros Hr.
    destruct (bget now pid d n c) as [b1 c1 | b1 c1 | | |] eqn:Hg;
      simpl in Hr; simplify_eq.
    + rewrite bread_fill_disk. eapply bget_disk. by rewrite Hg.
    + eapply bget_disk. by rewrite Hg.
  - unfold bwrite. destruct (holdingsleep pid b c) eqn:Hh; [| done].
    simpl. intros ?; simplify_eq. unfold virtio_disk_rw. simpl.
    split; [done |]. split; [done |]. split; [| done].
    unfold identity. by rewrite lookup_insert_eq.
  - unfold brelse. destruct (holdingsleep pid b c); [| done].
    case_decide; [done |]. destruct (decr _); [| done].
    case_decide; simpl; intros ?; by simplify_eq.
  - unfold bpin. destruct (incr _); [| done]. simpl. intros ?; by simplify_eq.
  - unfold bunpin. destruct (decr _); [| done]. simpl. intros ?; by simplify_eq.
  - destruct (acquiresleep pid b c) eqn:Ha; intros ?; simplify_eq.
    eapply (acquiresleep_after pid b c c' 0%nat). by rewrite Ha.
  - intros ?; simplify_eq. apply bread_fill_disk.
Qed.

Lemma only_bwrite_writes_disk_witness :
  holdingsleep 1 0 edited = true ∧
  disk (default edited (exec (Bwrite 1 0) edited))
    = <[identity (slot edited 0) := data (slot edited 0)]> (disk edited) ∧
  disk (default edited (exec (Bwrite 1 0) edited)) !! identity (slot edited 0)
    = Some (data (slot edited 0)) ∧
  slots (default edited (exec (Bwrite 1 0) edited)) = slots edited ∧
  heads (default edited (exec (Bwrite 1 0) edited)) = heads edited.
Proof.
  apply (only_bwrite_writes_disk (Bwrite 1 0) edited). vm_compute. reflexivity.
Defined.

(** ** Pins *)

Lemma upd_upd_id b f g c :
  (∀ x, slots c !! b = Some x → g (f x) = x) → upd b g (upd b f c) = c.
Proof.
  intros Hgf. destruct c as [sl hd dk]. unfold upd; simpl in *. f_equal.
  rewrite list_alter_alter_eq.
  rewrite (list_alter_ext (g ∘ f) id sl sl b); [by apply list_alter_id | | done].
  intros x Hx. by apply Hgf.
Qed.

(** X12: [bunpin] undoes [bpin].  When [bpin] returns (the count, an int, is
    not at INT_MAX), [bunpin] of the same buffer returns too and leaves the
    cache exactly as it was before the pin. *)
Theorem bpin_bunpin_round_trip (b : nat) (c c1 : bcache) :
  INT_MIN ≤ refcnt (slot c b) →
  bpin b c = Ok tt c1 → bunpin b c1 = Ok tt c.
Proof.
  intros Hmin. unfold bpin.
  destruct (incr (refcnt (slot c b))) as [r |] eqn:Hi; [| done].
  apply incr_Some in Hi as [-> Hmax]. intros ?; simplify_eq.
  unfold bunpin.
  destruct (decide (b < length (slots c))%nat) as [Hlt | Hge].
  - rewrite slot_upd_eq by done. simpl. unfold decr, INT_MIN in *.
    case_decide; [lia |]. f_equal.
    apply upd_upd_id. intros x Hx.
    unfold slot. rewrite (list_lookup_total_correct _ _ _ Hx).
    destruct x; unfold set_refcnt; simpl. f_equal. lia.
  - rewrite !upd_out_of_range by lia.
    rewrite slot_out_of_range by lia. simpl.
    by rewrite upd_out_of_range by lia.
Qed.

Lemma bpin_bunpin_round_trip_witness :
  bunpin 1 (default (binit ∅) (after (bpin 1 sample_cache))) = Ok tt sample_cache.
Proof.
  apply (bpin_bunpin_round_trip 1 sample_cache).
  - vm_compute. discriminate.
  - vm_compute. reflexivity.
Defined.

(** ** Waiting for a buffer *)

(** X6: a buffer is handed from its holder to a waiter without being
    recycled in between.  When process [q] asks for a cached block whose
    buffer [b] is locked by [p], [bget] takes a reference and sleeps; the
    [brelse] of [p] then leaves the buffer where it is in its list, because
    of that reference, and the wake-up of [q] returns [b], locked by [q],
    with the block, the data and the count it had. *)
Theorem lock_hand_over (now : Z) (p q : nat) (d n : Z) (c : bcache) (b : nat) :
  lookup_cached d n (hash n) c = Some b →
  lock (slot c b) = Some p →
  1 ≤ refcnt (slot c b) → refcnt (slot c b) < INT_MAX →
  ∃ c1 c2 c3,
    bget now q d n c = Asleep b c1 ∧
    brelse p b c1 = Ok tt c2 ∧
    acquiresleep q b c2 = Ok b c3 ∧
    slot c3 b = set_lock (Some q) (set_ticks now (slot c b)) ∧
    (∀ b', b' ≠ b → slot c3 b' = slot c b') ∧
    heads c3 = heads c ∧ disk c3 = disk c.
Proof.
  intros Hc Hl Hr Hmax.
  pose proof (lock_in_range c b p Hl) as Hb.
  assert (Hm : refcnt (slot c b) ≠ INT_MAX) by lia.
  set (f1 := λ x, set_ticks now (set_refcnt (refcnt x + 1) x)).
  set (c1 := upd b f1 c).
  assert (Hs1 : slot c1 b = f1 (slot c b)) by (by apply slot_upd_eq).
  assert (Hb1 : (b < length (slots c1))%nat) by (by unfold c1; rewrite length_slots_upd).
  assert (Hg : bget now q d n c = Asleep b c1).
  { rewrite (bget_hit _ _ _ _ _ _ Hc Hm). fold f1. fold c1.
    unfold acquiresleep. rewrite Hs1. simpl. by rewrite Hl. }
  assert (Hh : holdingsleep p b c1 = true).
  { unfold holdingsleep. rewrite Hs1. simpl. by rewrite Hl, bool_decide_eq_true_2. }
  set (c2 := upd b (set_refcnt (refcnt (slot c b))) (releasesleep b c1)).
  assert (Hrel : brelse p b c1 = Ok tt c2).
  { unfold brelse. rewrite Hh, (slot_releasesleep _ _ _ Hh), Hs1. simpl.
    rewrite decide_False by lia. unfold decr, INT_MIN.
    rewrite decide_False by lia.
    replace (refcnt (slot c b) + 1 - 1) with (refcnt (slot c b)) by lia.
    by rewrite decide_False by lia. }
  assert (Hs2 : slot c2 b = set_refcnt (refcnt (slot c b)) (set_lock None (f1 (slot c b)))).
  { unfold c2. rewrite slot_upd_eq.
    - by rewrite (slot_releasesleep _ _ _ Hh), Hs1.
    - unfold releasesleep. by rewrite length_slots_upd. }
  exists c1, c2, (upd b (set_lock (Some q)) c2).
  split; [done |]. split; [done |].
  split; [unfold acquiresleep; by rewrite Hs2 |].
  split.
  { rewrite slot_upd_eq.
    - rewrite Hs2. unfold f1. by destruct (slot c b).
    - unfold c2, releasesleep. by rewrite !length_slots_upd. }
  split; [| done].
  intros b' Hb'. unfold c2, c1, releasesleep. by rewrite !slot_upd_ne.
Qed.

Lemma lock_hand_over_witness :
  ∃ c1 c2 c3,
    bget 5 2 1 0 one_read = Asleep 0%nat c1 ∧
    brelse 1 0 c1 = Ok tt c2 ∧
    acquiresleep 2 0 c2 = Ok 0%nat c3 ∧
    slot c3 0 = set_lock (Some 2%nat) (set_ticks 5 (slot one_read 0)) ∧
    (∀ b', b' ≠ 0%nat → slot c3 b' = slot one_read b') ∧
    heads c3 = heads one_read ∧ disk c3 = disk one_read.
Proof.
  apply (lock_hand_over 5 1 2 1 0 one_read 0).
  - vm_compute. reflexivity.
  - vm_compute. reflexivity.
  - vm_compute. discriminate.
  - vm_compute. reflexivity.
Defined.

(** ** Recycling *)

Lemma content_identity x y : content x = content y → identity x = identity y.
Proof. unfold content, identity. intros Hc. injection Hc as -> -> _ _. done. Qed.

(** X7: a recycled buffer forgets its old block.  When [bget] gives slot
    [b] to a block other than the one [b] held, and no other slot held
    that block, the old block is in the cache no more: the lookup that
    [bget] makes for it finds nothing, so the next [bread] of it reads the
    disk. *)
Theorem recycled_block_forgotten (c : bcache)
    (now : Z) (pid : nat) (d n : Z) (b : nat) (c' : bcache) :
  bget now pid d n c = Ok b c' ∨ bget now pid d n c = Asleep b c' →
  identity (slot c b) ≠ (d, n) →
  identity (slot c b) ≠ (0, 0) →
  (∀ x, x ≠ b → identity (slot c x) ≠ identity (slot c b)) →
  lookup_cached (dev (slot c b)) (blockno (slot c b)) (hash (blockno (slot c b))) c'
    = None.
Proof.
  intros Hg Hne Hnz Honly.
  assert (Hafter : after (bget now pid d n c) = Some c').
  { by destruct Hg as [-> | ->]. }
  destruct (lookup_cached d n (hash n) c) as [b0 |] eqn:Hc.
  { (* a hit returns a slot that holds the block *)
    exfalso. apply Hne.
    assert (b = b0) as ->.
    { unfold bget in Hg. rewrite Hc in Hg.
      destruct (incr (refcnt (slot c b0))); [| by destruct Hg].
      by eapply acquiresleep_returns. }
    apply lookup_cached_Some in Hc as [_ (Hd & Hn & _)].
    unfold identity. by rewrite Hd, Hn. }
  destruct (bget_miss_slot now pid d n c Hc)
    as [Hp | (b0 & c1 & Hr0 & _ & Hb & Ho & Hs1 & _)].
  { rewrite Hp in Hg. by destruct Hg. }
  rewrite Hb in Hg, Hafter.
  pose proof (acquiresleep_returns _ _ _ _ _ Hg) as ->.
  assert (Hb0 : (b0 < length (slots c))%nat) by by apply identity_in_range.
  unfold lookup_cached. apply find_nothing. intros x _.
  apply bool_decide_eq_false. intros (Hd & Hn & _).
  destruct (acquiresleep_after pid b0 c1 c' x Hafter) as (Hcont & _).
  apply content_identity in Hcont.
  assert (Hidx : identity (slot c' x) = identity (slot c b0)).
  { unfold identity. by rewrite Hd, Hn. }
  destruct (decide (x = b0)) as [-> | Hx].
  - rewrite Hcont, (Hs1 Hb0) in Hidx. apply Hne. by rewrite <- Hidx.
  - rewrite Hcont, (Ho x Hx) in Hidx. by apply (Honly x).
Qed.

Lemma recycled_block_forgotten_witness :
  lookup_cached (dev (slot full_bucket 0)) (blockno (slot full_bucket 0))
    (hash (blockno (slot full_bucket 0)))
    (default full_bucket (after (bget 9 1 1 65 full_bucket))) = None.
Proof.
  apply (recycled_block_forgotten full_bucket 9 1 1 65 0).
  - left. vm_compute. reflexivity.
  - vm_compute. discriminate.
  - vm_compute. discriminate.
  - intros x Hx.
    destruct (decide (x < 65)%nat) as [Hlt | Hge].
    + revert Hx. do 65 (destruct x as [| x]; [vm_compute; try discriminate; try done |]).
      lia.
    + rewrite slot_out_of_range; [vm_compute; discriminate |]. vm_compute. lia.
Defined.

(** ** Which free slot of a bucket is recycled *)

Lemma find_app_l {A : Type} (P : A → bool) (l1 l2 : list A) (x : A) :
  find P l1 = Some x → find P (l1 ++ l2) = Some x.
Proof.
  induction l1 as [| z l1 IH]; [done |]. simpl. destruct (P z); auto.
Qed.

(** X8: within a bucket, the buffer released last is recycled last.  After
    the [brelse] of the last reference to [b], a miss in the bucket of its
    block recycles [b] only when no other slot of that bucket is free. *)
Theorem released_last_recycled_last (d0 : gmap (Z * Z) (list Z)) (c : bcache)
    (pid b : nat) (c' : bcache) :
  rtc step (binit d0) c →
  refcnt (slot c b) = 1 →
  brelse pid b c = Ok tt c' →
  let k := hash (blockno (slot c b)) in
  bucket c' k = b :: filter (λ x, x ≠ b) (bucket c k) ∧
  refcnt (slot c' b) = 0 ∧ lock (slot c' b) = None ∧
  (lookup_free k c' = Some b →
   ∀ x, x ∈ bucket c' k → x ≠ b → refcnt (slot c' x) ≠ 0).
Proof.
  intros Hreach Hr Hrel k.
  pose proof (inv_reachable d0 c Hreach) as Hinv.
  assert (Hh : holdingsleep pid b c = true).
  { unfold brelse in Hrel. by destruct (holdingsleep pid b c). }
  pose proof (holdingsleep_valid _ _ _ Hh) as Hb.
  rewrite (brelse_last_reference _ _ _ Hh Hr) in Hrel. simplify_eq.
  fold k.
  assert (Hk : (k < length (heads c))%nat).
  { rewrite (inv_heads c Hinv). apply hash_lt. }
  set (c' := link_head k b (unlink b (upd b (set_refcnt 0) (releasesleep b c)))).
  assert (Hbk : bucket c' k = b :: filter (λ x, x ≠ b) (bucket c k)).
  { unfold c', bucket, link_head, unlink, upd, releasesleep; simpl.
    rewrite list_lookup_total_alter_eq by (by rewrite length_fmap).
    by rewrite (list_lookup_total_fmap _ _ _ Hk). }
  assert (Hsb : slot c' b = set_refcnt 0 (set_lock None (slot c b))).
  { unfold c'. rewrite slot_link_head, slot_unlink, slot_upd_eq.
    - by rewrite (slot_releasesleep _ _ _ Hh).
    - unfold releasesleep. by rewrite length_slots_upd. }
  split; [done |]. split; [by rewrite Hsb |]. split; [by rewrite Hsb |].
  intros Hf x Hx Hxb Hfree.
  unfold lookup_free in Hf. rewrite Hbk in Hf, Hx. simpl in Hf.
  apply elem_of_cons in Hx as [-> | Hx]; [done |].
  destruct (find_first (λ y, bool_decide (refcnt (slot c' y) = 0))
              (rev (filter (λ x, x ≠ b) (bucket c k))) x) as [y Hy].
  { apply list_elem_of_In, in_rev, list_elem_of_In. by rewrite rev_involutive. }
  { by apply bool_decide_eq_true. }
  rewrite (find_app_l _ _ _ _ Hy) in Hf. simplify_eq.
  apply find_some in Hy as [Hin _].
  apply in_rev, list_elem_of_In, list_elem_of_filter in Hin as [Hne _]. done.
Qed.

Lemma released_last_recycled_last_witness :
  bucket (default one_read (after (brelse 1 0 one_read)))
         (hash (blockno (slot one_read 0)))
    = 0%nat :: filter (λ x, x ≠ 0%nat) (bucket one_read (hash (blockno (slot one_read 0)))) ∧
  refcnt (slot (default one_read (after (brelse 1 0 one_read))) 0) = 0 ∧
  lock (slot (default one_read (after (brelse 1 0 one_read))) 0) = None ∧
  (lookup_free (hash (blockno (slot one_read 0)))
     (default one_read (after (brelse 1 0 one_read))) = Some 0%nat →
   ∀ x, x ∈ bucket (default one_read (after (brelse 1 0 one_read)))
                   (hash (blockno (slot one_read 0))) →
        x ≠ 0%nat →
        refcnt (slot (default one_read (after (brelse 1 0 one_read))) x) ≠ 0).
Proof.
  apply (released_last_recycled_last one_block_disk one_read 1 0).
  - apply (run_careful_reachable [Bread 0 1 1 0]). vm_compute. reflexivity.
  - vm_compute. reflexivity.
  - vm_compute. reflexivity.
Defined.

(** ** Where the slots are *)

(** X9: every slot is in the list of one bucket, and a slot that holds a
    block is in the bucket of that block's number.  This holds in every
    cache that careful calls lead to. *)
Theorem slot_in_bucket_of_block (d0 : gmap (Z * Z) (list Z)) (c : bcache) (b : nat) :
  rtc step (binit d0) c →
  (b < NBUF)%nat →
  ∃ i, (i < BUCKETSIZE)%nat ∧ b ∈ bucket c i ∧
       (∀ j, b ∈ bucket c j → j = i) ∧
       (identity (slot c b) ≠ (0, 0) → i = hash (blockno (slot c b))).
Proof.
  intros Hreach Hb.
  pose proof (inv_reachable d0 c Hreach) as Hinv.
  destruct (inv_all c Hinv b Hb) as [i Hi]. exists i.
  split.
  { destruct (decide (i < BUCKETSIZE)%nat) as [| Hge]; [done |].
    unfold bucket in Hi. rewrite list_lookup_total_alt, lookup_ge_None_2 in Hi.
    - by apply elem_of_nil in Hi.
    - rewrite (inv_heads c Hinv). lia. }
  split; [done |]. split.
  - intros j Hj. by apply (inv_one c Hinv j i b).
  - intros Hid. by destruct (inv_home c Hinv i b Hi) as [<- | Hz].
Qed.

Lemma slot_in_bucket_of_block_witness :
  ∃ i, (i < BUCKETSIZE)%nat ∧ 1%nat ∈ bucket sample_cache i ∧
       (∀ j, 1%nat ∈ bucket sample_cache j → j = i) ∧
       (identity (slot sample_cache 1) ≠ (0, 0) →
        i = hash (blockno (slot sample_cache 1))).
Proof.
  apply (slot_in_bucket_of_block ∅ sample_cache 1).
  - apply (run_careful_reachable sample_calls). vm_compute. reflexivity.
  - vm_compute. lia.
Defined.

(** ** When [bget] fails *)

(** X10: [bget] takes a buffer from another bucket only when its own bucket
    has no free slot.  When the bucket of the block has a slot without
    reference (and the count of the slot that holds the block, if there is
    one, is not at INT_MAX), [bget] returns a slot of this bucket or sleeps
    on its lock; it does not panic, and it leaves every list as it was. *)
Theorem bget_stays_in_bucket (now : Z) (pid : nat) (d n : Z) (c : bcache) (x : nat) :
  x ∈ bucket c (hash n) →
  refcnt (slot c x) = 0 →
  (∀ b, lookup_cached d n (hash n) c = Some b → refcnt (slot c b) ≠ INT_MAX) →
  ∃ b c', (bget now pid d n c = Ok b c' ∨ bget now pid d n c = Asleep b c') ∧
          b ∈ bucket c (hash n) ∧ heads c' = heads c.
Proof.
  intros Hx Hr Hmax.
  assert (Hacq : ∀ b c1, ∃ c',
    (acquiresleep pid b c1 = Ok b c' ∨ acquiresleep pid b c1 = Asleep b c') ∧
    heads c' = heads c1).
  { intros b c1. unfold acquiresleep. destruct (lock (slot c1 b)); eauto. }
  destruct (lookup_cached d n (hash n) c) as [b |] eqn:Hc.
  - rewrite (bget_hit _ _ _ _ _ _ Hc (Hmax b eq_refl)).
    destruct (Hacq b (upd b (λ x, set_ticks now (set_refcnt (refcnt x + 1) x)) c))
      as (c' & Ha & Hh).
    apply lookup_cached_Some in Hc as [Hin _]. by exists b, c'.
  - destruct (find_first (λ y, bool_decide (refcnt (slot c y) = 0))
                (rev (bucket c (hash n))) x) as [b Hf].
    { apply list_elem_of_In, in_rev in Hx. by apply list_elem_of_In. }
    { by apply bool_decide_eq_true. }
    rewrite (bget_local _ _ _ _ _ _ Hc Hf).
    destruct (Hacq b (upd b (recycle d n) c)) as (c' & Ha & Hh).
    apply lookup_free_Some in Hf as [Hin _]. by exists b, c'.
Qed.

Lemma bget_stays_in_bucket_witness :
  ∃ b c', (bget 5 2 1 13 one_read = Ok b c' ∨ bget 5 2 1 13 one_read = Asleep b c') ∧
          b ∈ bucket one_read (hash 13) ∧ heads c' = heads one_read.
Proof.
  apply (bget_stays_in_bucket 5 2 1 13 one_read 1).
  - apply list_elem_of_In. vm_compute. tauto.
  - vm_compute. reflexivity.
  - intros b Hb. vm_compute in Hb. discriminate.
Defined.

(** X11: the only way [bget] fails.  [bget] does not loop for ever, and when
    it panics the message is "bget: no buffers", the block is not cached,
    every slot of its bucket has a reference, and every slot without
    reference of the other buckets has a tick of 0xffffffff or more. *)
Theorem bget_panics_when_exhausted (now : Z) (pid : nat) (d n : Z) (c : bcache) :
  bget now pid d n c ≠ Spin ∧
  ∀ msg, bget now pid d n c = Panic msg →
    msg = "bget: no buffers"%string ∧
    lookup_cached d n (hash n) c = None ∧
    (∀ x, x ∈ bucket c (hash n) → refcnt (slot c x) ≠ 0) ∧
    (∀ i x, in_other_bucket c (hash n) i x → refcnt (slot c x) = 0 →
            4294967295 ≤ ticks (slot c x)).
Proof.
  assert (Hacq : ∀ b c1,
    acquiresleep pid b c1 ≠ Spin ∧ ∀ msg, acquiresleep pid b c1 ≠ Panic msg).
  { intros b c1. unfold acquiresleep. by destruct (lock (slot c1 b)). }
  unfold bget.
  destruct (lookup_cached d n (hash n) c) as [b |] eqn:Hc.
  { destruct (incr (refcnt (slot c b))); [| done].
    split; [apply Hacq |]. intros msg Hm. by apply (proj2 (Hacq _ _) msg) in Hm. }
  destruct (lookup_free (hash n) c) as [b |] eqn:Hf.
  { split; [apply Hacq |]. intros msg Hm. by apply (proj2 (Hacq _ _) msg) in Hm. }
  pose proof (scan_victim_spec (hash n) c) as Hspec.
  destruct (select_victim_cases (hash n) c) as [[-> Hn] | (b & -> & Hs)].
  - rewrite Hn in Hspec. split; [done |].
    intros msg ?; simplify_eq. split; [done |]. split; [done |].
    split; [| done]. intros x Hx. by eapply lookup_free_None.
  - split; [apply Hacq |]. intros msg Hm. by apply (proj2 (Hacq _ _) msg) in Hm.
Qed.

(** ** A slot reserved for eviction *)

(** X23: a slot reserved for eviction is left alone.  While the refcnt of
    slot [b] is -1, [select_victim] takes another slot, whatever the cache
    was when it made its scan, and [bget] for any block ends on another
    slot; both leave [b] exactly as it is, lock and tick included. *)
Theorem reserved_slot_left_alone (c : bcache) (b : nat) :
  refcnt (slot c b) = -1 →
  (∀ env buckno c0 b' c',
     env c0 = c → select_victim_env env buckno c0 = Ok (Some b') c' →
     b' ≠ b ∧ slot c' b = slot c b) ∧
  (∀ now pid d n b' c',
     bget now pid d n c = Ok b' c' ∨ bget now pid d n c = Asleep b' c' →
     b' ≠ b ∧ slot c' b = slot c b).
Proof.
  intros Hr. split.
  - intros env buckno c0 b' c' Henv Hs. unfold select_victim_env in Hs.
    destruct (least_b (scan_victim buckno c0)) as [b0 |]; [| done].
    unfold claim_victim in Hs. rewrite Henv in Hs.
    destruct (decide (refcnt (slot c b0) ≠ 0)) as [| Hz]; [done |].
    injection Hs as <- <-.
    assert (Hne : b0 ≠ b) by (intros ->; lia).
    split; [done |]. by rewrite slot_upd_ne.
  - intros now pid d n b' c' Hg.
    pose proof (bget_not_reserved now pid d n c b' c' Hg) as Hnr.
    assert (Hne : b' ≠ b) by (intros ->; done).
    split; [done |].
    assert (Hframe : ∀ c1, acquiresleep pid b' c1 = Ok b' c' ∨
                           acquiresleep pid b' c1 = Asleep b' c' →
                           slot c' b = slot c1 b).
    { intros c1. rewrite acquiresleep_cases.
      destruct (lock (slot c1 b')); intros [H | H]; simplify_eq; [done |].
      by rewrite slot_upd_ne. }
    destruct (lookup_cached d n (hash n) c) as [b0 |] eqn:Hc.
    + unfold bget in Hg. rewrite Hc in Hg.
      destruct (incr (refcnt (slot c b0))) as [r |]; [| by destruct Hg].
      assert (b' = b0) as -> by (by eapply acquiresleep_returns).
      rewrite (Hframe _ Hg). by rewrite slot_upd_ne.
    + destruct (bget_miss_slot now pid d n c Hc)
        as [Hp | (b0 & c1 & _ & _ & Hb & Ho & _)].
      { rewrite Hp in Hg. by destruct Hg. }
      rewrite Hb in Hg.
      assert (b' = b0) as -> by (by eapply acquiresleep_returns).
      rewrite (Hframe _ Hg). by apply Ho.
Qed.

Lemma reserved_slot_left_alone_witness :
  (∀ env buckno c0 b' c',
     env c0 = Overlap.reserving →
     select_victim_env env buckno c0 = Ok (Some b') c' →
     b' ≠ 5%nat ∧ slot c' 5 = slot Overlap.reserving 5) ∧
  (∀ now pid d n b' c',
     bget now pid d n Overlap.reserving = Ok b' c' ∨
     bget now pid d n Overlap.reserving = Asleep b' c' →
     b' ≠ 5%nat ∧ slot c' 5 = slot Overlap.reserving 5).
Proof.
  apply (reserved_slot_left_alone Overlap.reserving 5).
  vm_compute. reflexivity.
Defined.

(** ** A call with no other call in between *)

(** X22: a call that no other call runs into gives no block a second slot.
    When every slot is in the list of one bucket, no count is negative, a
    slot is in the bucket of its block, and no two slots hold the same
    block (other than (0, 0), which the slots never assigned hold), then
    after a call run from its first line to its last, a [brelse] or
    [bunpin] being applied to a count of 1 at least, all this holds
    again. *)
Theorem whole_call_keeps_blocks_unique (o : call) (c c' : bcache) :
  inv c → careful o c → exec o c = Some c' →
  inv c' ∧
  (∀ b, 0 ≤ refcnt (slot c' b)) ∧
  (∀ d n b b', (d, n) ≠ (0, 0) →
     identity (slot c' b) = (d, n) → identity (slot c' b') = (d, n) → b = b').
Proof.
  intros Hinv Hcare Hex.
  assert (Hinv' : inv c') by (apply (inv_step c); [done | by exists o]).
  split; [done |]. split; [apply (inv_ref c' Hinv') |].
  intros d n b b' Hdn Hb Hb'.
  destruct (decide (b = b')) as [| Hne]; [done |].
  exfalso. apply Hdn. rewrite <- Hb.
  apply (inv_uniq c' Hinv' b b' Hne). congruence.
Qed.

Lemma whole_call_keeps_blocks_unique_witness :
  inv (default sample_cache (exec (Bread 9 3 1 26) sample_cache)) ∧
  (∀ b, 0 ≤ refcnt (slot (default sample_cache (exec (Bread 9 3 1 26) sample_cache)) b)) ∧
  (∀ d n b b', (d, n) ≠ (0, 0) →
     identity (slot (default sample_cache (exec (Bread 9 3 1 26) sample_cache)) b) = (d, n) →
     identity (slot (default sample_cache (exec (Bread 9 3 1 26) sample_cache)) b') = (d, n) →
     b = b').
Proof.
  apply (whole_call_keeps_blocks_unique (Bread 9 3 1 26) sample_cache).
  - apply (inv_reachable ∅). apply (run_careful_reachable sample_calls).
    vm_compute. reflexivity.
  - exact I.
  - vm_compute. reflexivity.
Defined.

End BioCalls.

(** * Calls that overlap *)

Module OverlapProps.
Import Bio BioProps Overlap.

(** The third part of [bget] is its pieces with nothing in between. *)
Lemma bget_by_pieces now pid d n c b c1 :
  lookup_cached d n (hash n) c = None →
  lookup_free (hash n) c = None →
  select_victim (hash n) c = Ok (Some b) c1 →
  bget now pid d n c = bget_install now pid d n b (unlink b c1).
Proof. intros Hc Hf Hs. unfold bget. by rewrite Hc, Hf, Hs. Qed.

(** Played one after the other by a process, with no move of another
    process in between, the pieces are the whole call. *)
Lemma pieces_make_bget now pid d n k :
  inside k !! pid = None →
  lookup_cached d n (hash n) (cache k) = None →
  lookup_free (hash n) (cache k) = None →
  play [Miss pid d n; Select pid; Unlink pid; Install now pid] k
    = make (Whole (Bget now pid d n)) k.
Proof.
  intros Hp Hc Hf. destruct k as [c ins]. simpl in *.
  rewrite Hp, Hc, Hf. simpl. rewrite lookup_insert_eq.
  unfold bget. rewrite Hc, Hf.
  destruct (select_victim_cases (hash n) c) as [[-> _] | (b & -> & _)]; [done |].
  simpl. rewrite lookup_insert_eq. simpl. rewrite lookup_insert_eq.
  rewrite !insert_insert_eq, delete_insert_id by done.
  change (migrate now d n (hash n) b (upd b (set_refcnt (-1)) c))
    with (link_tail (hash n) b
            (upd b (λ x, set_ticks now (recycle d n x))
               (unlink b (upd b (set_refcnt (-1)) c)))).
  unfold bget_install. by destruct (after _).
Qed.

(** C1: the cache holds a block twice when two calls of [bget] for it
    overlap.  Process 1 holds the five buffers of bucket 0.  The processes
    2 and 3 then both call [bread(1, 65)]: both pass the two loops of
    [bget] (no slot holds the block, none is free) and release the lock of
    the bucket at line 149; each takes a victim of its own in
    [select_victim] and, at lines 166 to 176, gives it the identity
    (1, 65) without searching the bucket again.  Both calls return: the
    slots 5 and 6 both hold block (1, 65) with refcnt 1, locked by process
    2 and by process 3, and later lookups find slot 5 only.  No call has
    decremented a count.  Made one after the other, the same two calls
    share slot 5: the second finds the block and sleeps on its lock. *)
Theorem overlapping_misses_duplicate_block :
  (∃ k, play (hold_bucket ++ two_misses) (boot ∅) = Some k ∧
        inside k = ∅ ∧
        identity (slot (cache k) 5) = (1, 65) ∧ identity (slot (cache k) 6) = (1, 65) ∧
        refcnt (slot (cache k) 5) = 1 ∧ refcnt (slot (cache k) 6) = 1 ∧
        lock (slot (cache k) 5) = Some 2%nat ∧ lock (slot (cache k) 6) = Some 3%nat ∧
        lookup_cached 1 65 (hash 65) (cache k) = Some 5%nat ∧
        ¬ one_slot_for 1 65 (cache k)) ∧
  (∃ k, play (hold_bucket ++ one_by_one) (boot ∅) = Some k ∧
        identity (slot (cache k) 5) = (1, 65) ∧ refcnt (slot (cache k) 5) = 2 ∧
        lock (slot (cache k) 5) = Some 2%nat ∧
        (∀ b, identity (slot (cache k) b) = (1, 65) → b = 5%nat) ∧
        one_slot_for 1 65 (cache k)).
Proof.
  split.
  - exists (default (boot ∅) (play (hold_bucket ++ two_misses) (boot ∅))).
    split; [vm_compute; reflexivity |].
    split; [vm_compute; reflexivity |].
    split; [vm_compute; reflexivity |].
    split; [vm_compute; reflexivity |].
    split; [vm_compute; reflexivity |].
    split; [vm_compute; reflexivity |].
    split; [vm_compute; reflexivity |].
    split; [vm_compute; reflexivity |].
    split; [vm_compute; reflexivity |].
    intros Hone. specialize (Hone 5%nat 6%nat).
    assert (Habs : 5%nat = 6%nat); [| discriminate Habs].
    apply Hone; vm_compute; [discriminate | discriminate | reflexivity | reflexivity].
  - exists (default (boot ∅) (play (hold_bucket ++ one_by_one) (boot ∅))).
    split; [vm_compute; reflexivity |].
    split; [vm_compute; reflexivity |].
    split; [vm_compute; reflexivity |].
    split; [vm_compute; reflexivity |].
    assert (Honly : ∀ b, identity (slot (cache (default (boot ∅)
                             (play (hold_bucket ++ one_by_one) (boot ∅)))) b) = (1, 65) →
                         b = 5%nat).
    { intros b Hb.
      destruct (decide (b < 65)%nat) as [Hlt | Hge].
      + revert Hb.
        do 65 (destruct b as [| b]; [vm_compute; try discriminate; try reflexivity |]).
        lia.
      + exfalso. rewrite slot_out_of_range in Hb; [discriminate Hb |].
        vm_compute. lia. }
    split; [exact Honly |].
    intros b b' _ _ Hb Hb'. by rewrite (Honly b Hb), (Honly b' Hb').
Qed.

End OverlapProps.

(** * Properties of the block map *)

Module FsProps.
Import Fs FsTry.

Section WithEnv.
Context `{Env}.

Lemma filter_ne_id {A : Type} `{EqDecision A} (x : A) (l : list A) :
  x ∉ l → filter (λ y, y ≠ x) l = l.
Proof.
  induction l as [| y l IH]; [done |].
  intros Hx. apply not_elem_of_cons in Hx as [Hne Hx].
  rewrite filter_cons_True by done. by rewrite IH.
Qed.

Lemma filter_ne_cons {A : Type} `{EqDecision A} (x : A) (l : list A) :
  x ∉ l → filter (λ y, y ≠ x) (x :: l) = l.
Proof.
  intros Hx. rewrite filter_cons_False by (by intros ?). by apply filter_ne_id.
Qed.

#[local] Arguments bread : simpl never.
#[local] Arguments brelse : simpl never.

(** [bread] of a block that is not held, and [brelse] of the block read
    last. *)
Lemma bread_free d a st :
  (d, a) ∉ held st →
  bread d a st =
    Ret (d, a) (mkState (ip st) (blocks st) ((d, a) :: held st)
                        (trace st ++ [EvBread d a])).
Proof. intros Hh. unfold bread. by rewrite decide_False. Qed.

Lemma brelse_top bp i bl hd tr :
  bp ∉ hd →
  brelse bp (mkState i bl (bp :: hd) tr) =
    Ret tt (mkState i bl hd (tr ++ [EvBrelse bp.1 bp.2])).
Proof.
  intros Hh. unfold brelse. simpl.
  rewrite decide_True by (apply elem_of_cons; by left).
  by rewrite filter_ne_cons.
Qed.

Ltac held_ok :=
  first [ done | apply not_elem_of_cons; split; [congruence | done] ].

Lemma bind_unfold {A B : Type} (m : M A) (k : A → M B) st :
  bind m k st =
    match m st with
    | Ret a st' => k a st'
    | Panic msg => Panic msg
    | Deadlock d a => Deadlock d a
    end.
Proof. reflexivity. Qed.

(** [if(addr == 0) ip->addrs[i] = addr = balloc(ip->dev);] *)
Lemma table_on_demand d i a st :
  (if decide (a = 0)
   then addr <- balloc d ;; set_addr i addr ;; ret addr
   else ret a) st =
  Ret (if decide (a = 0) then balloc_pick d (trace st) else a)
      (mkState
         (mkInode (dev (ip st))
                  (if decide (a = 0)
                   then <[i := balloc_pick d (trace st)]> (addrs (ip st))
                   else addrs (ip st))
                  (size (ip st)))
         (blocks st) (held st)
         (trace st ++ if decide (a = 0) then [EvBalloc d (balloc_pick d (trace st))] else [])).
Proof.
  destruct st as [[d' tbl sz] bl hd tr]. case_decide; [reflexivity |].
  unfold ret. simpl. by rewrite app_nil_r.
Qed.

(** [if(addr == 0){ a[j] = addr = balloc(ip->dev); log_write(bp); }] *)
Lemma entry_on_demand d bp j e st :
  (if decide (e = 0)
   then addr <- balloc d ;; set_entry bp j addr ;; log_write bp ;; ret addr
   else ret e) st =
  Ret (if decide (e = 0) then balloc_pick d (trace st) else e)
      (mkState
         (ip st)
         (if decide (e = 0)
          then <[bp := <[j := balloc_pick d (trace st)]> (block_of st bp)]> (blocks st)
          else blocks st)
         (held st)
         (trace st ++ if decide (e = 0)
                      then [EvBalloc d (balloc_pick d (trace st)); EvLogWrite bp.1 bp.2]
                      else [])).
Proof.
  destruct st as [i bl hd tr]. case_decide.
  - unfold bind, balloc, set_entry, log_write, emit, ret. simpl.
    by rewrite <- app_assoc.
  - unfold ret. simpl. by rewrite app_nil_r.
Qed.

(** Bringing the block contents and traces met along the way to one form,
    and settling the tests for zero. *)
Ltac tidy :=
  cbv beta iota;
  cbn [ip blocks held trace dev addrs size fst snd];
  unfold block_of; cbn [blocks];
  rewrite <- ?app_assoc;
  rewrite ?lookup_insert_ne by congruence.

Ltac settle :=
  rewrite ?decide_True by done;
  rewrite ?decide_False by done;
  cbv beta iota.

(** Settling the tests on the range of [bn]. *)
Ltac range :=
  repeat match goal with
  | |- context [decide (?a < ?b)] =>
      first [ rewrite (decide_True (P := a < b)) by (unfold ND_INDIRECT; lia)
            | rewrite (decide_False (P := a < b)) by (unfold ND_INDIRECT; lia) ]
  end.

(** One call of a straight-line piece of code. *)
Ltac mstep :=
  rewrite bind_unfold;
  first
    [ rewrite table_on_demand; tidy; settle
    | rewrite entry_on_demand; tidy; settle
    | rewrite bread_free by (cbn [held]; held_ok); tidy
    | rewrite brelse_top by held_ok; tidy
    | unfold get_dev at 1; tidy
    | unfold get_addr at 1; tidy
    | unfold get_entry at 1; tidy ].

(** ** [bmap] (C2) *)

(** C2: [bmap] on the four ranges of the logical index [bn].  A direct
    entry is returned, and allocated first when it is zero.  In the
    single-indirect range the index block is allocated on demand, read,
    indexed by [bn - NDIRECT]; a zero entry is allocated, written into the
    index block, and the index block is logged; the index block is
    released.  In the double-indirect range the same is done through the
    double-indirect block at [outer = offset / NINDIRECT] and then through
    the child found there at [inner = offset % NINDIRECT]; every index
    block that receives a new entry is logged, and the child is released
    before the double-indirect block.  Beyond that range the kernel
    panics. *)
Theorem bmap_resolves (st : state) (bn : Z) :
  length (addrs (ip st)) = (NDIRECT + 2)%nat →
  let d := dev (ip st) in
  let tbl := addrs (ip st) in
  let sz := size (ip st) in
  (0 ≤ bn < Z.of_nat NDIRECT →
   let i := Z.to_nat bn in
   let r := if decide (tbl !!! i = 0) then balloc_pick d (trace st) else tbl !!! i in
   bmap bn st =
     Ret r (mkState
              (mkInode d (if decide (tbl !!! i = 0) then <[i := r]> tbl else tbl) sz)
              (blocks st) (held st)
              (trace st ++ if decide (tbl !!! i = 0) then [EvBalloc d r] else []))) ∧
  (Z.of_nat NDIRECT ≤ bn < Z.of_nat NDIRECT + Z.of_nat NINDIRECT →
   let j := Z.to_nat (bn - Z.of_nat NDIRECT) in
   let s0 := tbl !!! NDIRECT in
   let s := if decide (s0 = 0) then balloc_pick d (trace st) else s0 in
   let tr1 :=
     trace st ++ (if decide (s0 = 0) then [EvBalloc d s] else []) ++ [EvBread d s] in
   let e0 := block_of st (d, s) !!! j in
   let r := if decide (e0 = 0) then balloc_pick d tr1 else e0 in
   (d, s) ∉ held st →
   bmap bn st =
     Ret r (mkState
              (mkInode d (if decide (s0 = 0) then <[NDIRECT := s]> tbl else tbl) sz)
              (if decide (e0 = 0)
               then <[(d, s) := <[j := r]> (block_of st (d, s))]> (blocks st)
               else blocks st)
              (held st)
              (tr1 ++ (if decide (e0 = 0) then [EvBalloc d r; EvLogWrite d s] else [])
                   ++ [EvBrelse d s]))) ∧
  (Z.of_nat NDIRECT + Z.of_nat NINDIRECT ≤ bn
     < Z.of_nat NDIRECT + Z.of_nat NINDIRECT + Z.of_nat NINDIRECT * Z.of_nat NINDIRECT →
   let offset := bn - Z.of_nat NDIRECT - Z.of_nat NINDIRECT in
   let outer := Z.to_nat (offset / Z.of_nat NINDIRECT) in
   let inner := Z.to_nat (offset mod Z.of_nat NINDIRECT) in
   let d0 := tbl !!! (NDIRECT + 1)%nat in
   let db := if decide (d0 = 0) then balloc_pick d (trace st) else d0 in
   let tr1 :=
     trace st ++ (if decide (d0 = 0) then [EvBalloc d db] else []) ++ [EvBread d db] in
   let s0 := block_of st (d, db) !!! outer in
   let s := if decide (s0 = 0) then balloc_pick d tr1 else s0 in
   let tr2 :=
     tr1 ++ (if decide (s0 = 0) then [EvBalloc d s; EvLogWrite d db] else [])
         ++ [EvBread d s] in
   let e0 := block_of st (d, s) !!! inner in
   let r := if decide (e0 = 0) then balloc_pick d tr2 else e0 in
   let blocks1 :=
     if decide (s0 = 0)
     then <[(d, db) := <[outer := s]> (block_of st (d, db))]> (blocks st)
     else blocks st in
   (d, db) ∉ held st → (d, s) ∉ held st → s ≠ db →
   (outer < NINDIRECT)%nat ∧ (inner < NINDIRECT)%nat ∧
   bmap bn st =
     Ret r (mkState
              (mkInode d (if decide (d0 = 0) then <[(NDIRECT + 1)%nat := db]> tbl else tbl) sz)
              (if decide (e0 = 0)
               then <[(d, s) := <[inner := r]> (block_of st (d, s))]> blocks1
               else blocks1)
              (held st)
              (tr2 ++ (if decide (e0 = 0) then [EvBalloc d r; EvLogWrite d s] else [])
                   ++ [EvBrelse d s; EvBrelse d db]))) ∧
  (Z.of_nat NDIRECT + Z.of_nat NINDIRECT + Z.of_nat NINDIRECT * Z.of_nat NINDIRECT ≤ bn →
   bmap bn st = Panic "bmap: out of range").
Proof.
  intros _.
  destruct st as [[d tbl sz] bl hd tr]. cbv zeta.
  cbn [ip dev addrs size trace held blocks]. unfold block_of. cbn [blocks].
  split; [| split; [| split]].
  - intros [Hlo Hhi]. unfold bmap. mstep. range. mstep.
    rewrite table_on_demand. cbn [ip blocks held trace dev addrs size].
    by case_decide.
  - intros [Hlo Hhi].
    destruct (decide (tbl !!! NDIRECT = 0)) as [Hs0 | Hs0]; cbv beta iota;
      rewrite <- ?app_assoc;
      match goal with |- context [decide (?e = 0)] =>
        destruct (decide (e = 0)) as [He0 | He0] end;
      cbv beta iota; intros Hh;
      unfold bmap; mstep; range; cbv zeta; do 6 mstep; reflexivity.
  - intros [Hlo Hhi].
    assert (Hn : 0 < Z.of_nat NINDIRECT) by nia.
    intros Hhd Hhs Hne. split; [| split].
    + apply Nat2Z.inj_lt. rewrite Z2Nat.id by (apply Z.div_pos; lia).
      apply Z.div_lt_upper_bound; lia.
    + apply Nat2Z.inj_lt. rewrite Z2Nat.id by (apply Z.mod_pos_bound; lia).
      apply Z.mod_pos_bound; lia.
    + revert Hhd Hhs Hne.
      destruct (decide (tbl !!! (NDIRECT + 1)%nat = 0)) as [Hd0 | Hd0];
        cbv beta iota; rewrite <- ?app_assoc;
        match goal with |- context [decide (?e = 0)] =>
          destruct (decide (e = 0)) as [Hs0 | Hs0] end;
        cbv beta iota; rewrite <- ?app_assoc;
        match goal with |- context [decide (?e = 0)] =>
          destruct (decide (e = 0)) as [He0 | He0] end;
        cbv beta iota; intros Hhd Hhs Hne;
        unfold bmap; mstep; range; cbv zeta; do 10 mstep; reflexivity.
  - intros Hhi. unfold bmap. mstep. range. done.
Qed.

(** ** [itrunc] (C3, C6, C10) *)

Lemma lookups_seq (l : list Z) (n : nat) :
  (n ≤ length l)%nat → (λ i, l !!! i) <$> seq 0 n = take n l.
Proof.
  intros Hn. apply list_eq. intros i.
  rewrite list_lookup_fmap.
  destruct (decide (i < n)%nat) as [Hi | Hi].
  - rewrite lookup_seq_lt, lookup_take_lt by done. simpl.
    rewrite list_lookup_total_alt.
    destruct (lookup_lt_is_Some_2 l i) as [x ->]; [lia | done].
  - rewrite lookup_seq_ge, lookup_take_ge by lia. done.
Qed.

Lemma block_entries st bp :
  (λ j, block_of st bp !!! j) <$> seq 0 NINDIRECT = block_of st bp.
Proof.
  rewrite lookups_seq by (unfold block_of; by rewrite length_resize).
  apply take_ge. unfold block_of. by rewrite length_resize.
Qed.

Lemma insert_zero_id (l : list Z) (i : nat) : l !!! i = 0 → <[i := 0]> l = l.
Proof.
  intros Hz. destruct (decide (i < length l)%nat) as [Hi | Hi].
  - apply list_insert_id. rewrite list_lookup_total_alt in Hz.
    destruct (lookup_lt_is_Some_2 l i Hi) as [x Hx]. rewrite Hx in Hz |- *.
    simpl in Hz. by subst.
  - apply list_insert_ge. lia.
Qed.

(** The inner loop frees the nonzero entries among [js], in order, and
    changes nothing else. *)
Lemma free_entries_run d bp js i bl hd : ∀ tr,
  free_entries d bp js (mkState i bl hd tr) =
    Ret tt (mkState i bl hd
              (tr ++ (EvBfree d <$>
                        filter (λ x, x ≠ 0)
                          ((λ j, block_of (mkState i bl hd tr) bp !!! j) <$> js)))).
Proof.
  induction js as [| j js IH]; intros tr; simpl.
  - unfold ret. by rewrite app_nil_r.
  - rewrite bind_unfold. unfold get_entry at 1. cbv beta iota.
    rewrite bind_unfold.
    unfold block_of in *. cbn [blocks] in *.
    destruct (decide (resize NINDIRECT 0 (default [] (bl !! bp)) !!! j ≠ 0))
      as [Hnz | Hz].
    + unfold bfree, emit. cbn [ip blocks held trace]. cbv beta iota.
      rewrite IH. rewrite filter_cons_True by done.
      rewrite fmap_cons, <- app_assoc. done.
    + unfold ret. cbv beta iota. rewrite IH.
      by rewrite filter_cons_False by done.
Qed.

(** The first loop frees the nonzero direct entries, in order, and zeroes
    them. *)
Lemma trunc_direct_run d ix dv sz bl hd : ∀ tbl tr,
  NoDup ix →
  trunc_direct d ix (mkState (mkInode dv tbl sz) bl hd tr) =
    Ret tt (mkState (mkInode dv (foldl (λ l i, <[i := 0]> l) tbl ix) sz) bl hd
              (tr ++ (EvBfree d <$> filter (λ x, x ≠ 0) ((λ i, tbl !!! i) <$> ix)))).
Proof.
  induction ix as [| i ix IH]; intros tbl tr Hnd; simpl.
  - unfold ret. by rewrite app_nil_r.
  - apply NoDup_cons in Hnd as [Hi Hnd].
    assert (Hrest : (λ k, <[i := 0]> tbl !!! k) <$> ix = (λ k, tbl !!! k) <$> ix).
    { apply list_fmap_ext. intros ? k Hk.
      apply list_lookup_total_insert_ne. intros ->.
      apply Hi. by eapply list_elem_of_lookup_2. }
    rewrite bind_unfold. unfold get_addr at 1.
    cbn [ip addrs]. cbv beta iota. rewrite bind_unfold.
    destruct (decide (tbl !!! i ≠ 0)) as [Hnz | Hz].
    + unfold bind at 1, bfree, emit, set_addr. cbn [ip blocks held trace dev addrs size].
      cbv beta iota. cbn [ip blocks held trace dev addrs size].
      rewrite IH by done. rewrite Hrest.
      rewrite filter_cons_True by done.
      rewrite fmap_cons, <- app_assoc. done.
    + unfold ret. cbv beta iota. rewrite IH by done.
      rewrite filter_cons_False by done.
      assert (Hz' : tbl !!! i = 0) by (destruct (decide (tbl !!! i = 0)); done).
      rewrite (insert_zero_id tbl i Hz'). done.
Qed.

(** The loop over the double-indirect block: every nonzero child among
    [ix] is read, its entries are freed, it is released and freed. *)
Lemma trunc_double_run d db ix dv tbl sz bl hd : ∀ tr,
  let st0 := mkState (mkInode dv tbl sz) bl hd tr in
  let children := filter (λ x, x ≠ 0) ((λ i, block_of st0 db !!! i) <$> ix) in
  d = dv →
  (∀ c, c ∈ children → (d, c) ∉ hd) →
  trunc_double d db ix st0 =
    Ret tt (mkState (mkInode dv tbl sz) bl hd
              (tr ++ concat (index_block_calls st0 <$> children))).
Proof.
  induction ix as [| i ix IH]; intros tr st0 children -> Hfree.
  - unfold ret. simpl. by rewrite app_nil_r.
  - simpl. rewrite bind_unfold. unfold get_entry at 1. cbv beta iota.
    rewrite bind_unfold.
    subst children st0. unfold index_block_calls, entries, block_of in *.
    cbn [ip dev blocks] in *.
    rewrite fmap_cons in Hfree |- *. cbv beta in Hfree |- *.
    set (b := resize NINDIRECT 0 (default [] (bl !! db)) !!! i) in *.
    destruct (decide (b ≠ 0)) as [Hnz | Hz].
    + rewrite filter_cons_True in Hfree |- * by done.
      rewrite bind_unfold.
      rewrite bread_free by (apply Hfree; apply elem_of_cons; by left).
      cbv beta iota. cbn [ip blocks held trace].
      rewrite bind_unfold, free_entries_run. cbv beta iota.
      rewrite block_entries.
      rewrite bind_unfold.
      rewrite brelse_top by (apply Hfree; apply elem_of_cons; by left).
      cbv beta iota. rewrite bind_unfold. unfold get_entry at 1. cbv beta iota.
      unfold bfree, emit. cbn [ip blocks held trace fst snd]. cbv beta iota.
      unfold block_of. cbn [blocks]. fold b.
      rewrite IH; [| done |].
      * unfold index_block_calls, entries, block_of. cbn [ip dev blocks].
        rewrite fmap_cons. cbn [concat]. rewrite <- !app_assoc. done.
      * intros c Hc. apply Hfree. apply elem_of_cons. by right.
    + rewrite filter_cons_False in Hfree |- * by done.
      unfold ret at 1. cbv beta iota.
      rewrite IH; [done | done |]. intros c Hc. by apply Hfree.
Qed.

(** The second block of [itrunc]. *)
Lemma trunc_indirect_run dv tbl sz bl tr :
  let st0 := mkState (mkInode dv tbl sz) bl [] tr in
  let s := tbl !!! NDIRECT in
  trunc_indirect dv st0 =
    Ret tt (mkState (mkInode dv (<[NDIRECT := 0]> tbl) sz) bl []
              (tr ++ if decide (s ≠ 0) then index_block_calls st0 s else [])).
Proof.
  intros st0 s. subst st0 s. unfold trunc_indirect.
  rewrite bind_unfold. unfold get_addr at 1. cbn [ip addrs]. cbv beta iota.
  destruct (decide (tbl !!! NDIRECT ≠ 0)) as [Hnz | Hz].
  - rewrite bind_unfold. rewrite bread_free by (cbn [held]; apply not_elem_of_nil).
    cbv beta iota. cbn [ip blocks held trace].
    rewrite bind_unfold, free_entries_run. cbv beta iota.
    rewrite block_entries.
    rewrite bind_unfold, brelse_top by apply not_elem_of_nil.
    cbv beta iota. rewrite bind_unfold. unfold get_addr at 1. cbv beta iota.
    unfold bind, bfree, emit, set_addr.
    cbn [ip blocks held trace dev addrs size fst snd].
    unfold index_block_calls, entries, block_of. cbn [ip dev blocks].
    rewrite <- !app_assoc. done.
  - unfold ret. rewrite app_nil_r.
    assert (Hz' : tbl !!! NDIRECT = 0) by (destruct (decide (tbl !!! NDIRECT = 0)); done).
    by rewrite (insert_zero_id tbl NDIRECT Hz').
Qed.

(** The third block of [itrunc]. *)
Lemma trunc_dindirect_run dv tbl sz bl tr :
  let st0 := mkState (mkInode dv tbl sz) bl [] tr in
  let db := tbl !!! (NDIRECT + 1)%nat in
  db ∉ entries st0 db →
  trunc_dindirect dv st0 =
    Ret tt (mkState (mkInode dv (<[(NDIRECT + 1)%nat := 0]> tbl) sz) bl []
              (tr ++ if decide (db ≠ 0)
                     then [EvBread dv db] ++
                          concat (index_block_calls st0 <$> entries st0 db) ++
                          [EvBrelse dv db; EvBfree dv db]
                     else [])).
Proof.
  intros st0 db Hself. subst st0 db. unfold trunc_dindirect.
  rewrite bind_unfold. unfold get_addr at 1. cbn [ip addrs]. cbv beta iota.
  destruct (decide (tbl !!! (NDIRECT + 1)%nat ≠ 0)) as [Hnz | Hz].
  - rewrite bind_unfold. rewrite bread_free by (cbn [held]; apply not_elem_of_nil).
    cbv beta iota. cbn [ip blocks held trace].
    rewrite bind_unfold.
    rewrite trunc_double_run; [| done |].
    + cbv beta iota. rewrite block_entries.
      rewrite bind_unfold, brelse_top by apply not_elem_of_nil.
      cbv beta iota. rewrite bind_unfold. unfold get_addr at 1. cbv beta iota.
      unfold bind, bfree, emit, set_addr.
      cbn [ip blocks held trace dev addrs size fst snd].
      unfold index_block_calls, entries, block_of in *. cbn [ip dev blocks] in *.
      rewrite <- !app_assoc. done.
    + rewrite block_entries. intros c Hc.
      apply not_elem_of_cons. split; [| apply not_elem_of_nil].
      intros Heq. apply Hself. unfold entries. cbn [ip dev].
      unfold block_of in *. cbn [blocks] in *. by simplify_eq.
  - unfold ret. rewrite app_nil_r.
    assert (Hz' : tbl !!! (NDIRECT + 1)%nat = 0)
      by (destruct (decide (tbl !!! (NDIRECT + 1)%nat = 0)); done).
    by rewrite (insert_zero_id tbl _ Hz').
Qed.

(** Zeroing the entries 0 .. n-1 of a table. *)
Lemma zero_prefix n : ∀ l : list Z,
  length (foldl (λ l i, <[i := 0]> l) l (seq 0 n)) = length l ∧
  ∀ k, foldl (λ l i, <[i := 0]> l) l (seq 0 n) !! k =
       if decide (k < n ∧ k < length l)%nat then Some 0 else l !! k.
Proof.
  induction n as [| n IH]; intros l.
  - split; [done |]. intros k. rewrite decide_False by lia. done.
  - rewrite seq_S, foldl_app. simpl. destruct (IH l) as [IHl IHk].
    split; [by rewrite length_insert |]. intros k.
    destruct (decide (k = n)) as [-> | Hne].
    + destruct (decide (n < length l)%nat).
      * rewrite list_lookup_insert_eq by lia. by rewrite decide_True by lia.
      * rewrite list_insert_ge by lia. rewrite IHk.
        rewrite !decide_False by lia. done.
    + rewrite list_lookup_insert_ne by done. rewrite IHk.
      repeat case_decide; try done; lia.
Qed.

Lemma zero_prefix_above n (l : list Z) k :
  (n ≤ k)%nat → foldl (λ l i, <[i := 0]> l) l (seq 0 n) !!! k = l !!! k.
Proof.
  intros Hk. rewrite !list_lookup_total_alt.
  destruct (zero_prefix n l) as [_ ->]. by rewrite decide_False by lia.
Qed.

(** A table of [NDIRECT + 2] entries is all zero once its entries are
    zeroed one after the other. *)
Lemma zeroed_table (tbl : list Z) :
  length tbl = (NDIRECT + 2)%nat →
  <[(NDIRECT + 1)%nat := 0]>
    (<[NDIRECT := 0]> (foldl (λ l i, <[i := 0]> l) tbl (seq 0 NDIRECT)))
  = replicate (NDIRECT + 2) 0.
Proof.
  intros Hlen.
  destruct (zero_prefix NDIRECT tbl) as [Hl Hk].
  apply list_eq. intros k.
  destruct (decide (k < NDIRECT + 2)%nat) as [Hlt | Hge].
  - rewrite lookup_replicate_2 by done.
    destruct (decide (k = (NDIRECT + 1)%nat)) as [-> | Hne1].
    { rewrite list_lookup_insert_eq; [done |]. rewrite length_insert. lia. }
    rewrite list_lookup_insert_ne by done.
    destruct (decide (k = NDIRECT)) as [-> | Hne2].
    { rewrite list_lookup_insert_eq; [done |]. lia. }
    rewrite list_lookup_insert_ne by done.
    rewrite Hk. rewrite decide_True by lia. done.
  - rewrite lookup_ge_None_2; [| rewrite !length_insert; lia].
    symmetry. apply lookup_ge_None_2. rewrite length_replicate. lia.
Qed.

(** All of [itrunc], for an inode with a table of [NDIRECT + 2] entries
    whose double-indirect block is not among its own entries, called with
    no buffer held. *)
Lemma itrunc_run st :
  length (addrs (ip st)) = (NDIRECT + 2)%nat →
  held st = [] →
  addrs (ip st) !!! (NDIRECT + 1)%nat ∉ entries st (addrs (ip st) !!! (NDIRECT + 1)%nat) →
  itrunc st =
    Ret tt (mkState (mkInode (dev (ip st)) (replicate (NDIRECT + 2) 0) 0)
                    (blocks st) [] (trace st ++ itrunc_calls st)).
Proof.
  destruct st as [[dv tbl sz] bl hd tr]. cbn [ip dev addrs size held blocks trace].
  intros Hlen -> Hself. unfold itrunc.
  rewrite bind_unfold. unfold get_dev at 1. cbn [ip dev]. cbv beta iota.
  rewrite bind_unfold, trunc_direct_run by apply NoDup_seq. cbv beta iota.
  rewrite lookups_seq by lia.
  set (tbl1 := foldl (λ l i, <[i := 0]> l) tbl (seq 0 NDIRECT)).
  assert (Hs : tbl1 !!! NDIRECT = tbl !!! NDIRECT)
    by (by apply zero_prefix_above).
  assert (Hdb : <[NDIRECT := 0]> tbl1 !!! (NDIRECT + 1)%nat = tbl !!! (NDIRECT + 1)%nat).
  { rewrite list_lookup_total_insert_ne by lia. apply zero_prefix_above. lia. }
  rewrite bind_unfold, trunc_indirect_run. cbv beta iota zeta.
  rewrite bind_unfold, trunc_dindirect_run.
  2: { cbv zeta. rewrite Hdb. exact Hself. }
  cbv beta iota zeta.
  unfold bind, set_size, iupdate, emit.
  cbn [ip blocks held trace dev addrs size].
  rewrite Hs, Hdb. unfold tbl1. rewrite (zeroed_table tbl Hlen).
  unfold itrunc_calls, direct_blocks. cbn [ip dev addrs].
  unfold index_block_calls, entries, block_of. cbn [ip dev blocks].
  rewrite <- !app_assoc. done.
Qed.

(** The blocks freed by a sequence of calls. *)
Lemma frees_app tr1 tr2 : frees (tr1 ++ tr2) = frees tr1 ++ frees tr2.
Proof. unfold frees. apply omap_app. Qed.

Lemma frees_bfree d (l : list Z) : frees (EvBfree d <$> l) = l.
Proof.
  unfold frees. induction l as [| x l IH]; [done |].
  rewrite fmap_cons. simpl. by f_equal.
Qed.

Lemma frees_index_block st c :
  frees (index_block_calls st c) = entries st c ++ [c].
Proof.
  unfold index_block_calls. cbv zeta.
  rewrite !frees_app, frees_bfree. done.
Qed.

Lemma frees_index_blocks st cs :
  frees (concat (index_block_calls st <$> cs)) =
  concat ((λ c, entries st c ++ [c]) <$> cs).
Proof.
  induction cs as [| c cs IH]; [done |].
  rewrite !fmap_cons, !concat_cons. by rewrite frees_app, frees_index_block, IH.
Qed.

Lemma frees_itrunc_calls st : frees (itrunc_calls st) = reachable_blocks st.
Proof.
  unfold itrunc_calls, reachable_blocks, indirect_blocks, dindirect_blocks.
  cbv zeta. rewrite !frees_app, frees_bfree.
  f_equal. f_equal.
  - case_decide; [apply frees_index_block | done].
  - case_decide; [| done].
    rewrite !frees_app, frees_index_blocks. simpl. by rewrite app_nil_r.
Qed.

(** C3, amended: [itrunc] calls [bfree] once for every nonzero pointer of
    the inode, in this order: the direct entries; the entries of the
    single-indirect block and then that block; for every child of the
    double-indirect block its entries and then the child; at last the
    double-indirect block.  So an index block is freed after the blocks it
    points to, every block pointed to is freed, and a block is freed twice
    exactly when two of these pointers name it.  Then the size is 0 and the
    inode is handed to [iupdate]. *)
Theorem itrunc_frees_all (st : state) :
  length (addrs (ip st)) = (NDIRECT + 2)%nat →
  held st = [] →
  addrs (ip st) !!! (NDIRECT + 1)%nat
    ∉ entries st (addrs (ip st) !!! (NDIRECT + 1)%nat) →
  ∃ st',
    itrunc st = Ret tt st' ∧
    trace st' = trace st ++ itrunc_calls st ∧
    frees (itrunc_calls st) = reachable_blocks st ∧
    (NoDup (frees (itrunc_calls st)) ↔ NoDup (reachable_blocks st)) ∧
    (∀ a, a ∈ reachable_blocks st ↔ a ∈ frees (itrunc_calls st)) ∧
    (addrs (ip st) !!! (NDIRECT + 1)%nat ≠ 0 →
       last (frees (itrunc_calls st)) = Some (addrs (ip st) !!! (NDIRECT + 1)%nat)) ∧
    size (ip st') = 0 ∧
    last (trace st') = Some (EvIupdate (dev (ip st')) (addrs (ip st')) (size (ip st'))).
Proof.
  intros Hlen Hheld Hself. eexists. split; [by apply itrunc_run |].
  cbn [trace ip size dev addrs]. rewrite frees_itrunc_calls.
  repeat split; try done.
  - intros Hdb. unfold reachable_blocks, dindirect_blocks. cbv zeta.
    rewrite decide_True by done. rewrite !app_assoc. apply last_snoc.
  - unfold itrunc_calls. cbv zeta. rewrite !app_assoc. apply last_snoc.
Qed.

(** ** What a call that returns has done to the inode *)

Lemma bind_Ret_inv {A B : Type} (m : M A) (k : A → M B) st b st' :
  bind m k st = Ret b st' → ∃ a st1, m st = Ret a st1 ∧ k a st1 = Ret b st'.
Proof. unfold bind. destruct (m st) as [a st1 | |]; [eauto | done | done]. Qed.

Lemma keeps_ip_bind {A B : Type} (m : M A) (k : A → M B) :
  keeps_ip m → (∀ a, keeps_ip (k a)) → keeps_ip (bind m k).
Proof.
  intros Hm Hk st b st' (a & st1 & H1 & H2)%bind_Ret_inv.
  rewrite (Hk a _ _ _ H2). by apply (Hm _ _ _ H1).
Qed.

Lemma keeps_ip_ret {A : Type} (a : A) : keeps_ip (ret a).
Proof. intros st b st' Hr. unfold ret in Hr. by simplify_eq. Qed.

Lemma keeps_ip_emit e : keeps_ip (emit e).
Proof. intros st b st' Hr. unfold emit in Hr. by simplify_eq. Qed.

Lemma keeps_ip_bread d a : keeps_ip (bread d a).
Proof. intros st b st' Hr. unfold bread in Hr. case_decide; by simplify_eq. Qed.

Lemma keeps_ip_brelse bp : keeps_ip (brelse bp).
Proof. intros st b st' Hr. unfold brelse in Hr. case_decide; by simplify_eq. Qed.

Lemma keeps_ip_get_entry bp j : keeps_ip (get_entry bp j).
Proof. intros st b st' Hr. unfold get_entry in Hr. by simplify_eq. Qed.

Lemma keeps_ip_get_addr i : keeps_ip (get_addr i).
Proof. intros st b st' Hr. unfold get_addr in Hr. by simplify_eq. Qed.

Lemma keeps_ip_free_entries d bp js : keeps_ip (free_entries d bp js).
Proof.
  induction js as [| j js IH]; simpl; [apply keeps_ip_ret |].
  apply keeps_ip_bind; [apply keeps_ip_get_entry |]. intros a.
  apply keeps_ip_bind; [| done].
  case_decide; [apply keeps_ip_emit | apply keeps_ip_ret].
Qed.

Lemma keeps_ip_trunc_double d db ix : keeps_ip (trunc_double d db ix).
Proof.
  induction ix as [| i ix IH]; simpl; [apply keeps_ip_ret |].
  apply keeps_ip_bind; [apply keeps_ip_get_entry |]. intros b.
  apply keeps_ip_bind; [| done].
  case_decide; [| apply keeps_ip_ret].
  apply keeps_ip_bind; [apply keeps_ip_bread |]. intros bp.
  apply keeps_ip_bind; [apply keeps_ip_free_entries |]. intros _.
  apply keeps_ip_bind; [apply keeps_ip_brelse |]. intros _.
  apply keeps_ip_bind; [apply keeps_ip_get_entry |]. intros b'.
  apply keeps_ip_emit.
Qed.

(** A block of [itrunc] that returns leaves its entry of the table zero
    and the rest of the inode as it was. *)
Lemma index_phase_ip (i : nat) (body : Z → M unit) st st' :
  (∀ a, keeps_ip (body a)) →
  (a <- get_addr i ;;
   if decide (a ≠ 0)
   then body a ;; a <- get_addr i ;; bfree (dev (ip st)) a ;; set_addr i 0
   else ret tt) st = Ret tt st' →
  ip st' = mkInode (dev (ip st)) (<[i := 0]> (addrs (ip st))) (size (ip st)).
Proof.
  intros Hbody (a & st1 & H1 & H2)%bind_Ret_inv.
  unfold get_addr in H1. simplify_eq.
  destruct (decide (addrs (ip st1) !!! i ≠ 0)) as [Hnz | Hz].
  - apply bind_Ret_inv in H2 as (? & st2 & H2 & H3).
    apply Hbody in H2.
    apply bind_Ret_inv in H3 as (a & st3 & H3 & H4).
    unfold get_addr in H3. simplify_eq.
    apply bind_Ret_inv in H4 as (? & st4 & H4 & H5).
    apply keeps_ip_emit in H4. unfold set_addr in H5. simplify_eq.
    cbn [ip]. by rewrite H4, H2.
  - unfold ret in H2. simplify_eq.
    assert (Hz' : addrs (ip st') !!! i = 0)
      by (destruct (decide (addrs (ip st') !!! i = 0)); done).
    rewrite (insert_zero_id _ _ Hz'). by destruct (ip st').
Qed.

Lemma trunc_indirect_ip st st' :
  trunc_indirect (dev (ip st)) st = Ret tt st' →
  ip st' = mkInode (dev (ip st)) (<[NDIRECT := 0]> (addrs (ip st))) (size (ip st)).
Proof.
  unfold trunc_indirect. intros Hr.
  apply (index_phase_ip NDIRECT
           (λ a, bp <- bread (dev (ip st)) a ;;
                 free_entries (dev (ip st)) bp (seq 0 NINDIRECT) ;; brelse bp)).
  - intros a. apply keeps_ip_bind; [apply keeps_ip_bread |]. intros bp.
    apply keeps_ip_bind; [apply keeps_ip_free_entries |]. intros _.
    apply keeps_ip_brelse.
  - rewrite <- Hr. unfold bind. destruct (get_addr NDIRECT st) as [a st1 | |]; [| done | done].
    case_decide; [| done].
    destruct (bread (dev (ip st)) a st1) as [bp st2 | |]; [| done | done].
    destruct (free_entries (dev (ip st)) bp (seq 0 NINDIRECT) st2) as [? st3 | |];
      [| done | done].
    by destruct (brelse bp st3).
Qed.

Lemma trunc_dindirect_ip st st' :
  trunc_dindirect (dev (ip st)) st = Ret tt st' →
  ip st' =
    mkInode (dev (ip st)) (<[(NDIRECT + 1)%nat := 0]> (addrs (ip st))) (size (ip st)).
Proof.
  unfold trunc_dindirect. intros Hr.
  apply (index_phase_ip (NDIRECT + 1)
           (λ a, bp <- bread (dev (ip st)) a ;;
                 trunc_double (dev (ip st)) bp (seq 0 NINDIRECT) ;; brelse bp)).
  - intros a. apply keeps_ip_bind; [apply keeps_ip_bread |]. intros bp.
    apply keeps_ip_bind; [apply keeps_ip_trunc_double |]. intros _.
    apply keeps_ip_brelse.
  - rewrite <- Hr. unfold bind.
    destruct (get_addr (NDIRECT + 1) st) as [a st1 | |]; [| done | done].
    case_decide; [| done].
    destruct (bread (dev (ip st)) a st1) as [bp st2 | |]; [| done | done].
    destruct (trunc_double (dev (ip st)) bp (seq 0 NINDIRECT) st2) as [? st3 | |];
      [| done | done].
    by destruct (brelse bp st3).
Qed.

(** Whenever [itrunc] returns, the table is all zero and the size is 0. *)
Lemma itrunc_ip st st' :
  length (addrs (ip st)) = (NDIRECT + 2)%nat →
  itrunc st = Ret tt st' →
  ip st' = mkInode (dev (ip st)) (replicate (NDIRECT + 2) 0) 0 ∧
  ∃ tr, trace st' = tr ++ [EvIupdate (dev (ip st)) (replicate (NDIRECT + 2) 0) 0].
Proof.
  destruct st as [[dv tbl sz] bl hd tr]. cbn [ip dev addrs size].
  intros Hlen Hr. unfold itrunc in Hr.
  rewrite bind_unfold in Hr. unfold get_dev at 1 in Hr.
  cbn [ip dev] in Hr. cbv beta iota in Hr.
  rewrite bind_unfold, trunc_direct_run in Hr by apply NoDup_seq.
  cbv beta iota in Hr.
  apply bind_Ret_inv in Hr as ([] & st2 & H2 & Hr).
  apply (trunc_indirect_ip (mkState (mkInode dv _ sz) bl hd _)) in H2.
  cbn [ip dev addrs size] in H2.
  apply bind_Ret_inv in Hr as ([] & st3 & H3 & Hr).
  assert (Hdv : dv = dev (ip st2)) by (by rewrite H2).
  rewrite Hdv in H3. apply trunc_dindirect_ip in H3.
  rewrite H2 in H3. cbn [dev addrs size] in H3.
  rewrite (zeroed_table tbl Hlen) in H3.
  unfold bind, set_size, iupdate, emit in Hr. simplify_eq.
  cbn [ip trace]. rewrite H3. cbn [dev addrs size]. split; [done | eauto].
Qed.

(** On a table that is all zero [itrunc] makes one call, [iupdate]. *)
Lemma trunc_direct_zero d ix st :
  (∀ i, i ∈ ix → addrs (ip st) !!! i = 0) → trunc_direct d ix st = Ret tt st.
Proof.
  induction ix as [| i ix IH]; intros Hz; [done |]. simpl.
  rewrite bind_unfold. unfold get_addr at 1. cbv beta iota.
  rewrite decide_False.
  - rewrite bind_unfold. unfold ret at 1. cbv beta iota.
    apply IH. intros k Hk. apply Hz. apply elem_of_cons. by right.
  - intros Hnz. apply Hnz. apply Hz. apply elem_of_cons. by left.
Qed.

Lemma itrunc_zero st :
  (∀ i, (i < NDIRECT + 2)%nat → addrs (ip st) !!! i = 0) →
  itrunc st =
    Ret tt (mkState (mkInode (dev (ip st)) (addrs (ip st)) 0) (blocks st) (held st)
              (trace st ++ [EvIupdate (dev (ip st)) (addrs (ip st)) 0])).
Proof.
  intros Hz. unfold itrunc.
  rewrite bind_unfold. unfold get_dev at 1. cbv beta iota.
  rewrite bind_unfold, trunc_direct_zero
    by (intros i Hi%elem_of_seq; apply Hz; lia).
  cbv beta iota.
  unfold trunc_indirect, trunc_dindirect.
  rewrite bind_unfold, bind_unfold. unfold get_addr at 1. cbv beta iota.
  rewrite decide_False by (intros Hnz; apply Hnz, Hz; lia).
  unfold ret at 1. cbv beta iota.
  rewrite bind_unfold, bind_unfold. unfold get_addr at 1. cbv beta iota.
  rewrite decide_False by (intros Hnz; apply Hnz, Hz; lia).
  unfold ret at 1. cbv beta iota.
  reflexivity.
Qed.

(** C10: when [itrunc] has returned, the table is all zero and the size is
    0, and a second [itrunc] returns as well, makes the one call
    [iupdate] (so it frees no block and reads no block), and leaves the
    inode, the blocks and the buffers held as they are. *)
Theorem itrunc_idempotent (st st1 : state) :
  length (addrs (ip st)) = (NDIRECT + 2)%nat →
  itrunc st = Ret tt st1 →
  addrs (ip st1) = replicate (NDIRECT + 2) 0 ∧
  size (ip st1) = 0 ∧
  ∃ st2,
    itrunc st1 = Ret tt st2 ∧
    trace st2 = trace st1 ++ [EvIupdate (dev (ip st1)) (addrs (ip st1)) (size (ip st1))] ∧
    frees (drop (length (trace st1)) (trace st2)) = [] ∧
    reads (drop (length (trace st1)) (trace st2)) = [] ∧
    ip st2 = ip st1 ∧ blocks st2 = blocks st1 ∧ held st2 = held st1.
Proof.
  intros Hlen Hr. destruct (itrunc_ip st st1 Hlen Hr) as [Hip _].
  rewrite Hip. cbn [addrs size dev]. split; [done |]. split; [done |].
  eexists. split.
  - rewrite itrunc_zero.
    + rewrite Hip. cbn [addrs size dev]. reflexivity.
    + intros i Hi. rewrite Hip. cbn [addrs].
      by apply lookup_total_replicate_2.
  - cbn [trace ip blocks held]. rewrite drop_app_length.
    repeat split; done.
Qed.

(** C6, amended: when [itrunc] returns, every entry of the inode's table
    (the direct entries, the single-indirect and the double-indirect
    pointer) is 0, and each of them is zeroed right after the block it
    names is freed: by the round of the first loop, and by the end of the
    second and of the third block of [itrunc].  The entries inside the
    single-indirect block, the double-indirect block and its children are
    freed and not written: the blocks read as before. *)
Theorem itrunc_zeroes_table (st : state) :
  length (addrs (ip st)) = (NDIRECT + 2)%nat →
  held st = [] →
  addrs (ip st) !!! (NDIRECT + 1)%nat
    ∉ entries st (addrs (ip st) !!! (NDIRECT + 1)%nat) →
  let d := dev (ip st) in
  let tbl := addrs (ip st) in
  (∃ st',
     itrunc st = Ret tt st' ∧
     addrs (ip st') = replicate (NDIRECT + 2) 0 ∧
     (∀ i, (i < NDIRECT + 2)%nat → addrs (ip st') !!! i = 0) ∧
     blocks st' = blocks st ∧
     (∀ bp, block_of st' bp = block_of st bp)) ∧
  (∀ i, tbl !!! i ≠ 0 →
     trunc_direct d [i] st =
       Ret tt (mkState (mkInode d (<[i := 0]> tbl) (size (ip st))) (blocks st) (held st)
                 (trace st ++ [EvBfree d (tbl !!! i)]))) ∧
  (tbl !!! NDIRECT ≠ 0 →
     trunc_indirect d st =
       Ret tt (mkState (mkInode d (<[NDIRECT := 0]> tbl) (size (ip st))) (blocks st) []
                 (trace st ++ [EvBread d (tbl !!! NDIRECT)] ++
                    (EvBfree d <$> entries st (tbl !!! NDIRECT)) ++
                    [EvBrelse d (tbl !!! NDIRECT); EvBfree d (tbl !!! NDIRECT)]))) ∧
  (tbl !!! (NDIRECT + 1)%nat ≠ 0 →
     trunc_dindirect d st =
       Ret tt (mkState (mkInode d (<[(NDIRECT + 1)%nat := 0]> tbl) (size (ip st)))
                 (blocks st) []
                 (trace st ++ [EvBread d (tbl !!! (NDIRECT + 1)%nat)] ++
                    concat (index_block_calls st <$> entries st (tbl !!! (NDIRECT + 1)%nat)) ++
                    [EvBrelse d (tbl !!! (NDIRECT + 1)%nat);
                     EvBfree d (tbl !!! (NDIRECT + 1)%nat)]))).
Proof.
  intros Hlen Hheld Hself d tbl. split; [| split; [| split]].
  - eexists. split; [by apply itrunc_run |]. cbn [ip addrs blocks].
    repeat split; try done.
    intros i Hi. by apply lookup_total_replicate_2.
  - intros i Hnz. subst d tbl. destruct st as [[dv tb sz] bl hd tr].
    cbn [ip dev addrs size held blocks trace] in *.
    rewrite trunc_direct_run by apply NoDup_singleton.
    cbn [fmap list_fmap foldl]. rewrite filter_cons_True by done. reflexivity.
  - intros Hnz. subst d tbl. destruct st as [[dv tb sz] bl hd tr].
    cbn [ip dev addrs size held blocks trace] in *. subst hd.
    rewrite trunc_indirect_run. cbv zeta. by rewrite decide_True.
  - intros Hnz. subst d tbl. destruct st as [[dv tb sz] bl hd tr].
    cbn [ip dev addrs size held blocks trace] in *. subst hd.
    rewrite trunc_dindirect_run by done. cbv zeta. by rewrite decide_True.
Qed.

(** ** [bmap] as a whole *)

Lemma bread_held d a st : (d, a) ∈ held st → bread d a st = Deadlock d a.
Proof. intros Hh. unfold bread. by rewrite decide_True. Qed.

(** The three ranges of [bmap], as one equation each. *)
Lemma bmap_direct_run st bn :
  0 ≤ bn < Z.of_nat NDIRECT →
  let d := dev (ip st) in
  let tbl := addrs (ip st) in
  let i := Z.to_nat bn in
  let r := if decide (tbl !!! i = 0) then balloc_pick d (trace st) else tbl !!! i in
  bmap bn st =
    Ret r (mkState
             (mkInode d (if decide (tbl !!! i = 0) then <[i := r]> tbl else tbl)
                      (size (ip st)))
             (blocks st) (held st)
             (trace st ++ if decide (tbl !!! i = 0) then [EvBalloc d r] else [])).
Proof.
  destruct st as [[d tbl sz] bl hd tr]. cbv zeta.
  cbn [ip dev addrs size trace held blocks].
  intros [Hlo Hhi]. unfold bmap. mstep. range. mstep.
  rewrite table_on_demand. cbn [ip blocks held trace dev addrs size].
  by case_decide.
Qed.

Lemma bmap_indirect_run st bn :
  Z.of_nat NDIRECT ≤ bn < Z.of_nat NDIRECT + Z.of_nat NINDIRECT →
  let d := dev (ip st) in
  let tbl := addrs (ip st) in
  let j := Z.to_nat (bn - Z.of_nat NDIRECT) in
  let s0 := tbl !!! NDIRECT in
  let s := if decide (s0 = 0) then balloc_pick d (trace st) else s0 in
  let tr1 :=
    trace st ++ (if decide (s0 = 0) then [EvBalloc d s] else []) ++ [EvBread d s] in
  let e0 := block_of st (d, s) !!! j in
  let r := if decide (e0 = 0) then balloc_pick d tr1 else e0 in
  (d, s) ∉ held st →
  bmap bn st =
    Ret r (mkState
             (mkInode d (if decide (s0 = 0) then <[NDIRECT := s]> tbl else tbl)
                      (size (ip st)))
             (if decide (e0 = 0)
              then <[(d, s) := <[j := r]> (block_of st (d, s))]> (blocks st)
              else blocks st)
             (held st)
             (tr1 ++ (if decide (e0 = 0) then [EvBalloc d r; EvLogWrite d s] else [])
                  ++ [EvBrelse d s])).
Proof.
  destruct st as [[d tbl sz] bl hd tr]. cbv zeta.
  cbn [ip dev addrs size trace held blocks]. unfold block_of. cbn [blocks].
  intros [Hlo Hhi].
  destruct (decide (tbl !!! NDIRECT = 0)) as [Hs0 | Hs0]; cbv beta iota;
    rewrite <- ?app_assoc;
    match goal with |- context [decide (?e = 0)] =>
      destruct (decide (e = 0)) as [He0 | He0] end;
    cbv beta iota; intros Hh;
    unfold bmap; mstep; range; cbv zeta; do 6 mstep; reflexivity.
Qed.

Lemma bmap_dindirect_run st bn :
  Z.of_nat NDIRECT + Z.of_nat NINDIRECT ≤ bn
    < Z.of_nat NDIRECT + Z.of_nat NINDIRECT + Z.of_nat NINDIRECT * Z.of_nat NINDIRECT →
  let d := dev (ip st) in
  let tbl := addrs (ip st) in
  let offset := bn - Z.of_nat NDIRECT - Z.of_nat NINDIRECT in
  let outer := Z.to_nat (offset / Z.of_nat NINDIRECT) in
  let inner := Z.to_nat (offset mod Z.of_nat NINDIRECT) in
  let d0 := tbl !!! (NDIRECT + 1)%nat in
  let db := if decide (d0 = 0) then balloc_pick d (trace st) else d0 in
  let tr1 :=
    trace st ++ (if decide (d0 = 0) then [EvBalloc d db] else []) ++ [EvBread d db] in
  let s0 := block_of st (d, db) !!! outer in
  let s := if decide (s0 = 0) then balloc_pick d tr1 else s0 in
  let tr2 :=
    tr1 ++ (if decide (s0 = 0) then [EvBalloc d s; EvLogWrite d db] else [])
        ++ [EvBread d s] in
  let e0 := block_of st (d, s) !!! inner in
  let r := if decide (e0 = 0) then balloc_pick d tr2 else e0 in
  let blocks1 :=
    if decide (s0 = 0)
    then <[(d, db) := <[outer := s]> (block_of st (d, db))]> (blocks st)
    else blocks st in
  (d, db) ∉ held st →
  (if decide (s = db) then bmap bn st = Deadlock d s
   else
   (d, s) ∉ held st →
   bmap bn st =
     Ret r (mkState
              (mkInode d (if decide (d0 = 0) then <[(NDIRECT + 1)%nat := db]> tbl else tbl)
                       (size (ip st)))
              (if decide (e0 = 0)
               then <[(d, s) := <[inner := r]> (block_of st (d, s))]> blocks1
               else blocks1)
              (held st)
              (tr2 ++ (if decide (e0 = 0) then [EvBalloc d r; EvLogWrite d s] else [])
                   ++ [EvBrelse d s; EvBrelse d db]))).
Proof.
  destruct st as [[d tbl sz] bl hd tr]. cbv zeta.
  cbn [ip dev addrs size trace held blocks]. unfold block_of. cbn [blocks].
  intros [Hlo Hhi].
  destruct (decide (tbl !!! (NDIRECT + 1)%nat = 0)) as [Hd0 | Hd0];
    cbv beta iota; rewrite <- ?app_assoc;
    match goal with |- context [decide (?e = 0)] =>
      destruct (decide (e = 0)) as [Hs0 | Hs0] end;
    cbv beta iota; rewrite <- ?app_assoc;
    intros Hhd;
    match goal with |- context [decide (?a = ?b)] =>
      destruct (decide (a = b)) as [Heq | Hne] end.
  all: try (match goal with |- context [decide (?e = 0)] =>
              destruct (decide (e = 0)) as [He0 | He0] end;
            cbv beta iota; intros Hhs;
            unfold bmap; mstep; range; cbv zeta; do 10 mstep; reflexivity).
  all: unfold bmap; mstep; range; cbv zeta; do 5 mstep;
       rewrite bind_unfold, bread_held; [by rewrite Heq | ];
       cbn [held]; apply elem_of_cons; left; by rewrite Heq.
Qed.

(** ** Blocks that are mapped *)

Lemma length_block_of st bp : length (block_of st bp) = NINDIRECT.
Proof. unfold block_of. apply length_resize. Qed.

Lemma entry_in_entries st a j :
  (j < NINDIRECT)%nat → block_of st (dev (ip st), a) !!! j ≠ 0 →
  block_of st (dev (ip st), a) !!! j ∈ entries st a.
Proof.
  intros Hj Hnz. unfold entries. apply list_elem_of_filter. split; [done |].
  apply list_elem_of_lookup_total_2. by rewrite length_block_of.
Qed.

Lemma index_bounds bn :
  0 < Z.of_nat NINDIRECT → 0 ≤ bn < Z.of_nat NINDIRECT * Z.of_nat NINDIRECT →
  (Z.to_nat (bn / Z.of_nat NINDIRECT) < NINDIRECT)%nat ∧
  (Z.to_nat (bn mod Z.of_nat NINDIRECT) < NINDIRECT)%nat.
Proof.
  intros Hn [Hlo Hhi]. split.
  - apply Nat2Z.inj_lt. rewrite Z2Nat.id by (apply Z.div_pos; lia).
    apply Z.div_lt_upper_bound; lia.
  - apply Nat2Z.inj_lt. rewrite Z2Nat.id by (apply Z.mod_pos_bound; lia).
    apply Z.mod_pos_bound; lia.
Qed.

(** The cases of [resolve] for a block that is mapped. *)
Lemma resolve_mapped st bn :
  0 ≤ bn → resolve st bn ≠ 0 →
  let d := dev (ip st) in
  let tbl := addrs (ip st) in
  (0 ≤ bn < Z.of_nat NDIRECT ∧ resolve st bn = tbl !!! Z.to_nat bn) ∨
  (Z.of_nat NDIRECT ≤ bn < Z.of_nat NDIRECT + Z.of_nat NINDIRECT ∧
   tbl !!! NDIRECT ≠ 0 ∧
   resolve st bn =
     block_of st (d, tbl !!! NDIRECT) !!! Z.to_nat (bn - Z.of_nat NDIRECT)) ∨
  (Z.of_nat NDIRECT + Z.of_nat NINDIRECT ≤ bn
     < Z.of_nat NDIRECT + Z.of_nat NINDIRECT + Z.of_nat NINDIRECT * Z.of_nat NINDIRECT ∧
   let offset := bn - Z.of_nat NDIRECT - Z.of_nat NINDIRECT in
   let db := tbl !!! (NDIRECT + 1)%nat in
   let s := block_of st (d, db) !!! Z.to_nat (offset / Z.of_nat NINDIRECT) in
   db ≠ 0 ∧ s ≠ 0 ∧
   resolve st bn = block_of st (d, s) !!! Z.to_nat (offset mod Z.of_nat NINDIRECT)).
Proof.
  intros Hbn. unfold resolve, ND_INDIRECT. cbv zeta.
  repeat case_decide; try done; intros Hr.
  - left. split; [lia | done].
  - right. left. split; [lia |]. by split.
  - right. right. split; [lia |]. by repeat split.
Qed.

(** X19: [bmap] of a block that is mapped is a lookup.  When the inode maps
    [bn] to a block already, the caller holds no buffer and the
    double-indirect block is not listed in itself, [bmap] returns that
    block; it allocates nothing, logs nothing, frees nothing, and leaves
    the inode and the index blocks as they were. *)
Theorem bmap_mapped_is_lookup (st : state) (bn : Z) :
  held st = [] →
  addrs (ip st) !!! (NDIRECT + 1)%nat
    ∉ entries st (addrs (ip st) !!! (NDIRECT + 1)%nat) →
  0 ≤ bn →
  resolve st bn ≠ 0 →
  ∃ st1,
    bmap bn st = Ret (resolve st bn) st1 ∧
    ip st1 = ip st ∧ blocks st1 = blocks st ∧ held st1 = [] ∧
    allocs (drop (length (trace st)) (trace st1)) = [] ∧
    logged (drop (length (trace st)) (trace st1)) = [] ∧
    frees (drop (length (trace st)) (trace st1)) = [].
Proof.
  intros Hheld Hwf Hbn Hr.
  assert (Hnh : ∀ bp, bp ∉ held st) by (intros bp; rewrite Hheld; apply not_elem_of_nil).
  destruct (resolve_mapped st bn Hbn Hr) as [[Hrg Heq] | [(Hrg & Hs & Heq) | (Hrg & Hrest)]].
  - pose proof (bmap_direct_run st bn Hrg) as Hrun. cbv zeta in Hrun.
    rewrite Heq in Hr |- *.
    rewrite !decide_False in Hrun by done. rewrite app_nil_r in Hrun.
    eexists. split; [exact Hrun |]. cbn. rewrite drop_all.
    destruct st as [[]]; by repeat split.
  - pose proof (bmap_indirect_run st bn Hrg) as Hrun. cbv zeta in Hrun.
    rewrite Heq in Hr |- *.
    rewrite !(decide_False (P := addrs (ip st) !!! NDIRECT = 0)) in Hrun by done.
    rewrite !decide_False in Hrun by done.
    eexists. split; [apply Hrun, Hnh |]. cbn.
    rewrite <- !app_assoc, drop_app_length. destruct st as [[]]; by repeat split.
  - cbv zeta in Hrest. destruct Hrest as (Hdb & Hs & Heq).
    pose proof (bmap_dindirect_run st bn Hrg) as Hrun. cbv zeta in Hrun.
    rewrite Heq in Hr |- *.
    rewrite !(decide_False (P := addrs (ip st) !!! (NDIRECT + 1)%nat = 0)) in Hrun by done.
    match type of Hs with ?s ≠ 0 =>
      rewrite !(decide_False (P := s = 0)) in Hrun by done end.
    rewrite decide_False in Hrun.
    2: { intros Heq'. apply Hwf. rewrite <- Heq' at 1.
         apply entry_in_entries; [| done].
         apply index_bounds; lia. }
    rewrite !decide_False in Hrun by done.
    eexists. split; [apply Hrun; apply Hnh |]. cbn.
    rewrite <- !app_assoc, drop_app_length. destruct st as [[]]; by repeat split.
Qed.

(** A block the inode maps a logical block to is among the blocks [itrunc]
    has to free. *)
Lemma mapped_reachable st bn :
  length (addrs (ip st)) = (NDIRECT + 2)%nat →
  0 ≤ bn → resolve st bn ≠ 0 →
  resolve st bn ∈ reachable_blocks st.
Proof.
  intros Hlen Hbn Hr. unfold reachable_blocks.
  destruct (resolve_mapped st bn Hbn Hr) as [[Hrg Heq] | [(Hrg & Hs & Heq) | (Hrg & Hrest)]].
  - rewrite Heq in Hr |- *. apply elem_of_app. left.
    unfold direct_blocks. apply list_elem_of_filter. split; [done |].
    apply elem_of_take. exists (Z.to_nat bn). split; [| lia].
    apply list_lookup_lookup_total_lt. lia.
  - rewrite Heq in Hr |- *. apply elem_of_app. right. apply elem_of_app. left.
    unfold indirect_blocks. cbv zeta. rewrite decide_True by done.
    apply elem_of_app. left. apply entry_in_entries; [lia | done].
  - cbv zeta in Hrest. destruct Hrest as (Hdb & Hs & Heq).
    assert (0 < Z.of_nat NINDIRECT) by nia.
    destruct (index_bounds (bn - Z.of_nat NDIRECT - Z.of_nat NINDIRECT)) as [Ho Hi];
      [done | lia |].
    rewrite Heq in Hr |- *. apply elem_of_app. right. apply elem_of_app. right.
    unfold dindirect_blocks. cbv zeta. rewrite decide_True by done.
    apply elem_of_app. left.
    apply list_elem_of_In, in_concat.
    eexists. split.
    + apply list_elem_of_In, list_elem_of_fmap. eexists. split; [reflexivity |].
      exact (entry_in_entries st _ _ Ho Hs).
    + apply list_elem_of_In, elem_of_app. left. by apply entry_in_entries.
Qed.

(** X20: no mapped block is left behind by [itrunc].  The block the inode
    maps a logical block to (for instance the block [bmap] has just
    returned) is freed by [itrunc], and afterwards the inode maps no
    logical block at all. *)
Theorem mapped_block_is_freed (st : state) (bn : Z) :
  length (addrs (ip st)) = (NDIRECT + 2)%nat →
  held st = [] →
  addrs (ip st) !!! (NDIRECT + 1)%nat
    ∉ entries st (addrs (ip st) !!! (NDIRECT + 1)%nat) →
  0 ≤ bn →
  resolve st bn ≠ 0 →
  ∃ st',
    itrunc st = Ret tt st' ∧
    resolve st bn ∈ frees (drop (length (trace st)) (trace st')) ∧
    ∀ bn', 0 ≤ bn' → resolve st' bn' = 0.
Proof.
  intros Hlen Hheld Hwf Hbn Hr.
  eexists. split; [by apply itrunc_run |]. cbn [trace].
  rewrite drop_app_length, frees_itrunc_calls.
  split; [by apply mapped_reachable |].
  intros bn' Hbn'. unfold resolve. cbn.
  assert (Hz : ∀ i, (i < NDIRECT + 2)%nat → replicate (NDIRECT + 2) 0 !!! i = 0).
  { intros i Hi. by apply lookup_total_replicate_2. }
  repeat case_decide; try done.
  - apply Hz. lia.
  - exfalso. match goal with Hn : _ ≠ 0 |- _ => apply Hn end. apply Hz. lia.
  - exfalso. match goal with Hn : replicate _ _ !!! _ ≠ 0 |- _ => apply Hn end.
    apply Hz. lia.
Qed.

(** ** What [bmap] leaves *)

Lemma block_of_insert_eq i bl hd tr bp j v (l : list Z) :
  length l = NINDIRECT →
  block_of (mkState i (<[bp := <[j := v]> l]> bl) hd tr) bp = <[j := v]> l.
Proof.
  intros Hl. unfold block_of. cbn [blocks]. rewrite lookup_insert_eq. simpl.
  apply resize_all_alt. by rewrite length_insert.
Qed.

Lemma block_of_insert_ne i bl hd tr bp bp' (l : list Z) :
  bp ≠ bp' →
  block_of (mkState i (<[bp := l]> bl) hd tr) bp' = block_of (mkState i bl hd tr) bp'.
Proof. intros Hne. unfold block_of. cbn [blocks]. by rewrite lookup_insert_ne. Qed.

Lemma block_of_blocks i i' bl hd hd' tr tr' bp :
  block_of (mkState i bl hd tr) bp = block_of (mkState i' bl hd' tr') bp.
Proof. reflexivity. Qed.

Lemma if_nonzero (P : Prop) `{Decision P} (x y : Z) :
  x ≠ 0 → (¬ P → y ≠ 0) → (if decide P then x else y) ≠ 0.
Proof. intros Hx Hy. case_decide; auto. Qed.

Lemma bmap_beyond st bn :
  Z.of_nat NDIRECT + Z.of_nat NINDIRECT + Z.of_nat NINDIRECT * Z.of_nat NINDIRECT ≤ bn →
  bmap bn st = Panic "bmap: out of range".
Proof. intros Hhi. unfold bmap. mstep. range. done. Qed.

(** Index blocks are among the blocks [itrunc] has to free. *)
Lemma indirect_reachable st s :
  addrs (ip st) !!! NDIRECT = s → s ≠ 0 → s ∈ reachable_blocks st.
Proof.
  intros <- Hs. unfold reachable_blocks, indirect_blocks. cbv zeta.
  rewrite decide_True by done.
  apply elem_of_app. right. apply elem_of_app. left.
  apply elem_of_app. right. by apply list_elem_of_singleton.
Qed.

Lemma dindirect_reachable st db :
  addrs (ip st) !!! (NDIRECT + 1)%nat = db → db ≠ 0 → db ∈ reachable_blocks st.
Proof.
  intros <- Hs. unfold reachable_blocks, dindirect_blocks. cbv zeta.
  rewrite decide_True by done.
  apply elem_of_app. right. apply elem_of_app. right.
  apply elem_of_app. right. by apply list_elem_of_singleton.
Qed.

Lemma child_reachable st db j s :
  addrs (ip st) !!! (NDIRECT + 1)%nat = db → db ≠ 0 → (j < NINDIRECT)%nat →
  block_of st (dev (ip st), db) !!! j = s → s ≠ 0 → s ∈ reachable_blocks st.
Proof.
  intros <- Hdb Hj <- Hs. unfold reachable_blocks, dindirect_blocks. cbv zeta.
  rewrite decide_True by done.
  apply elem_of_app. right. apply elem_of_app. right. apply elem_of_app. left.
  apply list_elem_of_In, in_concat. eexists. split.
  - apply list_elem_of_In, list_elem_of_fmap. eexists. split; [reflexivity |].
    exact (entry_in_entries st _ _ Hj Hs).
  - apply list_elem_of_In, elem_of_app. right. by apply list_elem_of_singleton.
Qed.

(** What [bmap] has done when it returns: the block returned is mapped,
    and what has been allocated on the way can be reached from the
    inode. *)
Lemma bmap_returns (st : state) (bn : Z) (a : Z) (st1 : state) :
  length (addrs (ip st)) = (NDIRECT + 2)%nat →
  held st = [] →
  (∀ tr, balloc_pick (dev (ip st)) tr ≠ 0) →
  0 ≤ bn →
  bmap bn st = Ret a st1 →
  a ≠ 0 ∧ resolve st1 bn = a ∧ held st1 = [] ∧
  dev (ip st1) = dev (ip st) ∧ size (ip st1) = size (ip st) ∧
  length (addrs (ip st1)) = (NDIRECT + 2)%nat ∧
  frees (drop (length (trace st)) (trace st1)) = [] ∧
  ∀ x, x ∈ allocs (drop (length (trace st)) (trace st1)) → x ∈ reachable_blocks st1.
Proof.
  intros Hlen Hheld Halloc Hbn Hret.
  assert (Hnh : ∀ bp, bp ∉ held st) by (intros bp; rewrite Hheld; apply not_elem_of_nil).
  (* the block returned is reachable once it is known to be mapped *)
  assert (Hfin : ∀ P : Prop,
    a ≠ 0 → resolve st1 bn = a → length (addrs (ip st1)) = (NDIRECT + 2)%nat →
    (a ∈ reachable_blocks st1 → P) → P).
  { intros P Ha Hres Hl1 HP. apply HP. rewrite <- Hres.
    apply mapped_reachable; [done | done | by rewrite Hres]. }
  destruct (decide (bn < Z.of_nat NDIRECT)) as [Hdir | Hdir].
  { pose proof (bmap_direct_run st bn (conj Hbn Hdir)) as Hrun. cbv zeta in Hrun.
    rewrite Hrun in Hret. injection Hret as <- <-.
    destruct st as [[d tbl sz] bl hd tr].
    cbn [ip dev addrs size held trace blocks] in *.
    match goal with |- ?r ≠ 0 ∧ resolve ?st1 bn = _ ∧ _ =>
      assert (Ha : r ≠ 0) by (apply if_nonzero; [apply Halloc | done]);
      assert (Hres : resolve st1 bn = r);
      [| assert (Hl1 : length (addrs (ip st1)) = (NDIRECT + 2)%nat) ] end.
    { unfold resolve. cbn [ip dev addrs].
      rewrite (decide_True (P := bn < Z.of_nat NDIRECT)) by done.
      destruct (decide (tbl !!! Z.to_nat bn = 0)); [| done].
      by rewrite list_lookup_total_insert_eq by lia. }
    { cbn [ip addrs]. destruct (decide _); [by rewrite length_insert | done]. }
    repeat split; try done.
    { rewrite drop_app_length. clear. by destruct (decide _). }
    apply (Hfin _ Ha Hres Hl1). intros Hin x.
    rewrite drop_app_length. revert Hin.
    match goal with |- context [reachable_blocks ?st1] =>
      generalize (reachable_blocks st1) end.
    intros R. destruct (decide (tbl !!! Z.to_nat bn = 0)); cbn.
    - by intros ? ->%list_elem_of_singleton.
    - by intros ? ?%elem_of_nil. }
  destruct (decide (bn < Z.of_nat NDIRECT + Z.of_nat NINDIRECT)) as [Hind | Hind].
  { assert (Hrg : Z.of_nat NDIRECT ≤ bn < Z.of_nat NDIRECT + Z.of_nat NINDIRECT) by lia.
    pose proof (bmap_indirect_run st bn Hrg) as Hrun.
    cbv zeta in Hrun. rewrite (Hrun (Hnh _)) in Hret. clear Hrun.
    injection Hret as <- <-.
    destruct st as [[d tbl sz] bl hd tr]. cbn [ip dev addrs size held trace blocks] in *.
    set (s := if decide (tbl !!! NDIRECT = 0) then balloc_pick d tr else tbl !!! NDIRECT).
    assert (Hs : s ≠ 0) by (apply if_nonzero; [apply Halloc | done]).
    set (tbl1 := if decide (tbl !!! NDIRECT = 0) then <[NDIRECT := s]> tbl else tbl).
    assert (Ht : tbl1 !!! NDIRECT = s ∧ length tbl1 = (NDIRECT + 2)%nat).
    { unfold tbl1, s. destruct (decide (tbl !!! NDIRECT = 0)); [| done].
      rewrite list_lookup_total_insert_eq by lia. by rewrite length_insert. }
    destruct Ht as [Ht Hl1].
    assert (Hj : (Z.to_nat (bn - Z.of_nat NDIRECT) < NINDIRECT)%nat) by lia.
    match goal with |- ?r ≠ 0 ∧ resolve ?st1 bn = _ ∧ _ =>
      assert (Ha : r ≠ 0) by (apply if_nonzero; [apply Halloc | done]);
      assert (Hres : resolve st1 bn = r) end.
    { unfold resolve. cbn [ip dev addrs].
      rewrite (decide_False (P := bn < Z.of_nat NDIRECT)) by done. cbv zeta.
      rewrite (decide_True (P := bn - Z.of_nat NDIRECT < Z.of_nat NINDIRECT)) by lia.
      rewrite Ht, (decide_False (P := s = 0)) by done.
      destruct (decide (block_of _ (d, s) !!! Z.to_nat (bn - Z.of_nat NDIRECT) = 0));
        [| done].
      rewrite block_of_insert_eq by apply length_block_of.
      rewrite list_lookup_total_insert_eq; [done |]. by rewrite length_block_of. }
    repeat split; try done.
    { rewrite <- !app_assoc, drop_app_length. clear.
      destruct (decide (tbl !!! NDIRECT = 0));
        by destruct (decide (block_of _ _ !!! Z.to_nat (bn - Z.of_nat NDIRECT) = 0)). }
    apply (Hfin _ Ha Hres Hl1). intros Hin x.
    rewrite <- !app_assoc, drop_app_length.
    match goal with |- x ∈ allocs _ → x ∈ reachable_blocks ?st1 =>
      assert (Hsin : s ∈ reachable_blocks st1) end.
    { by apply indirect_reachable. }
    intros Hx.
    match type of Hin with ?r ∈ _ => assert (Hc : x = s ∨ x = r) end.
    { revert Hx. clear. subst s.
      destruct (decide (tbl !!! NDIRECT = 0));
        destruct (decide (block_of _ _ !!! Z.to_nat (bn - Z.of_nat NDIRECT) = 0));
        cbn; rewrite ?elem_of_cons, ?elem_of_nil; naive_solver. }
    by destruct Hc as [-> | ->]. }
  destruct (decide (bn < Z.of_nat NDIRECT + Z.of_nat NINDIRECT
                          + Z.of_nat NINDIRECT * Z.of_nat NINDIRECT)) as [Hdbl | Hdbl].
  2: { rewrite bmap_beyond in Hret by lia. done. }
  assert (Hrg : Z.of_nat NDIRECT + Z.of_nat NINDIRECT ≤ bn
                < Z.of_nat NDIRECT + Z.of_nat NINDIRECT
                  + Z.of_nat NINDIRECT * Z.of_nat NINDIRECT) by lia.
  assert (0 < Z.of_nat NINDIRECT) by nia.
  destruct (index_bounds (bn - Z.of_nat NDIRECT - Z.of_nat NINDIRECT)) as [Ho Hi];
    [done | lia |].
  pose proof (bmap_dindirect_run st bn Hrg) as Hrun. cbv zeta in Hrun.
  specialize (Hrun (Hnh _)).
  destruct st as [[d tbl sz] bl hd tr]. cbn [ip dev addrs size held trace blocks] in *.
  set (outer := Z.to_nat ((bn - Z.of_nat NDIRECT - Z.of_nat NINDIRECT) / Z.of_nat NINDIRECT)) in *.
  set (inner := Z.to_nat ((bn - Z.of_nat NDIRECT - Z.of_nat NINDIRECT) mod Z.of_nat NINDIRECT)) in *.
  set (st := mkState (mkInode d tbl sz) bl hd tr) in *.
  set (db := if decide (tbl !!! (NDIRECT + 1)%nat = 0)
             then balloc_pick d tr else tbl !!! (NDIRECT + 1)%nat) in *.
  set (tr1 := tr ++ (if decide (tbl !!! (NDIRECT + 1)%nat = 0) then [EvBalloc d db] else [])
                 ++ [EvBread d db]) in *.
  set (s := if decide (block_of st (d, db) !!! outer = 0)
            then balloc_pick d tr1 else block_of st (d, db) !!! outer) in *.
  assert (Hdb : db ≠ 0) by (apply if_nonzero; [apply Halloc | done]).
  assert (Hs : s ≠ 0) by (apply if_nonzero; [apply Halloc | done]).
  destruct (decide (s = db)) as [Heq | Hne]; [by rewrite Hrun in Hret |].
  rewrite (Hrun (Hnh _)) in Hret. clear Hrun. injection Hret as <- <-.
  set (tbl1 := if decide (tbl !!! (NDIRECT + 1)%nat = 0)
               then <[(NDIRECT + 1)%nat := db]> tbl else tbl).
  assert (Ht : tbl1 !!! (NDIRECT + 1)%nat = db ∧ length tbl1 = (NDIRECT + 2)%nat).
  { unfold tbl1, db. destruct (decide (tbl !!! (NDIRECT + 1)%nat = 0)); [| done].
    rewrite list_lookup_total_insert_eq by lia. by rewrite length_insert. }
  destruct Ht as [Ht Hl1].
  assert (Hne' : (d, s) ≠ (d, db)) by congruence.
  assert (Hbdb : ∀ i' hd' tr' l,
    block_of (mkState i'
      (if decide (block_of st (d, s) !!! inner = 0)
       then <[(d, s) := l]>
              (if decide (block_of st (d, db) !!! outer = 0)
               then <[(d, db) := <[outer := s]> (block_of st (d, db))]> bl else bl)
       else if decide (block_of st (d, db) !!! outer = 0)
            then <[(d, db) := <[outer := s]> (block_of st (d, db))]> bl else bl)
      hd' tr') (d, db) !!! outer = s).
  { intros i' hd' tr' l.
    assert (Hin : block_of (mkState i'
              (if decide (block_of st (d, db) !!! outer = 0)
               then <[(d, db) := <[outer := s]> (block_of st (d, db))]> bl else bl)
              hd' tr') (d, db) !!! outer = s).
    { unfold s at 2. destruct (decide (block_of st (d, db) !!! outer = 0)) as [Hz | Hz].
      - rewrite block_of_insert_eq by apply length_block_of.
        rewrite list_lookup_total_insert_eq; [done |]. by rewrite length_block_of.
      - done. }
    destruct (decide (block_of st (d, s) !!! inner = 0)); [| exact Hin].
    by rewrite block_of_insert_ne. }
  match goal with |- ?r ≠ 0 ∧ resolve ?st1 bn = _ ∧ _ =>
    assert (Ha : r ≠ 0) by (apply if_nonzero; [apply Halloc | done]);
    assert (Hres : resolve st1 bn = r) end.
  { unfold resolve, ND_INDIRECT. cbn [ip dev addrs].
    rewrite (decide_False (P := bn < Z.of_nat NDIRECT)) by done. cbv zeta.
    rewrite (decide_False (P := bn - Z.of_nat NDIRECT < Z.of_nat NINDIRECT)) by lia.
    rewrite decide_True by lia.
    fold outer inner. rewrite Ht, (decide_False (P := db = 0)) by done.
    rewrite Hbdb, (decide_False (P := s = 0)) by done.
    destruct (decide (block_of st (d, s) !!! inner = 0)) as [He | He].
    - rewrite block_of_insert_eq by apply length_block_of.
      rewrite list_lookup_total_insert_eq; [done |]. by rewrite length_block_of.
    - destruct (decide (block_of st (d, db) !!! outer = 0)); [| done].
      by rewrite block_of_insert_ne by congruence. }
  repeat split; try done.
  { cbn [trace]. unfold tr1 at 1. rewrite <- !app_assoc, drop_app_length. clear.
    destruct (decide (tbl !!! (NDIRECT + 1)%nat = 0));
      destruct (decide (block_of st _ !!! outer = 0));
      by destruct (decide (block_of st _ !!! inner = 0)). }
  apply (Hfin _ Ha Hres Hl1). intros Hin x.
  cbn [trace]. unfold tr1 at 1. rewrite <- !app_assoc, drop_app_length.
  match goal with |- x ∈ allocs _ → x ∈ reachable_blocks ?st1 =>
    assert (Hdbin : db ∈ reachable_blocks st1);
    [| assert (Hsin : s ∈ reachable_blocks st1) ] end.
  { by apply dindirect_reachable. }
  { apply (child_reachable _ db outer); [done | done | done | | done].
    cbn [ip dev]. apply Hbdb. }
  intros Hx.
  match type of Hin with ?r ∈ _ => assert (Hc : x = db ∨ x = s ∨ x = r) end.
  { revert Hx. clear. subst s tr1 db.
    destruct (decide (tbl !!! (NDIRECT + 1)%nat = 0));
      destruct (decide (block_of st _ !!! outer = 0));
      destruct (decide (block_of st _ !!! inner = 0));
      cbn; rewrite ?elem_of_cons, ?elem_of_nil; naive_solver. }
  by destruct Hc as [-> | [-> | ->]].
Qed.


(** X18: [bmap] returns a block and the inode maps [bn] to it.  When [bmap]
    returns, for a caller that holds no buffer and an allocator that never
    hands out block 0, the block returned is not 0, it is the block the
    inode maps [bn] to from now on, every buffer read has been released,
    and the device, the size and the length of the table are as before. *)
Theorem bmap_maps_block (st : state) (bn : Z) (a : Z) (st1 : state) :
  length (addrs (ip st)) = (NDIRECT + 2)%nat →
  held st = [] →
  (∀ tr, balloc_pick (dev (ip st)) tr ≠ 0) →
  0 ≤ bn →
  bmap bn st = Ret a st1 →
  a ≠ 0 ∧ resolve st1 bn = a ∧ held st1 = [] ∧
  dev (ip st1) = dev (ip st) ∧ size (ip st1) = size (ip st) ∧
  length (addrs (ip st1)) = (NDIRECT + 2)%nat.
Proof.
  intros Hlen Hheld Halloc Hbn Hret.
  destruct (bmap_returns st bn a st1 Hlen Hheld Halloc Hbn Hret)
    as (Ha & Hres & Hh & Hd & Hsz & Hl & _).
  auto 10.
Qed.

(** X21: what [bmap] allocates, the next [itrunc] frees.  [bmap] frees no
    block; and when it returns, every block it has allocated on the way,
    the data block and the index blocks alike, is among the blocks that
    [itrunc] frees, so growing a file and truncating it loses no block. *)
Theorem bmap_allocations_are_freed (st : state) (bn : Z) (a : Z) (st1 : state) :
  length (addrs (ip st)) = (NDIRECT + 2)%nat →
  held st = [] →
  (∀ tr, balloc_pick (dev (ip st)) tr ≠ 0) →
  0 ≤ bn →
  bmap bn st = Ret a st1 →
  addrs (ip st1) !!! (NDIRECT + 1)%nat
    ∉ entries st1 (addrs (ip st1) !!! (NDIRECT + 1)%nat) →
  frees (drop (length (trace st)) (trace st1)) = [] ∧
  ∃ st2,
    itrunc st1 = Ret tt st2 ∧
    ∀ x, x ∈ allocs (drop (length (trace st)) (trace st1)) →
         x ∈ frees (drop (length (trace st1)) (trace st2)).
Proof.
  intros Hlen Hheld Halloc Hbn Hret Hwf.
  destruct (bmap_returns st bn a st1 Hlen Hheld Halloc Hbn Hret)
    as (_ & _ & Hh & _ & _ & Hl & Hfr & Hal).
  split; [done |].
  eexists. split; [by apply itrunc_run |]. cbn [trace].
  rewrite drop_app_length, frees_itrunc_calls. exact Hal.
Qed.

End WithEnv.

(** C3, as stated, fails: [itrunc] keeps no record of the blocks it has
    freed.  In [twice_named] the direct entries 0 and 1 both name block 21;
    [itrunc] returns and has called [bfree] for block 21 twice. *)
Lemma itrunc_frees_shared_block_twice :
  length (addrs (ip twice_named)) = 13%nat ∧ held twice_named = [] ∧
  reachable_blocks (H := xv6) twice_named = [21; 21] ∧
  ∃ st', itrunc (H := xv6) twice_named = Ret tt st' ∧
         frees (trace st') = [21; 21] ∧
         ¬ NoDup (frees (trace st')).
Proof.
  split; [vm_compute; reflexivity |]. split; [vm_compute; reflexivity |].
  split; [vm_compute; reflexivity |].
  eexists. split; [vm_compute; reflexivity |].
  split; [vm_compute; reflexivity |].
  intros Hnd. vm_compute in Hnd.
  apply NoDup_cons in Hnd as [Hnot _]. apply Hnot. by left.
Qed.

Lemma itrunc_frees_all_witness :
  ∃ st',
    itrunc (H := xv6) small_file = Ret tt st' ∧
    trace st' = trace small_file ++ itrunc_calls (H := xv6) small_file ∧
    frees (itrunc_calls (H := xv6) small_file) = reachable_blocks (H := xv6) small_file.
Proof.
  destruct (itrunc_frees_all (H := xv6) small_file) as (st' & H1 & H2 & H3 & _).
  - vm_compute. reflexivity.
  - vm_compute. reflexivity.
  - vm_compute. intros Hin. repeat (apply elem_of_cons in Hin as [Hin | Hin]; [discriminate |]).
    by apply elem_of_nil in Hin.
  - exists st'. exact (conj H1 (conj H2 H3)).
Defined.

Lemma itrunc_idempotent_witness :
  ∃ st1, itrunc (H := xv6) small_file = Ret tt st1 ∧
         addrs (ip st1) = replicate 13 0 ∧ size (ip st1) = 0.
Proof.
  destruct (itrunc (H := xv6) small_file) as [[] st1 | |] eqn:Hr;
    [| vm_compute in Hr; discriminate | vm_compute in Hr; discriminate].
  exists st1. split; [reflexivity |].
  destruct (itrunc_idempotent (H := xv6) small_file st1) as (H1 & H2 & _).
  - vm_compute. reflexivity.
  - exact Hr.
  - exact (conj H1 H2).
Defined.

(** C6, as stated, fails: in [small_file] the single-indirect block 1001
    holds the pointer 1002 at index 5 and the double-indirect block 1003
    holds the pointer 1004 at index 0; [itrunc] frees these blocks, and
    afterwards both entries still read 1002 and 1004. *)
Lemma itrunc_keeps_index_entries :
  addrs (ip small_file) !!! 11%nat = 1001 ∧
  addrs (ip small_file) !!! 12%nat = 1003 ∧
  block_of (H := xv6) small_file (1, 1001) !!! 5%nat = 1002 ∧
  block_of (H := xv6) small_file (1, 1003) !!! 0%nat = 1004 ∧
  ∃ st', itrunc (H := xv6) small_file = Ret tt st' ∧
         block_of (H := xv6) st' (1, 1001) !!! 5%nat = 1002 ∧
         block_of (H := xv6) st' (1, 1003) !!! 0%nat = 1004.
Proof.
  split; [vm_compute; reflexivity |]. split; [vm_compute; reflexivity |].
  split; [vm_compute; reflexivity |]. split; [vm_compute; reflexivity |].
  eexists. split; [vm_compute; reflexivity |].
  split; vm_compute; reflexivity.
Qed.

Lemma itrunc_zeroes_table_witness :
  ∃ st',
    itrunc (H := xv6) small_file = Ret tt st' ∧
    addrs (ip st') = replicate 13 0 ∧
    blocks st' = blocks small_file.
Proof.
  destruct (itrunc_zeroes_table (H := xv6) small_file)
    as ((st' & H1 & H2 & _ & H3 & _) & _).
  - vm_compute. reflexivity.
  - vm_compute. reflexivity.
  - vm_compute. intros Hin.
    repeat (apply elem_of_cons in Hin as [Hin | Hin]; [discriminate |]).
    by apply elem_of_nil in Hin.
  - exists st'. exact (conj H1 (conj H2 H3)).
Defined.

Lemma bmap_resolves_witness :
  ∃ st',
    bmap (H := xv6) 270 empty_file = Ret 1002 st' ∧
    trace st' =
      [EvBalloc 1 1000; EvBread 1 1000; EvBalloc 1 1001; EvLogWrite 1 1000;
       EvBread 1 1001; EvBalloc 1 1002; EvLogWrite 1 1001;
       EvBrelse 1 1001; EvBrelse 1 1000].
Proof.
  destruct (bmap_resolves (H := xv6) empty_file 270) as (_ & _ & Hd & _).
  - vm_compute. reflexivity.
  - destruct Hd as (_ & _ & Heq).
    + cbn. lia.
    + vm_compute. intros Hin. by apply elem_of_nil in Hin.
    + vm_compute. intros Hin. by apply elem_of_nil in Hin.
    + vm_compute. discriminate.
    + eexists. split; [rewrite Heq; vm_compute; reflexivity |].
      vm_compute. reflexivity.
Defined.

Lemma bmap_mapped_is_lookup_witness :
  ∃ st1,
    bmap (H := xv6) 270 small_file = Ret (resolve (H := xv6) small_file 270) st1 ∧
    ip st1 = ip small_file ∧ blocks st1 = blocks small_file ∧ held st1 = [] ∧
    allocs (drop (length (trace small_file)) (trace st1)) = [] ∧
    logged (drop (length (trace small_file)) (trace st1)) = [] ∧
    frees (drop (length (trace small_file)) (trace st1)) = [].
Proof.
  apply (bmap_mapped_is_lookup (H := xv6) small_file 270).
  - vm_compute. reflexivity.
  - vm_compute. intros Hin. repeat (apply elem_of_cons in Hin as [Hin | Hin]; [discriminate |]).
    by apply elem_of_nil in Hin.
  - lia.
  - vm_compute. discriminate.
Defined.

Lemma mapped_block_is_freed_witness :
  ∃ st',
    itrunc (H := xv6) small_file = Ret tt st' ∧
    resolve (H := xv6) small_file 270
      ∈ frees (drop (length (trace small_file)) (trace st')) ∧
    ∀ bn', 0 ≤ bn' → resolve (H := xv6) st' bn' = 0.
Proof.
  apply (mapped_block_is_freed (H := xv6) small_file 270).
  - vm_compute. reflexivity.
  - vm_compute. reflexivity.
  - vm_compute. intros Hin. repeat (apply elem_of_cons in Hin as [Hin | Hin]; [discriminate |]).
    by apply elem_of_nil in Hin.
  - lia.
  - vm_compute. discriminate.
Defined.

Lemma bmap_maps_block_witness :
  1002 ≠ 0 ∧ resolve (H := xv6) (then_bmap 270 empty_file) 270 = 1002 ∧
  held (then_bmap 270 empty_file) = [] ∧
  dev (ip (then_bmap 270 empty_file)) = dev (ip empty_file) ∧
  size (ip (then_bmap 270 empty_file)) = size (ip empty_file) ∧
  length (addrs (ip (then_bmap 270 empty_file))) = (NDIRECT (Env := xv6) + 2)%nat.
Proof.
  apply (bmap_maps_block (H := xv6) empty_file 270 1002 (then_bmap 270 empty_file)).
  - vm_compute. reflexivity.
  - vm_compute. reflexivity.
  - intros tr. cbn. unfold count_up. lia.
  - lia.
  - vm_compute. reflexivity.
Defined.

Lemma bmap_allocations_are_freed_witness :
  frees (drop (length (trace empty_file)) (trace (then_bmap 270 empty_file))) = [] ∧
  ∃ st2,
    itrunc (H := xv6) (then_bmap 270 empty_file) = Ret tt st2 ∧
    ∀ x, x ∈ allocs (drop (length (trace empty_file))
                          (trace (then_bmap 270 empty_file))) →
         x ∈ frees (drop (length (trace (then_bmap 270 empty_file))) (trace st2)).
Proof.
  apply (bmap_allocations_are_freed (H := xv6) empty_file 270 1002
           (then_bmap 270 empty_file)).
  - vm_compute. reflexivity.
  - vm_compute. reflexivity.
  - intros tr. cbn. unfold count_up. lia.
  - lia.
  - vm_compute. reflexivity.
  - vm_compute. intros Hin. repeat (apply elem_of_cons in Hin as [Hin | Hin]; [discriminate |]).
    by apply elem_of_nil in Hin.
Defined.

End FsProps.
